(** * QuickLink URL shortener: the record store, the hot cache and the
      shortcode generator of [url-shortener-service/server.js]

    The development embeds the classes [MemoryStore] and
    [ShortcodeGenerator] and the body of the [POST /api/urls] handler as
    Rocq functions and proves the properties the specification states
    about them.

    Conventions of the embedding:
    - a [Date] is its millisecond value, a [Z]; every operation that
      reads the clock ([new Date()]) takes the instant as its argument
      [now], the reads of one call being taken at the same instant;
    - JavaScript numbers that count things are [nat]; the loss of
      precision of doubles above 2^53 is not modelled;
    - [this.urls] and [this.analytics] are finite maps ([gmap]);
      [this.cache] is a JavaScript [Map] whose iteration order the code
      relies on, so it is an association list in insertion order
      (module [JSMap]);
    - a method that mutates [this] takes the store and returns the new
      store next to its result;
    - [Math.random()] and [Date.now()] inside the generator are read
      from an environment, the sequences of the values they return;
    - the [POST /api/urls] handler is its own body: the middleware in
      front of it (schema validation, [sanitizeShortcode], the URL checks)
      has run, and [req.body] is what it passed on. *)

From Stdlib Require Import ZArith String Ascii List Lia.
From stdpp Require Import base option list sorting gmap strings.

Set Warnings "-abstract-large-number,-clear-no-such-hyp".
Local Open Scope string_scope.
Local Open Scope list_scope.
Local Open Scope nat_scope.

(** ** JavaScript helpers *)

(** [x || d] on a possibly missing string: the empty string and
    [undefined] are both falsy. *)
Definition or_default (x : option string) (d : string) : string :=
  match x with
  | Some s => if decide (s = "") then d else s
  | None => d
  end.

(** A key of an object spread [{ k: base, ...o }]: the value of [o]
    wins whenever [o] has the key. *)
Definition spread_over {A : Type} (x : option A) (base : A) : A :=
  match x with
  | Some v => v
  | None => base
  end.

(** ** The JavaScript [Map], with its insertion order *)

Module JSMap.
Section ordered_map.
Context {V : Type}.

Definition t := list (string * V).

Definition empty : t := [].

Fixpoint get (k : string) (m : t) : option V :=
  match m with
  | [] => None
  | (k', v) :: m' => if decide (k = k') then Some v else get k m'
  end.

Definition has (k : string) (m : t) : bool :=
  match get k m with Some _ => true | None => false end.

(** [set] keeps the position of a key that is already there and
    appends a new key at the end. *)
Fixpoint set (k : string) (v : V) (m : t) : t :=
  match m with
  | [] => [(k, v)]
  | (k', v') :: m' =>
      if decide (k = k') then (k', v) :: m' else (k', v') :: set k v m'
  end.

Fixpoint delete (k : string) (m : t) : t :=
  match m with
  | [] => []
  | (k', v') :: m' =>
      if decide (k = k') then delete k m' else (k', v') :: delete k m'
  end.

Definition size (m : t) : nat := List.length m.

Definition keys (m : t) : list string := m.*1.

(** [m.keys().next().value]: the oldest key, [undefined] on an empty
    map. *)
Definition firstKey (m : t) : option string := head (keys m).

(** [m.delete(m.keys().next().value)]; deleting [undefined] removes
    nothing. *)
Definition deleteFirst (m : t) : t :=
  match firstKey m with
  | Some k => delete k m
  | None => m
  end.
End ordered_map.
Arguments t : clear implicits.
End JSMap.

(** ** Data model *)

Record UrlRecord := mkUrlRecord {
  shortcode : string;
  originalUrl : string;
  description : string;
  createdAt : Z;
  expiresAt : Z;
  isActive : bool;
  clickCount : nat;
  lastAccessed : option Z
}.

(** The argument [urlData] of [storeUrl]. *)
Module UrlData.
Record t := mk {
  url : string;
  expiresIn : Z;
  description : option string
}.
End UrlData.

(** The argument [metadata] of [recordClick]; [None] is a key that the
    object does not have. *)
Module Metadata.
Record t := mk {
  ip : option string;
  userAgent : option string;
  referer : option string;
  timestamp : option Z;
  requestId : option string
}.
Definition none : t := mk None None None None None.
End Metadata.

Record ClickEvent := mkClickEvent {
  timestamp : Z;
  ip : string;
  userAgent : string;
  referer : string;
  country : string;
  requestId : option string
}.

Record Stats := mkStats {
  totalUrls : nat;
  totalClicks : nat;
  createdToday : nat;
  lastCleanup : Z
}.

Record MemoryStore := mkMemoryStore {
  urls : gmap string UrlRecord;
  analytics : gmap string (list ClickEvent);
  cache : JSMap.t UrlRecord;
  cacheSize : nat;
  stats : Stats
}.

Definition set_urls (f : gmap string UrlRecord -> gmap string UrlRecord)
    (s : MemoryStore) : MemoryStore :=
  mkMemoryStore (f (urls s)) (analytics s) (cache s) (cacheSize s) (stats s).

Definition set_analytics
    (f : gmap string (list ClickEvent) -> gmap string (list ClickEvent))
    (s : MemoryStore) : MemoryStore :=
  mkMemoryStore (urls s) (f (analytics s)) (cache s) (cacheSize s) (stats s).

Definition set_cache (f : JSMap.t UrlRecord -> JSMap.t UrlRecord)
    (s : MemoryStore) : MemoryStore :=
  mkMemoryStore (urls s) (analytics s) (f (cache s)) (cacheSize s) (stats s).

Definition set_stats (f : Stats -> Stats) (s : MemoryStore) : MemoryStore :=
  mkMemoryStore (urls s) (analytics s) (cache s) (cacheSize s) (f (stats s)).

(** ** [MemoryStore] *)

(** [constructor()] *)
Definition newMemoryStore (now : Z) : MemoryStore :=
  {| urls := ∅; analytics := ∅; cache := JSMap.empty; cacheSize := 1000;
     stats := {| totalUrls := 0; totalClicks := 0; createdToday := 0;
                 lastCleanup := now |} |}.

Definition storeUrl (now : Z) (code : string) (urlData : UrlData.t)
    (s : MemoryStore) : UrlRecord * MemoryStore :=
  let record :=
    {| shortcode := code;
       originalUrl := UrlData.url urlData;
       description := or_default (UrlData.description urlData) "";
       createdAt := now;
       expiresAt := (now + UrlData.expiresIn urlData * 60 * 1000)%Z;
       isActive := true;
       clickCount := 0;
       lastAccessed := None |} in
  let s1 := set_urls (insert code record) s in
  let s2 := set_analytics (insert code []) s1 in
  let s3 := set_stats (fun st =>
              {| totalUrls := totalUrls st + 1;
                 totalClicks := totalClicks st;
                 createdToday := createdToday st + 1;
                 lastCleanup := lastCleanup st |}) s2 in
  (record, s3).

Definition _addToCache (code : string) (record : UrlRecord)
    (s : MemoryStore) : MemoryStore :=
  let s1 := if cacheSize s <=? JSMap.size (cache s)
            then set_cache JSMap.deleteFirst s
            else s in
  set_cache (JSMap.set code record) s1.

Definition deactivate (r : UrlRecord) : UrlRecord :=
  {| shortcode := shortcode r; originalUrl := originalUrl r;
     description := description r; createdAt := createdAt r;
     expiresAt := expiresAt r; isActive := false;
     clickCount := clickCount r; lastAccessed := lastAccessed r |}.

(** [getUrl] from [const record = this.urls.get(shortcode)] on: the
    lookup in the authoritative map. *)
Definition getUrl_record (now : Z) (code : string) (s : MemoryStore)
    : option UrlRecord * MemoryStore :=
  match urls s !! code with
  | None => (None, s)
  | Some record =>
      if (expiresAt record <=? now)%Z
      then (None, set_urls (insert code (deactivate record)) s)
      else if 5 <? clickCount record
           then (Some record, _addToCache code record s)
           else (Some record, s)
  end.

Definition getUrl (now : Z) (code : string) (s : MemoryStore)
    : option UrlRecord * MemoryStore :=
  match JSMap.get code (cache s) with
  | Some cached =>
      if (now <? expiresAt cached)%Z
      then (Some cached, s)
      else getUrl_record now code (set_cache (JSMap.delete code) s)
  | None => getUrl_record now code s
  end.

Definition _getCountryFromIp (ip : option string) : string :=
  match ip with
  | None => "Unknown"
  | Some a =>
      if decide (a = "") then "Unknown"
      else if decide (a = "unknown") then "Unknown"
      else if decide (a = "127.0.0.1") then "Local"
      else if decide (a = "::1") then "Local"
      else "Unknown"
  end.

Definition clicked (now : Z) (r : UrlRecord) : UrlRecord :=
  {| shortcode := shortcode r; originalUrl := originalUrl r;
     description := description r; createdAt := createdAt r;
     expiresAt := expiresAt r; isActive := isActive r;
     clickCount := clickCount r + 1; lastAccessed := Some now |}.

Definition clickData (now : Z) (metadata : Metadata.t) : ClickEvent :=
  {| timestamp := spread_over (Metadata.timestamp metadata) now;
     ip := spread_over (Metadata.ip metadata)
             (or_default (Metadata.ip metadata) "unknown");
     userAgent := spread_over (Metadata.userAgent metadata)
                    (or_default (Metadata.userAgent metadata) "unknown");
     referer := spread_over (Metadata.referer metadata)
                  (or_default (Metadata.referer metadata) "direct");
     country := _getCountryFromIp (Metadata.ip metadata);
     requestId := Metadata.requestId metadata |}.

(** [analytics.push(clickData)] followed by the trimming
    [if (analytics.length > 100) analytics.splice(0, analytics.length - 100)]. *)
Definition push_capped (log : list ClickEvent) (e : ClickEvent)
    : list ClickEvent :=
  let log' := log ++ [e] in
  if 100 <? List.length log' then drop (List.length log' - 100) log' else log'.

Definition recordClick (now : Z) (code : string) (metadata : Metadata.t)
    (s : MemoryStore) : bool * MemoryStore :=
  match urls s !! code with
  | None => (false, s)
  | Some record0 =>
      let record := clicked now record0 in
      let s1 := set_urls (insert code record) s in
      let s2 := set_stats (fun st =>
                  {| totalUrls := totalUrls st;
                     totalClicks := totalClicks st + 1;
                     createdToday := createdToday st;
                     lastCleanup := lastCleanup st |}) s1 in
      let log := default [] (analytics s2 !! code) in
      let s3 := set_analytics
                  (insert code (push_capped log (clickData now metadata))) s2 in
      let s4 := if JSMap.has code (cache s3)
                then set_cache (JSMap.set code record) s3
                else s3 in
      (true, s4)
  end.

Definition exists_ (code : string) (s : MemoryStore) : bool :=
  bool_decide (is_Some (urls s !! code)).

(** The body of the [for ... of this.urls.entries()] loop of
    [cleanupExpiredUrls], run over the entries in iteration order. *)
Fixpoint cleanup_loop (now : Z) (entries : list (string * UrlRecord))
    (s : MemoryStore) (cleanedCount : nat) : nat * MemoryStore :=
  match entries with
  | [] => (cleanedCount, s)
  | (code, record) :: rest =>
      if (expiresAt record <=? now)%Z
      then
        let s1 := set_urls (delete code) s in
        let s2 := set_analytics (delete code) s1 in
        let s3 := set_cache (JSMap.delete code) s2 in
        cleanup_loop now rest s3 (cleanedCount + 1)
      else cleanup_loop now rest s cleanedCount
  end.

Definition cleanupExpiredUrls (now : Z) (s : MemoryStore)
    : nat * MemoryStore :=
  let '(cleanedCount, s1) := cleanup_loop now (map_to_list (urls s)) s 0 in
  (cleanedCount,
   set_stats (fun st =>
     {| totalUrls := totalUrls st; totalClicks := totalClicks st;
        createdToday := createdToday st; lastCleanup := now |}) s1).

(** ** [ShortcodeGenerator] *)

(** *** Strings and numbers of JavaScript *)

(** [s.charAt(i)]: the empty string out of range. *)
Definition charAt (i : nat) (s : string) : string :=
  match String.get i s with
  | Some c => String c EmptyString
  | None => ""
  end.

(** [s[i]] appended to a string: [undefined] out of range, which string
    concatenation prints. *)
Definition index_text (i : option nat) (s : string) : string :=
  match i with
  | Some n => match String.get n s with
              | Some c => String c EmptyString
              | None => "undefined"
              end
  | None => "undefined"
  end.

(** [s.slice(-n)]: the last [n] characters; [s.slice(-0)] is the whole
    string. *)
Definition slice_last (n : nat) (s : string) : string :=
  if n =? 0 then s else String.substring (String.length s - n) n s.

Definition digit36 (d : nat) : string :=
  charAt d "0123456789abcdefghijklmnopqrstuvwxyz".

Fixpoint toString36_N (fuel : nat) (n : N) (acc : string) : string :=
  match fuel with
  | 0 => acc
  | S fuel' =>
      let acc' := digit36 (N.to_nat (n mod 36)) +:+ acc in
      if (n <? 36)%N then acc' else toString36_N fuel' (n / 36) acc'
  end.

(** [n.toString(36)] on an integer. *)
Definition toString36 (z : Z) : string :=
  let digits n := toString36_N (S (N.size_nat n)) n "" in
  if (z <? 0)%Z then "-" +:+ digits (Z.to_N (- z)) else digits (Z.to_N z).

Definition hexDigit (c : ascii) : option nat :=
  let n := nat_of_ascii c in
  if (48 <=? n) && (n <=? 57) then Some (n - 48)
  else if (97 <=? n) && (n <=? 102) then Some (n - 87)
  else if (65 <=? n) && (n <=? 70) then Some (n - 55)
  else None.

Fixpoint parseHex_from (s : string) (acc : option nat) : option nat :=
  match s with
  | EmptyString => acc
  | String c s' =>
      match hexDigit c with
      | Some d => parseHex_from s' (Some (16 * default 0 acc + d))
      | None => acc
      end
  end.

(** [parseInt(s, 16)] on a piece of a hexadecimal digest: the longest
    prefix of hexadecimal digits, [NaN] ([None]) when there is none. *)
Definition parseInt16 (s : string) : option nat := parseHex_from s None.

(** A value of [Math.random()]: the fraction
    [numer / (numer + slack + 1)], which lies in the interval from 0
    (included) to 1 (excluded) by construction. *)
Record unit_draw := mkDraw { numer : nat; slack : nat }.

(** [Math.floor(u * n)] (exact arithmetic). *)
Definition floor_scale (u : unit_draw) (n : nat) : nat :=
  (numer u * n) / (numer u + slack u + 1).

Inductive error :=
  | Error (message : string)
  | ConflictError (message : string).

(** The ways a call ends; [OutOfFuel] is the bounded loop of the model
    running out, which [generate] never does ([generate_runs]). *)
Inductive outcome (A : Type) :=
  | Returned (a : A)
  | Thrown (e : error)
  | OutOfFuel.
Arguments Returned {A} a.
Arguments Thrown {A} e.
Arguments OutOfFuel {A}.

Module Options.
Record t := mk {
  length : nat;
  strategy : string;
  url : option string;
  readable : bool;
  maxAttempts : nat
}.
(** The defaults of the destructuring in [generate]. *)
Definition default : t := mk 6 "random" None false 10.
End Options.

(** The mutable part of a generator: [this.counter], and how many
    values of [Math.random()] and of [Date.now()] it has consumed. *)
Record ShortcodeGenerator := mkGenerator {
  counter : nat;
  randomCalls : nat;
  nowCalls : nat
}.

Definition charset : string :=
  "abcdefghijklmnopqrstuvwxyzABCDEFGHIJKLMNOPQRSTUVWXYZ0123456789".

Definition readableCharset : string :=
  "abcdefghijkmnpqrstuvwxyzABCDEFGHJKLMNPQRSTUVWXYZ23456789".

Section Generator.
(** The environment: the successive values of [Math.random()] and of
    [Date.now()], and the hexadecimal MD5 digest of [crypto]. *)
Variable random : nat -> unit_draw.
Variable dateNow : nat -> Z.
Variable md5hex : string -> string.

(** [Math.floor(Math.random() * n)] *)
Definition randomIndex (n : nat) (g : ShortcodeGenerator)
    : nat * ShortcodeGenerator :=
  (floor_scale (random (randomCalls g)) n,
   mkGenerator (counter g) (S (randomCalls g)) (nowCalls g)).

(** [constructor()] *)
Definition newShortcodeGenerator : ShortcodeGenerator :=
  let '(c, g) := randomIndex 1000 (mkGenerator 0 0 0) in
  mkGenerator c (randomCalls g) (nowCalls g).

Fixpoint generateRandom_loop (chars : string) (n : nat) (result : string)
    (g : ShortcodeGenerator) : string * ShortcodeGenerator :=
  match n with
  | 0 => (result, g)
  | S n' =>
      let '(i, g') := randomIndex (String.length chars) g in
      generateRandom_loop chars n' (result +:+ charAt i chars) g'
  end.

Definition generateRandom (length : nat) (readable : bool)
    (g : ShortcodeGenerator) : string * ShortcodeGenerator :=
  let chars := if readable then readableCharset else charset in
  generateRandom_loop chars length "" g.

Fixpoint generateFromUrl_loop (hash : string) (i n : nat) (result : string)
    : string :=
  match n with
  | 0 => result
  | S n' =>
      let index := (fun v => v mod String.length charset)
                     <$> parseInt16 (String.substring (i * 2) 2 hash) in
      generateFromUrl_loop hash (S i) n' (result +:+ index_text index charset)
  end.

Definition generateFromUrl (url : string) (length : nat) : string :=
  generateFromUrl_loop (md5hex url) 0 length "".

(** The [while (result.length < length)] loop of [generateSequential];
    every turn adds one character, so [length] turns are enough. *)
Fixpoint pad_loop (fuel length : nat) (result : string)
    (g : ShortcodeGenerator) : string * ShortcodeGenerator :=
  match fuel with
  | 0 => (result, g)
  | S fuel' =>
      if String.length result <? length
      then let '(i, g') := randomIndex (String.length charset) g in
           pad_loop fuel' length (index_text (Some i) charset +:+ result) g'
      else (result, g)
  end.

Definition generateSequential (length : nat) (g : ShortcodeGenerator)
    : string * ShortcodeGenerator :=
  let counter' := (counter g + 1) mod 10000 in
  let timestamp := dateNow (nowCalls g) in
  let g1 := mkGenerator counter' (randomCalls g) (S (nowCalls g)) in
  let combined := toString36 timestamp +:+ toString36 (Z.of_nat counter') in
  pad_loop length length (slice_last length combined) g1.

(** The [switch (strategy)] of [generate]: one candidate. *)
Definition candidate (options : Options.t) (g : ShortcodeGenerator)
    : outcome (string * ShortcodeGenerator) :=
  if decide (Options.strategy options = "url-based") then
    match Options.url options with
    | Some u =>
        if decide (u = "")
        then Thrown (Error "URL required for url-based strategy")
        else Returned (generateFromUrl u (Options.length options), g)
    | None => Thrown (Error "URL required for url-based strategy")
    end
  else if decide (Options.strategy options = "sequential") then
    Returned (generateSequential (Options.length options) g)
  else
    Returned (generateRandom (Options.length options)
                (Options.readable options) g).

(** The result of [generate]: the shortcode, the generator afterwards
    and the state of the callback afterwards. *)
Record generated (C : Type) := mkGenerated {
  code_of : string;
  attempts_of : nat;
  generator_of : ShortcodeGenerator;
  callback_of : C
}.
Arguments code_of {C} _.
Arguments attempts_of {C} _.
Arguments generator_of {C} _.
Arguments callback_of {C} _.

(** The [do ... while (attempts < maxAttempts)] loop. The callback may
    be any function with a state of its own, [C]; [callback = None]
    is [existsCallback = null]. The loop takes at most [maxAttempts]
    turns (one when [maxAttempts] is 0), the bound [fuel]. *)
Fixpoint generate_loop {C : Type} (fuel : nat) (options : Options.t)
    (existsCallback : option (string -> C -> bool * C))
    (attempts : nat) (g : ShortcodeGenerator) (c : C)
    : outcome (generated C) :=
  match fuel with
  | 0 => OutOfFuel
  | S fuel' =>
      let attempts := attempts + 1 in
      match candidate options g with
      | Thrown e => Thrown e
      | OutOfFuel => OutOfFuel
      | Returned (shortcode, g1) =>
          match existsCallback with
          | None => Returned (mkGenerated C shortcode attempts g1 c)
          | Some callback =>
              let '(exists_, c1) := callback shortcode c in
              if negb exists_
              then Returned (mkGenerated C shortcode attempts g1 c1)
              else if Options.maxAttempts options <=? attempts
              then
                let '(longer, g2) :=
                  generateRandom (Options.length options + 2)
                    (Options.readable options) g1 in
                Returned (mkGenerated C longer attempts g2 c1)
              else if attempts <? Options.maxAttempts options
              then generate_loop fuel' options existsCallback attempts g1 c1
              else Returned (mkGenerated C shortcode attempts g1 c1)
          end
      end
  end.

Definition generate {C : Type} (options : Options.t)
    (existsCallback : option (string -> C -> bool * C))
    (g : ShortcodeGenerator) (c : C) : outcome (generated C) :=
  generate_loop (S (Options.maxAttempts options)) options existsCallback
    0 g c.

(** *** The [POST /api/urls] handler, after the validation middleware *)

Record CreateBody := mkCreateBody {
  body_url : string;
  body_shortcode : option string;
  body_expiresIn : Z;
  body_description : option string
}.

(** [(code) => memoryStore.exists(code)] *)
Definition storeExists (code : string) (s : MemoryStore)
    : bool * MemoryStore :=
  (exists_ code s, s).

Definition createUrl (now : Z) (body : CreateBody)
    (g : ShortcodeGenerator) (s : MemoryStore)
    : outcome (UrlRecord * ShortcodeGenerator * MemoryStore) :=
  let urlData := UrlData.mk (body_url body) (body_expiresIn body)
                   (body_description body) in
  let store finalShortcode g' :=
    let '(urlRecord, s') := storeUrl now finalShortcode urlData s in
    Returned (urlRecord, g', s') in
  let generated_code :=
    match generate
            (Options.mk 6 "sequential" (Some (body_url body)) true 10)
            (Some storeExists) g s with
    | Returned r => store (code_of r) (generator_of r)
    | Thrown e => Thrown e
    | OutOfFuel => OutOfFuel
    end in
  match body_shortcode body with
  | Some customShortcode =>
      if decide (customShortcode = "") then generated_code
      else if exists_ customShortcode s
      then Thrown (ConflictError
             ("Shortcode '" +:+ customShortcode +:+ "' is already taken"))
      else store customShortcode g
  | None => generated_code
  end.
End Generator.

Arguments code_of {C} _.
Arguments attempts_of {C} _.
Arguments generator_of {C} _.
Arguments callback_of {C} _.

(** ** Runs, reachable stores and the properties stated about them *)

(** The stores the public methods of [MemoryStore] can produce from
    [new MemoryStore()], whatever their arguments. *)
Inductive reachable : MemoryStore -> Prop :=
  | reach_new now : reachable (newMemoryStore now)
  | reach_storeUrl s now code urlData :
      reachable s -> reachable (storeUrl now code urlData s).2
  | reach_getUrl s now code :
      reachable s -> reachable (getUrl now code s).2
  | reach_recordClick s now code metadata :
      reachable s -> reachable (recordClick now code metadata s).2
  | reach_cleanup s now :
      reachable s -> reachable (cleanupExpiredUrls now s).2.

(** Every key of the cache is a key of the record map. *)
Definition cache_included (s : MemoryStore) : Prop :=
  forall code, JSMap.has code (cache s) = true -> is_Some (urls s !! code).

(** The snapshot cached for [code], if there is one, carries the expiry
    of the record stored under [code]. *)
Definition cache_fresh (code : string) (s : MemoryStore) : Prop :=
  forall cached, JSMap.get code (cache s) = Some cached ->
    exists record, urls s !! code = Some record /\
                   expiresAt cached = expiresAt record.

(** The shape the cache keeps: distinct keys (it is a [Map]) and no more
    than [cacheSize] of them. *)
Definition cache_bounded (s : MemoryStore) : Prop :=
  NoDup (JSMap.keys (cache s)) /\ JSMap.size (cache s) <= cacheSize s.

Definition logs_capped (s : MemoryStore) : Prop :=
  forall code log, analytics s !! code = Some log -> List.length log <= 100.

(** [recordClick] called once per element of [clicks], in order. *)
Fixpoint recordClicks (code : string) (clicks : list (Z * Metadata.t))
    (s : MemoryStore) : MemoryStore :=
  match clicks with
  | [] => s
  | (now, metadata) :: rest =>
      recordClicks code rest (recordClick now code metadata s).2
  end.

(** [getUrl] called once per element of [codes], in order, at [now]. *)
Fixpoint getUrls (now : Z) (codes : list string) (s : MemoryStore)
    : MemoryStore :=
  match codes with
  | [] => s
  | code :: rest => getUrls now rest (getUrl now code s).2
  end.

(** A key is hot and live: [getUrl] finds its record, not expired, with
    more than 5 clicks. *)
Definition hot_live (now : Z) (s : MemoryStore) (code : string) : Prop :=
  exists record, urls s !! code = Some record /\
                 (now < expiresAt record)%Z /\ 5 < clickCount record.

(** What never changes in a record once created. *)
Definition same_record (r r' : UrlRecord) : Prop :=
  shortcode r = shortcode r' /\ originalUrl r = originalUrl r' /\
  description r = description r' /\ createdAt r = createdAt r' /\
  expiresAt r = expiresAt r'.

(** The characters of a string. *)
Definition chars_of (s : string) : list ascii := list_ascii_of_string s.

(** The characters the specification lists as excluded from the readable
    set, and the ones the code leaves out. *)
Definition ambiguous_listed : list ascii := chars_of "0O1lI".
Definition ambiguous_left_out : list ascii := chars_of "0Oo1lI".

Section GeneratorRuns.
Variable random : nat -> unit_draw.
Variable dateNow : nat -> Z.
Variable md5hex : string -> string.

(** The first [n] candidates of [generate], in order, and the
    generator after them. *)
Fixpoint candidates (options : Options.t) (n : nat)
    (g : ShortcodeGenerator) : outcome (list string * ShortcodeGenerator) :=
  match n with
  | 0 => Returned ([], g)
  | S n' =>
      match candidate random dateNow md5hex options g with
      | Returned (shortcode, g1) =>
          match candidates options n' g1 with
          | Returned (rest, g2) => Returned (shortcode :: rest, g2)
          | Thrown e => Thrown e
          | OutOfFuel => OutOfFuel
          end
      | Thrown e => Thrown e
      | OutOfFuel => OutOfFuel
      end
  end.

(** The callback called on each code in turn: its answers and its
    state afterwards. *)
Fixpoint ask {C : Type} (callback : string -> C -> bool * C)
    (codes : list string) (c : C) : list bool * C :=
  match codes with
  | [] => ([], c)
  | code :: rest =>
      let '(b, c1) := callback code c in
      let '(bs, c2) := ask callback rest c1 in
      (b :: bs, c2)
  end.

(** A callback instrumented with the number of times it was called. *)
Definition counting {C : Type} (callback : string -> C -> bool * C)
    : string -> nat * C -> bool * (nat * C) :=
  fun code '(calls, c) =>
    let '(b, c1) := callback code c in (b, (S calls, c1)).

(** The operations of the service on the store. *)
Inductive operation :=
  | OpCreate (now : Z) (body : CreateBody)
  | OpGetUrl (now : Z) (code : string)
  | OpRecordClick (now : Z) (code : string) (metadata : Metadata.t)
  | OpCleanup (now : Z).

Definition step (op : operation) (st : ShortcodeGenerator * MemoryStore)
    : ShortcodeGenerator * MemoryStore :=
  match op with
  | OpCreate now body =>
      match createUrl random dateNow md5hex now body st.1 st.2 with
      | Returned (_, g', s') => (g', s')
      | _ => st
      end
  | OpGetUrl now code => (st.1, (getUrl now code st.2).2)
  | OpRecordClick now code metadata =>
      (st.1, (recordClick now code metadata st.2).2)
  | OpCleanup now => (st.1, (cleanupExpiredUrls now st.2).2)
  end.

Definition run (ops : list operation)
    (st : ShortcodeGenerator * MemoryStore)
    : ShortcodeGenerator * MemoryStore :=
  foldl (fun st op => step op st) st ops.

(** The shape of the code that [generate] returns unchecked when the
    create handler has used up its attempts: [generateRandom(6 + 2, true)],
    eight characters of the readable set. *)
Definition fallback_shaped (code : string) : Prop :=
  String.length code = 8 /\
  Forall (fun c => c ∈ chars_of readableCharset) (chars_of code).

(** An operation that cannot take the record [r] of the shortcode [code]
    away from it. A create request that names its shortcode is refused
    when the shortcode is taken; one that leaves the choice to the
    generator stores under a code it found free, or under the unchecked
    fallback code, which [code] is not when it has not that shape. A
    sweep comes before the expiry of [r]. *)
Definition keeps (code : string) (r : UrlRecord) (op : operation) : Prop :=
  match op with
  | OpCreate _ body =>
      (exists custom, body_shortcode body = Some custom /\ custom <> "") \/
      ~ fallback_shaped code
  | OpCleanup now => (now < expiresAt r)%Z
  | _ => True
  end.
End GeneratorRuns.

(** The events [recordClicks] logs, one per click. *)
Definition events_of (clicks : list (Z * Metadata.t)) : list ClickEvent :=
  (fun click => clickData click.1 click.2) <$> clicks.

(** [cleanup_loop] deletes the key [code] while running over [entries]:
    one of the entries under this key has expired. *)
Definition swept (now : Z) (entries : list (string * UrlRecord))
    (code : string) : bool :=
  existsb (fun entry => bool_decide (entry.1 = code) &&
                        (expiresAt entry.2 <=? now)%Z) entries.

(** The record kept by a sweep at [now]: none once expired. *)
Definition unexpired (now : Z) (record : UrlRecord) : option UrlRecord :=
  if (expiresAt record <=? now)%Z then None else Some record.

(** The snapshots of the cache are all live at [now]. *)
Definition snapshots_live (now : Z) (s : MemoryStore) : Prop :=
  forall k cached, JSMap.get k (cache s) = Some cached ->
                   (now < expiresAt cached)%Z.

(** Every snapshot of the cache carries the expiry of its record. *)
Definition cache_all_fresh (s : MemoryStore) : Prop :=
  forall code, cache_fresh code s.

(** A store in which [storeUrl] has replaced a record that the cache
    holds a snapshot of: "abc123" is created for 60 minutes at instant
    0, clicked six times, read (which caches it) and created again at
    instant 20 for one minute. *)
Definition six_clicks : list (Z * Metadata.t) :=
  (fun t => (t, Metadata.none)) <$> [1; 2; 3; 4; 5; 6]%Z.

Definition stale_store : MemoryStore :=
  let s1 := (storeUrl 0 "abc123" (UrlData.mk "https://a.example" 60 None)
               (newMemoryStore 0)).2 in
  let s2 := recordClicks "abc123" six_clicks s1 in
  let s3 := (getUrl 10 "abc123" s2).2 in
  (storeUrl 20 "abc123" (UrlData.mk "https://b.example" 1 None) s3).2.

(** [hot_live] as a test. *)
Definition hot_liveb (now : Z) (s : MemoryStore) (code : string) : bool :=
  match urls s !! code with
  | Some record => (now <? expiresAt record)%Z && (5 <? clickCount record)
  | None => false
  end.

(** A store with hot keys: each key of [codes] is created at instant 0
    for 60 minutes and clicked six times. *)
Definition hot_keys (n : nat) : list string :=
  (fun i => "k" +:+ toString36 (Z.of_nat i)) <$> seq 0 n.

Definition store_hot (codes : list string) (s : MemoryStore) : MemoryStore :=
  foldl (fun s code =>
           recordClicks code six_clicks
             (storeUrl 0 code (UrlData.mk "https://a.example" 60 None) s).2)
    s codes.

(** The cache holds a snapshot of [code] that is live at [now] by its
    own copy of the expiry: what the first lines of [getUrl] test. *)
Definition live_snapshot (now : Z) (code : string) (s : MemoryStore)
    : Prop :=
  exists cached, JSMap.get code (cache s) = Some cached /\
                 (now < expiresAt cached)%Z.

(** The record map has no record for [code], or one that has expired at
    [now]. *)
Definition expired_or_missing (now : Z) (code : string) (s : MemoryStore)
    : Prop :=
  urls s !! code = None \/
  exists record, urls s !! code = Some record /\
                 (expiresAt record <= now)%Z.

(** A run of the service that ends in a stale snapshot. The clock of the
    generator stands at 1730000000000 and every random draw is 0, so
    that the ten sequential candidates of a generator whose counter is 5
    are "1bz7k6" to "1bz7kf" and its longer random code is "aaaaaaaa".
    "aaaaaaaa" is created by request, clicked six times and read; the ten
    candidates are created by request; then a create request without a
    shortcode finds all its candidates taken and stores its record under
    "aaaaaaaa". *)
Definition stale_run : list operation :=
  [OpCreate 0 (mkCreateBody "https://a.example" (Some "aaaaaaaa") 60 None)]
  ++ ((fun click => OpRecordClick click.1 "aaaaaaaa" click.2) <$> six_clicks)
  ++ [OpGetUrl 10 "aaaaaaaa"]
  ++ ((fun code => OpCreate 11
                     (mkCreateBody "https://c.example" (Some code) 60 None))
        <$> ["1bz7k6"; "1bz7k7"; "1bz7k8"; "1bz7k9"; "1bz7ka";
             "1bz7kb"; "1bz7kc"; "1bz7kd"; "1bz7ke"; "1bz7kf"])
  ++ [OpCreate 20 (mkCreateBody "https://b.example" None 1 None)].

(** ** The rest of [MemoryStore]: statistics *)

(** [r.isActive && r.expiresAt > new Date()] *)
Definition liveb (now : Z) (r : UrlRecord) : bool :=
  isActive r && (now <? expiresAt r)%Z.

Module StoreStats.
Record t := mk {
  totalUrls : nat;
  totalClicks : nat;
  activeUrls : nat;
  cacheSize : nat;
  memory_urls : nat;
  memory_analytics : nat;
  memory_cache : nat;
  uptime : Z
}.
End StoreStats.

(** [getStats()]; the division of [Math.floor(uptime / 1000)] is the
    floor division of [Z]. *)
Definition getStats (now : Z) (s : MemoryStore) : StoreStats.t :=
  let uptime :=
    (now - (lastCleanup (stats s) - 24 * 60 * 60 * 1000))%Z in
  {| StoreStats.totalUrls := size (urls s);
     StoreStats.totalClicks := totalClicks (stats s);
     StoreStats.activeUrls :=
       List.length (filter (fun r => liveb now r = true)
                      (map_to_list (urls s)).*2);
     StoreStats.cacheSize := JSMap.size (cache s);
     StoreStats.memory_urls := size (urls s);
     StoreStats.memory_analytics := size (analytics s);
     StoreStats.memory_cache := JSMap.size (cache s);
     StoreStats.uptime := (uptime / 1000)%Z |}.

(** Every record has an event log and every event log a record. *)
Definition logs_match (s : MemoryStore) : Prop :=
  forall code, is_Some (urls s !! code) <-> is_Some (analytics s !! code).

(** Records and snapshots are kept under their own shortcode. *)
Definition keyed_by_shortcode (s : MemoryStore) : Prop :=
  (forall code record, urls s !! code = Some record ->
                       shortcode record = code) /\
  (forall code cached, JSMap.get code (cache s) = Some cached ->
                       shortcode cached = code).

(** ** The rest of [ShortcodeGenerator]: [isValid] *)

(** A character of the class [[a-zA-Z0-9_-]]. *)
Definition isCodeChar (c : ascii) : bool :=
  let n := nat_of_ascii c in
  ((97 <=? n) && (n <=? 122)) || ((65 <=? n) && (n <=? 90)) ||
  ((48 <=? n) && (n <=? 57)) || (n =? 95) || (n =? 45).

(** [isValid(shortcode)]; [None] is a value that is not a string. The
    pattern is [/^[a-zA-Z0-9_-]+$/]. *)
Definition isValid (code : option string) : bool :=
  match code with
  | None => false
  | Some s =>
      if decide (s = "") then false
      else if (String.length s <? 3) || (20 <? String.length s) then false
      else forallb isCodeChar (chars_of s)
  end.

(** The string ["undefined"] written [k] times. *)
Fixpoint undefineds (k : nat) : string :=
  match k with
  | 0 => ""
  | S k' => "undefined" +:+ undefineds k'
  end.

(** A hexadecimal digest of 32 digits, as [digest('hex')] of MD5 gives. *)
Definition hex_digest (hash : string) : Prop :=
  String.length hash = 32 /\
  Forall (fun c => is_Some (hexDigit c)) (chars_of hash).

(** A callback that reads its state and leaves it as it is, as
    [(code) => memoryStore.exists(code)] does. *)
Definition reading {C : Type} (p : string -> C -> bool)
    : string -> C -> bool * C :=
  fun code c => (p code c, c).

(** The URL that the url-based strategy needs is missing. *)
Definition url_missing (options : Options.t) : Prop :=
  Options.strategy options = "url-based" /\
  (Options.url options = None \/ Options.url options = Some "").

(** ** The rest of [MemoryStore]: analytics *)

(** [String.prototype.split('T')[0]]: what comes before the first T. *)
Fixpoint before_T (s : string) : string :=
  match s with
  | EmptyString => ""
  | String c s' =>
      if decide (c = "T"%char) then "" else String c (before_T s')
  end.

(** The properties every object inherits from [Object.prototype]. On
    such a key [counts[key] || 0] reads the inherited value instead of 0;
    the counting functions below are the code on keys that are not of
    these ([own_keys]). *)
Definition inherited_names : list string :=
  ["constructor"; "__defineGetter__"; "__defineSetter__"; "hasOwnProperty";
   "__lookupGetter__"; "__lookupSetter__"; "isPrototypeOf";
   "propertyIsEnumerable"; "toString"; "valueOf"; "__proto__";
   "toLocaleString"].

Definition own_keys (keys : list string) : Prop :=
  Forall (fun k => k ∉ inherited_names) keys.

(** [counts[key] = (counts[key] || 0) + 1] on an object whose own keys
    are kept in the order of their creation. *)
Definition tally_step (counts : JSMap.t nat) (key : string) : JSMap.t nat :=
  JSMap.set key (default 0 (JSMap.get key counts) + 1) counts.

(** [keys.forEach(key => { counts[key] = (counts[key] || 0) + 1 })] from
    the empty object. *)
Definition tally (keys : list string) : JSMap.t nat :=
  foldl tally_step JSMap.empty keys.

(** A decimal digit. *)
Definition digit_of (c : ascii) : option N :=
  let n := nat_of_ascii c in
  if (48 <=? n) && (n <=? 57) then Some (N.of_nat (n - 48)) else None.

Fixpoint decimal_from (s : string) (acc : N) : option N :=
  match s with
  | EmptyString => Some acc
  | String c s' =>
      match digit_of c with
      | Some d => decimal_from s' (10 * acc + d)%N
      | None => None
      end
  end.

(** A key that is an array index: the canonical decimal text (no
    leading zero) of an integer below 2^32 - 1. The own keys of an
    object are listed with these first, in ascending order. *)
Definition arrayIndex (key : string) : option N :=
  match key with
  | EmptyString => None
  | String c rest =>
      if bool_decide (c = "0"%char) && negb (bool_decide (rest = ""))
      then None
      else match decimal_from key 0 with
           | Some n => if (n <? 4294967295)%N then Some n else None
           | None => None
           end
  end.

(** A stable sort, as [Array.prototype.sort] is: [before y x] says that
    the comparator puts [y] strictly before [x]. *)
Fixpoint insert_sorted {A : Type} (before : A -> A -> bool) (x : A)
    (l : list A) : list A :=
  match l with
  | [] => [x]
  | y :: l' =>
      if before y x then y :: insert_sorted before x l' else x :: l
  end.

Definition stable_sort {A : Type} (before : A -> A -> bool) (l : list A)
    : list A :=
  foldr (insert_sorted before) [] l.

(** [Object.entries(counts)]: the array indices in ascending order, then
    the other keys in the order of their creation. *)
Definition objectEntries (counts : JSMap.t nat) : list (string * nat) :=
  let index_of (entry : string * nat) := default 0%N (arrayIndex entry.1) in
  stable_sort (fun y x => (index_of y <? index_of x)%N)
    (filter (fun entry => is_Some (arrayIndex entry.1)) counts)
  ++ filter (fun entry => ~ is_Some (arrayIndex entry.1)) counts.

(** [Object.entries(counts).sort(([,a], [,b]) => b - a).slice(0, 5)];
    the [map] that follows only names the two components. *)
Definition top5 (counts : JSMap.t nat) : list (string * nat) :=
  take 5 (stable_sort (fun y x => x.2 <? y.2) (objectEntries counts)).

Definition _getTopReferers (log : list ClickEvent) : list (string * nat) :=
  top5 (tally ((fun click => or_default (Some (referer click)) "direct")
                 <$> log)).

Definition _getTopCountries (log : list ClickEvent) : list (string * nat) :=
  top5 (tally ((fun click => or_default (Some (country click)) "Unknown")
                 <$> log)).

Module Analytics.
Record t := mk {
  shortcode : string;
  originalUrl : string;
  description : string;
  createdAt : Z;
  expiresAt : Z;
  isActive : bool;
  totalClicks : nat;
  lastAccessed : option Z;
  clicksByDay : JSMap.t nat;
  topReferers : list (string * nat);
  topCountries : list (string * nat);
  recentClicks : list ClickEvent
}.
End Analytics.

Section AnalyticsOfStore.
(** [Date.prototype.toISOString], of the standard library. *)
Variable toISOString : Z -> string.

Definition day_of (click : ClickEvent) : string :=
  before_T (toISOString (timestamp click)).

Definition _groupClicksByDay (log : list ClickEvent) : JSMap.t nat :=
  tally (day_of <$> log).

Definition getAnalytics (now : Z) (code : string) (s : MemoryStore)
    : option Analytics.t :=
  let log := default [] (analytics s !! code) in
  match urls s !! code with
  | None => None
  | Some record =>
      Some {| Analytics.shortcode := code;
              Analytics.originalUrl := originalUrl record;
              Analytics.description := description record;
              Analytics.createdAt := createdAt record;
              Analytics.expiresAt := expiresAt record;
              Analytics.isActive := liveb now record;
              Analytics.totalClicks := clickCount record;
              Analytics.lastAccessed := lastAccessed record;
              Analytics.clicksByDay := _groupClicksByDay log;
              Analytics.topReferers := _getTopReferers log;
              Analytics.topCountries := _getTopCountries log;
              Analytics.recentClicks := drop (List.length log - 10) log |}
  end.
End AnalyticsOfStore.

(** How many times [key] occurs in [keys]. *)
Definition occurrences (key : string) (keys : list string) : nat :=
  List.length (filter (fun k => k = key) keys).

(** The sum of the counts of an object of counts. *)
Definition total_count (counts : list (string * nat)) : nat :=
  sum_list counts.*2.

(** In every log the number of events is the click count of the record,
    up to the cap of 100, and a record was accessed when it was clicked. *)
Definition logs_counted (s : MemoryStore) : Prop :=
  forall code record, urls s !! code = Some record ->
    (exists log, analytics s !! code = Some log /\
                 List.length log = Nat.min (clickCount record) 100) /\
    (clickCount record = 0 <-> lastAccessed record = None).

(** The countries [_getCountryFromIp] knows. *)
Definition known_countries (s : MemoryStore) : Prop :=
  forall code log, analytics s !! code = Some log ->
    Forall (fun click => country click ∈ ["Unknown"; "Local"]) log.

(** ** [Date.prototype.toISOString]

    The text of a time in milliseconds since the epoch, in UTC, as the
    standard library prints it; the examples of the analytics use it. *)
Definition digit_char (n : Z) : ascii :=
  ascii_of_nat (48 + Z.to_nat (n mod 10)).

Fixpoint padded (width : nat) (n : Z) : string :=
  match width with
  | 0 => ""
  | S w => padded w (n / 10) +:+ String (digit_char n) ""
  end.

(** The year, month and day of a number of days since 1970-01-01 in the
    proleptic Gregorian calendar. *)
Definition civil_from_days (days : Z) : Z * Z * Z :=
  (let z := days + 719468 in
   let era := z / 146097 in
   let doe := z - era * 146097 in
   let yoe := (doe - doe / 1460 + doe / 36524 - doe / 146096) / 365 in
   let doy := doe - (365 * yoe + yoe / 4 - yoe / 100) in
   let mp := (5 * doy + 2) / 153 in
   let d := doy - (153 * mp + 2) / 5 + 1 in
   let m := if mp <? 10 then mp + 3 else mp - 9 in
   let y := yoe + era * 400 + (if m <=? 2 then 1 else 0) in
   (y, m, d))%Z.

Definition isoString (t : Z) : string :=
  let ms := (t mod 86400000)%Z in
  let '(y, m, d) := civil_from_days (t / 86400000) in
  let year :=
    if ((0 <=? y) && (y <=? 9999))%Z then padded 4 y
    else (if (y <? 0)%Z then "-" else "+") +:+ padded 6 (Z.abs y) in
  year +:+ "-" +:+ padded 2 m +:+ "-" +:+ padded 2 d +:+ "T" +:+
  padded 2 (ms / 3600000) +:+ ":" +:+ padded 2 (ms / 60000 mod 60) +:+ ":" +:+
  padded 2 (ms / 1000 mod 60) +:+ "." +:+ padded 3 (ms mod 1000) +:+ "Z".

(** A click that carries only a time, a referer and an address. *)
Definition click_of (t : Z) (ref ip : string) : Z * Metadata.t :=
  (t, Metadata.mk (Some ip) None (Some ref) (Some t) None).

Definition sample_clicks : list (Z * Metadata.t) :=
  [click_of 1729999999000 "a.example" "127.0.0.1";
   click_of 1730000000000 "" "10.0.0.1";
   click_of 1730000001000 "a.example" "::1";
   click_of 1730086400000 "b.example" "127.0.0.1"].

Definition sample_store : MemoryStore :=
  recordClicks "abc123" sample_clicks
    (storeUrl 1729990000000 "abc123"
       (UrlData.mk "https://a.example" 60 None)
       (newMemoryStore 1729990000000)).2.

(** ** The middleware and the handlers *)

(** *** [sanitizeShortcode] *)

(** [String.prototype.toLowerCase] and [trim] on a string of ASCII
    characters. *)
Definition toLowerCase_char (c : ascii) : ascii :=
  let n := nat_of_ascii c in
  if (65 <=? n) && (n <=? 90) then ascii_of_nat (n + 32) else c.

Fixpoint toLowerCase (s : string) : string :=
  match s with
  | EmptyString => ""
  | String c s' => String (toLowerCase_char c) (toLowerCase s')
  end.

(** Tab, line feed, vertical tab, form feed, carriage return, space. *)
Definition isWhiteSpace (c : ascii) : bool :=
  let n := nat_of_ascii c in
  ((9 <=? n) && (n <=? 13)) || (n =? 32).

Fixpoint trimStart (s : string) : string :=
  match s with
  | EmptyString => ""
  | String c s' => if isWhiteSpace c then trimStart s' else s
  end.

Fixpoint trimEnd (s : string) : string :=
  match s with
  | EmptyString => ""
  | String c s' =>
      match trimEnd s' with
      | EmptyString => if isWhiteSpace c then "" else String c ""
      | rest => String c rest
      end
  end.

Definition trim (s : string) : string := trimEnd (trimStart s).

(** What a middleware hands to [next]: nothing, or an error. *)
Inductive passed (A : Type) :=
  | Next (a : A)
  | NextError (message : string).
Arguments Next {A} a.
Arguments NextError {A} message.

Definition reservedWords : list string :=
  ["api"; "health"; "admin"; "www"; "app"; "dashboard"].

(** The request body after [sanitizeShortcode], or the
    [ValidationError] it passes on. *)
Definition sanitizeShortcode (body : CreateBody) : passed CreateBody :=
  match body_shortcode body with
  | None => Next body
  | Some shortcode =>
      if decide (shortcode = "") then Next body
      else
        let shortcode' := trim (toLowerCase shortcode) in
        if bool_decide (shortcode' ∈ reservedWords)
        then NextError "Shortcode conflicts with reserved word"
        else Next (mkCreateBody (body_url body) (Some shortcode')
                     (body_expiresIn body) (body_description body))
  end.

(** *** The two classifiers of user agents *)

(** [String.prototype.includes] *)
Fixpoint includes (s search : string) : bool :=
  String.prefix search s ||
  match s with
  | EmptyString => false
  | String _ s' => includes s' search
  end.

(** [RequestLogger.parseUserAgent] *)
Definition parseUserAgent (userAgent : option string) : string :=
  match userAgent with
  | None => "unknown"
  | Some ua =>
      if decide (ua = "") then "unknown"
      else if includes ua "Chrome" then "Chrome"
      else if includes ua "Firefox" then "Firefox"
      else if includes ua "Safari" then "Safari"
      else if includes ua "Edge" then "Edge"
      else if includes ua "curl" then "curl"
      else if includes ua "Postman" then "Postman"
      else "other"
  end.

(** [getUserAgent] of the redirect handler, on the [user-agent] header. *)
Definition getUserAgent (header : option string) : string :=
  let ua := or_default header "unknown" in
  if includes ua "Chrome" then "Chrome"
  else if includes ua "Firefox" then "Firefox"
  else if includes ua "Safari" && negb (includes ua "Chrome") then "Safari"
  else if includes ua "Edge" then "Edge"
  else if includes ua "curl" then "curl"
  else if includes ua "Postman" then "Postman"
  else "Other".

(** *** The redirect handler [GET /:shortcode] *)

(** What the handler reads of a request. *)
Module Request.
Record t := mk {
  x_forwarded_for : option string;
  x_real_ip : option string;
  connection_remoteAddress : option string;
  socket_remoteAddress : option string;
  ip : option string;
  user_agent : option string;
  referer : option string;
  referrer : option string;
  query_track : option string;
  requestId : option string
}.
End Request.

(** [x || y] on possibly missing strings. *)
Definition or_else (x y : option string) : option string :=
  match x with
  | Some s => if decide (s = "") then y else Some s
  | None => y
  end.

Definition getClientIp (req : Request.t) : string :=
  or_default
    (or_else (Request.x_forwarded_for req)
       (or_else (Request.x_real_ip req)
          (or_else (Request.connection_remoteAddress req)
             (or_else (Request.socket_remoteAddress req)
                (Request.ip req)))))
    "unknown".

(** The answers of the handler: the page of status 404 that names the
    shortcode, or a redirect. *)
Inductive Response :=
  | NotFoundPage (shortcode : string)
  | Redirect (status : nat) (location : string).

Module Redirected.
Record t := mk {
  response : Response;
  warned : bool;
  store : MemoryStore
}.
End Redirected.

Section RedirectHandler.
(** [new URL(text).hostname], or nothing when [new URL] throws. *)
Variable hostname : string -> option string.
(** The text of [new URL(originalUrl)] with the three [utm] parameters
    set for a shortcode, or nothing when [new URL] throws. *)
Variable trackingUrl : string -> string -> option string.

Definition getReferer (req : Request.t) : string :=
  match or_else (Request.referer req) (Request.referrer req) with
  | None => "direct"
  | Some referer =>
      if decide (referer = "") then "direct"
      else match hostname referer with
           | Some host => host
           | None => "unknown"
           end
  end.

Definition clickMetadata (t : Z) (req : Request.t) : Metadata.t :=
  Metadata.mk (Some (getClientIp req))
    (Some (getUserAgent (Request.user_agent req)))
    (Some (getReferer req)) (Some t) (Request.requestId req).

(** The handler reads the clock three times: in [getUrl] ([now]), for
    the time of the click ([t]) and in [recordClick] ([now']). [warned]
    says that the warning of a click that was not recorded was logged. *)
Definition redirectHandler (now t now' : Z) (code : string)
    (req : Request.t) (s : MemoryStore) : Redirected.t :=
  match getUrl now code s with
  | (None, s1) => Redirected.mk (NotFoundPage code) false s1
  | (Some urlRecord, s1) =>
      let '(recorded, s2) := recordClick now' code (clickMetadata t req) s1 in
      let shouldAddTracking :=
        negb (bool_decide (Request.query_track req = Some "false")) in
      let redirectUrl :=
        if shouldAddTracking
        then default (originalUrl urlRecord)
               (trackingUrl (originalUrl urlRecord) code)
        else originalUrl urlRecord in
      Redirected.mk (Redirect 302 redirectUrl) (negb recorded) s2
  end.
End RedirectHandler.

(** *** The list handler [GET /api/urls] *)

(** [parseInt(text) || d], on what [parseInt] gave: an integer, or
    nothing for [NaN]. *)
Definition parsed_or (parsed : option Z) (d : Z) : Z :=
  match parsed with
  | Some n => if decide (n = 0%Z) then d else n
  | None => d
  end.

(** [Array.prototype.slice(start, stop)]: an index below 0 counts from
    the end. *)
Definition slice {A : Type} (start stop : Z) (l : list A) : list A :=
  let len := Z.of_nat (List.length l) in
  let clamp (i : Z) :=
    if (i <? 0)%Z then Z.max (len + i) 0 else Z.min i len in
  take (Z.to_nat (clamp stop - clamp start)) (drop (Z.to_nat (clamp start)) l).

Module Pagination.
Record t := mk {
  page : Z;
  limit : Z;
  total : nat;
  pages : Z;
  hasNext : bool;
  hasPrev : bool
}.
End Pagination.

(** [activeUrls] after the sort: the live records, the newest first. *)
Definition activeUrls (now : Z) (allUrls : list UrlRecord)
    : list UrlRecord :=
  stable_sort (fun y x => (createdAt x <? createdAt y)%Z)
    (filter (fun url => liveb now url = true) allUrls).

(** The handler on [allUrls = Array.from(memoryStore.urls.values())] and
    on the parsed [page] and [limit] of the query; [Math.ceil(a / b)] is
    [- ((- a) / b)]. *)
Definition listHandler (now : Z) (query_page query_limit : option Z)
    (allUrls : list UrlRecord) : list UrlRecord * Pagination.t :=
  let page := parsed_or query_page 1 in
  let limit := Z.min (parsed_or query_limit 10) 100 in
  let offset := ((page - 1) * limit)%Z in
  let active := activeUrls now allUrls in
  let total := Z.of_nat (List.length active) in
  (slice offset (offset + limit) active,
   {| Pagination.page := page;
      Pagination.limit := limit;
      Pagination.total := List.length active;
      Pagination.pages := (- ((- total) / limit))%Z;
      Pagination.hasNext := (offset + limit <? total)%Z;
      Pagination.hasPrev := (1 <? page)%Z |}).

(** A request from the local address that asks for no tracking. *)
Definition sample_request : Request.t :=
  Request.mk None None None None (Some "127.0.0.1") (Some "curl/8.0") None
    None (Some "false") (Some "r1").

(** Five records, one of them expired at 10. *)
Definition sample_urls : list UrlRecord :=
  (fun entry : string * Z * Z =>
     mkUrlRecord entry.1.1 "https://a.example" "" entry.1.2 entry.2 true 0
       None)
    <$> [("a", 1, 100); ("b", 5, 100); ("c", 3, 2); ("d", 5, 100);
         ("e", 2, 100); ("f", 9, 100)]%Z.

(** ** The range of a [Date]

    A [Date] holds a time of at most 8.64e15 milliseconds either side of
    the epoch; [new Date(t)] beyond that is an invalid date, which no
    comparison finds before or after anything. The clock gives times
    within the range, and with the time of the call and the result in the
    range the sum [now.getTime() + expiresIn * 60 * 1000] of [storeUrl] is
    exact. *)
Definition maxTime : Z := 8640000000000000.

Definition valid_time (t : Z) : Prop := (- maxTime <= t <= maxTime)%Z.

(** * Facts *)

(** ** The ordered map *)

Section JSMapFacts.
Context {V : Type}.
Implicit Types (m : JSMap.t V) (k : string) (v : V).

Lemma jsmap_get_None k m : JSMap.get k m = None <-> k ∉ JSMap.keys m.
Proof.
  induction m as [|[k' v'] m IH]; simpl.
  - split; [intros _; apply not_elem_of_nil | done].
  - rewrite not_elem_of_cons. destruct (decide (k = k')); naive_solver.
Qed.

Lemma jsmap_has_true k m : JSMap.has k m = true <-> k ∈ JSMap.keys m.
Proof.
  unfold JSMap.has. destruct (JSMap.get k m) eqn:E.
  - split; [intros _|done].
    destruct (decide (k ∈ JSMap.keys m)) as [|Hn]; [done|].
    apply jsmap_get_None in Hn. congruence.
  - apply jsmap_get_None in E. split; [done | intros; contradiction].
Qed.

Lemma jsmap_get_set_eq k v m : JSMap.get k (JSMap.set k v m) = Some v.
Proof.
  induction m as [|[k' v'] m IH]; simpl.
  - by rewrite decide_True.
  - destruct (decide (k = k')) as [->|Hne]; simpl.
    + by rewrite decide_True.
    + by rewrite decide_False.
Qed.

Lemma jsmap_get_set_ne k k' v m :
  k <> k' -> JSMap.get k' (JSMap.set k v m) = JSMap.get k' m.
Proof.
  intros Hne. induction m as [|[k0 v0] m IH]; simpl.
  - by rewrite decide_False.
  - destruct (decide (k = k0)) as [->|]; simpl.
    + by rewrite !decide_False.
    + by rewrite IH.
Qed.

Lemma jsmap_get_delete_eq k m : JSMap.get k (JSMap.delete k m) = None.
Proof.
  induction m as [|[k' v'] m IH]; simpl; [done|].
  destruct (decide (k = k')); simpl; [done|]. by rewrite decide_False.
Qed.

Lemma jsmap_get_delete_ne k k' m :
  k <> k' -> JSMap.get k' (JSMap.delete k m) = JSMap.get k' m.
Proof.
  intros Hne. induction m as [|[k0 v0] m IH]; simpl; [done|].
  destruct (decide (k = k0)) as [->|]; simpl.
  - by rewrite decide_False.
  - by rewrite IH.
Qed.

Lemma jsmap_keys_delete k k' m :
  k' ∈ JSMap.keys (JSMap.delete k m) <-> k' <> k /\ k' ∈ JSMap.keys m.
Proof.
  induction m as [|[k0 v0] m IH]; simpl.
  - split; [by intros ?%elem_of_nil | by intros [_ ?%elem_of_nil]].
  - destruct (decide (k = k0)) as [->|Hne].
    + rewrite IH, elem_of_cons. naive_solver.
    + change (JSMap.keys ((k0, v0) :: JSMap.delete k m))
        with (k0 :: JSMap.keys (JSMap.delete k m)).
      rewrite !elem_of_cons, IH. naive_solver.
Qed.

Lemma jsmap_delete_absent k m : k ∉ JSMap.keys m -> JSMap.delete k m = m.
Proof.
  induction m as [|[k0 v0] m IH]; simpl; [done|].
  rewrite not_elem_of_cons. intros [Hne Hm].
  rewrite decide_False by done. by rewrite IH.
Qed.

Lemma jsmap_delete_NoDup k m :
  NoDup (JSMap.keys m) -> NoDup (JSMap.keys (JSMap.delete k m)).
Proof.
  induction m as [|[k0 v0] m IH]; simpl; [done|].
  rewrite NoDup_cons. intros [Hk0 Hm].
  destruct (decide (k = k0)); [by apply IH|].
  change (NoDup (k0 :: JSMap.keys (JSMap.delete k m))).
  apply NoDup_cons. split; [|by apply IH].
  rewrite jsmap_keys_delete. naive_solver.
Qed.

Lemma jsmap_delete_size k m :
  JSMap.size (JSMap.delete k m) <= JSMap.size m.
Proof.
  unfold JSMap.size. induction m as [|[k0 v0] m IH]; simpl; [done|].
  destruct (decide (k = k0)); simpl; lia.
Qed.

Lemma jsmap_set_new k v m :
  k ∉ JSMap.keys m -> JSMap.set k v m = m ++ [(k, v)].
Proof.
  induction m as [|[k0 v0] m IH]; simpl; [done|].
  rewrite not_elem_of_cons. intros [Hne Hm].
  rewrite decide_False by done. by rewrite IH.
Qed.

Lemma jsmap_set_old_keys k v m :
  k ∈ JSMap.keys m -> JSMap.keys (JSMap.set k v m) = JSMap.keys m.
Proof.
  induction m as [|[k0 v0] m IH]; simpl.
  - by intros ?%elem_of_nil.
  - destruct (decide (k = k0)) as [->|Hne]; [done|].
    rewrite elem_of_cons. intros [?|Hin]; [done|].
    change (k0 :: JSMap.keys (JSMap.set k v m) = k0 :: JSMap.keys m).
    by rewrite IH.
Qed.

Lemma jsmap_keys_set k k' v m :
  k' ∈ JSMap.keys (JSMap.set k v m) <-> k' = k \/ k' ∈ JSMap.keys m.
Proof.
  destruct (decide (k ∈ JSMap.keys m)) as [Hin|Hout].
  - rewrite jsmap_set_old_keys by done. naive_solver.
  - rewrite jsmap_set_new by done. unfold JSMap.keys.
    rewrite fmap_app, elem_of_app. simpl.
    rewrite list_elem_of_singleton. naive_solver.
Qed.

(** The oldest key leaves, and only it, when the keys are distinct. *)
Lemma jsmap_deleteFirst k0 v0 (rest : JSMap.t V) :
  NoDup (JSMap.keys ((k0, v0) :: rest)) ->
  JSMap.deleteFirst ((k0, v0) :: rest) = rest.
Proof.
  intros [Hk0 _]%NoDup_cons. unfold JSMap.deleteFirst. simpl.
  rewrite decide_True by done. by apply jsmap_delete_absent.
Qed.
End JSMapFacts.

(** ** The sweep *)

Lemma cleanup_loop_spec now entries s n :
  let s' := (cleanup_loop now entries s n).2 in
  (forall code,
     urls s' !! code =
       (if swept now entries code then None else urls s !! code) /\
     analytics s' !! code =
       (if swept now entries code then None else analytics s !! code) /\
     JSMap.get code (cache s') =
       (if swept now entries code then None else JSMap.get code (cache s)))
  /\ cacheSize s' = cacheSize s /\ stats s' = stats s
  /\ (NoDup (JSMap.keys (cache s)) -> NoDup (JSMap.keys (cache s')))
  /\ JSMap.size (cache s') <= JSMap.size (cache s).
Proof.
  revert s n. induction entries as [|[k r] entries IH]; intros s n; simpl.
  { repeat split; auto. }
  destruct (expiresAt r <=? now)%Z eqn:Hexp.
  - edestruct IH as (Hmaps & -> & -> & Hnd & Hsz).
    split; [|repeat split; simpl; auto].
    + intros code. destruct (Hmaps code) as (-> & -> & ->). simpl.
      destruct (decide (k = code)) as [->|Hne].
      * rewrite bool_decide_eq_true_2 by done. simpl.
        rewrite !lookup_delete_eq, jsmap_get_delete_eq.
        by destruct (swept now entries code).
      * rewrite bool_decide_eq_false_2 by done. simpl.
        rewrite !lookup_delete_ne by done.
        by rewrite jsmap_get_delete_ne by done.
    + intros Hs. apply Hnd. simpl. by apply jsmap_delete_NoDup.
    + etrans; [apply Hsz|]. simpl. apply jsmap_delete_size.
  - edestruct IH as (Hmaps & -> & -> & Hnd & Hsz).
    split; [|repeat split; simpl; auto].
    intros code. destruct (Hmaps code) as (-> & -> & ->).
    by rewrite andb_false_r.
Qed.

Lemma swept_map_to_list now (m : gmap string UrlRecord) code :
  swept now (map_to_list m) code =
    match m !! code with
    | Some record => (expiresAt record <=? now)%Z
    | None => false
    end.
Proof.
  unfold swept. apply eq_true_iff_eq. rewrite existsb_exists. split.
  - intros ([k r] & Hin & Hk). simpl in Hk.
    apply andb_prop in Hk as [Hk%bool_decide_eq_true Hexp]. subst k.
    apply list_elem_of_In, elem_of_map_to_list in Hin. by rewrite Hin.
  - destruct (m !! code) as [r|] eqn:Hm; [|done]. intros Hexp.
    exists (code, r). split.
    + by apply list_elem_of_In, elem_of_map_to_list.
    + simpl. by rewrite bool_decide_eq_true_2.
Qed.

(** After a sweep the record map is the old one without the expired
    records; the event log and the cache entry of a deleted record are
    gone with it. *)
Lemma cleanupExpiredUrls_spec now s :
  let s' := (cleanupExpiredUrls now s).2 in
  (forall code,
     urls s' !! code = urls s !! code ≫= unexpired now /\
     analytics s' !! code =
       (match urls s !! code ≫= unexpired now, urls s !! code with
        | None, Some _ => None
        | _, _ => analytics s !! code
        end) /\
     JSMap.get code (cache s') =
       (match urls s !! code ≫= unexpired now, urls s !! code with
        | None, Some _ => None
        | _, _ => JSMap.get code (cache s)
        end))
  /\ cacheSize s' = cacheSize s
  /\ (NoDup (JSMap.keys (cache s)) -> NoDup (JSMap.keys (cache s')))
  /\ JSMap.size (cache s') <= JSMap.size (cache s).
Proof.
  unfold cleanupExpiredUrls.
  pose proof (cleanup_loop_spec now (map_to_list (urls s)) s 0) as H.
  destruct (cleanup_loop now (map_to_list (urls s)) s 0) as [n s1].
  simpl in *. destruct H as (Hmaps & Hcs & Hst & Hnd & Hsz).
  split; [|auto].
  intros code. destruct (Hmaps code) as (-> & -> & ->).
  rewrite swept_map_to_list. unfold unexpired.
  destruct (urls s !! code) as [r|]; simpl; [|done].
  by destruct (expiresAt r <=? now)%Z.
Qed.

(** ** [storeUrl] and the create request *)

(** C1, as stated, fails: [storeUrl] called with a shortcode that is in
    the store does not fail; it returns a new record and binds the
    shortcode to it. *)
Lemma storeUrl_on_present_shortcode :
  let s0 := (storeUrl 0 "abc123" (UrlData.mk "https://a.example" 30 None)
               (newMemoryStore 0)).2 in
  let '(record, s1) :=
    storeUrl 1000 "abc123" (UrlData.mk "https://b.example" 30 None) s0 in
  exists_ "abc123" s0 = true /\
  originalUrl <$> urls s0 !! "abc123" = Some "https://a.example" /\
  originalUrl record = "https://b.example" /\
  urls s1 !! "abc123" = Some record.
Proof. vm_compute. repeat split. Qed.

(** C1, amended: [storeUrl] never fails. For every shortcode, present or
    not, it returns the newly created record, binds the shortcode to it
    and gives it an empty event log, leaving the other shortcodes and the
    cache as they were. The refusal of a shortcode that is present is
    the handler's: a create request that supplies a shortcode throws a
    [ConflictError] exactly when [exists] holds of it, and otherwise
    returns what [storeUrl] returns. *)
Theorem storeUrl_never_fails random dateNow md5hex now code urlData s :
  let record :=
    {| shortcode := code;
       originalUrl := UrlData.url urlData;
       description := or_default (UrlData.description urlData) "";
       createdAt := now;
       expiresAt := (now + UrlData.expiresIn urlData * 60 * 1000)%Z;
       isActive := true; clickCount := 0; lastAccessed := None |} in
  (exists s', storeUrl now code urlData s = (record, s') /\
     urls s' !! code = Some record /\
     analytics s' !! code = Some [] /\
     cache s' = cache s /\
     forall other, other <> code ->
       urls s' !! other = urls s !! other /\
       analytics s' !! other = analytics s !! other) /\
  (forall g, code <> "" ->
     createUrl random dateNow md5hex now
       (mkCreateBody (UrlData.url urlData) (Some code)
          (UrlData.expiresIn urlData) (UrlData.description urlData)) g s =
     if exists_ code s
     then Thrown (ConflictError
            ("Shortcode '" +:+ code +:+ "' is already taken"))
     else Returned (record, g, (storeUrl now code urlData s).2)).
Proof.
  split.
  - eexists. split; [reflexivity|]. simpl.
    rewrite !lookup_insert_eq. do 3 (split; [done|]).
    intros other Hne. by rewrite !lookup_insert_ne.
  - intros g Hne. unfold createUrl. simpl.
    rewrite decide_False by done.
    destruct (exists_ code s); [done|]. by destruct urlData.
Qed.

Lemma storeUrl_never_fails_witness :
  createUrl (fun _ => mkDraw 0 0) (fun _ => 0%Z) (fun _ => "") 5
    (mkCreateBody "https://a.example" (Some "abc123") 30 None)
    (mkGenerator 0 0 0) (newMemoryStore 0) =
  Returned
    ({| shortcode := "abc123"; originalUrl := "https://a.example";
        description := ""; createdAt := 5; expiresAt := 1800005;
        isActive := true; clickCount := 0; lastAccessed := None |},
     mkGenerator 0 0 0,
     (storeUrl 5 "abc123" (UrlData.mk "https://a.example" 30 None)
        (newMemoryStore 0)).2).
Proof.
  apply (proj2 (storeUrl_never_fails (fun _ => mkDraw 0 0) (fun _ => 0%Z)
                  (fun _ => "") 5 "abc123"
                  (UrlData.mk "https://a.example" 30 None)
                  (newMemoryStore 0)) (mkGenerator 0 0 0)).
  discriminate.
Defined.

(** ** [recordClick] and the event log *)

Lemma push_capped_length log e : List.length (push_capped log e) <= 100.
Proof.
  unfold push_capped. destruct (100 <? _) eqn:H.
  - apply Nat.ltb_lt in H. rewrite length_drop. lia.
  - apply Nat.ltb_ge in H. done.
Qed.

Lemma push_capped_last log e : last (push_capped log e) = Some e.
Proof.
  unfold push_capped. destruct (100 <? _) eqn:H; [|apply last_snoc].
  rewrite length_app. simpl.
  rewrite drop_app_le by lia. apply last_snoc.
Qed.

(** Pushing onto the last 100 entries of [all] gives the last 100
    entries of [all] with the new entry. *)
Lemma push_capped_drop (all : list ClickEvent) e :
  push_capped (drop (List.length all - 100) all) e =
  drop (List.length (all ++ [e]) - 100) (all ++ [e]).
Proof.
  unfold push_capped. rewrite !length_app, length_drop. simpl.
  destruct (100 <? _) eqn:H.
  - apply Nat.ltb_lt in H. rewrite drop_app_le by (rewrite length_drop; lia).
    rewrite drop_drop. rewrite drop_app_le by lia. do 2 f_equal. lia.
  - apply Nat.ltb_ge in H. rewrite drop_app_le by lia. do 2 f_equal. lia.
Qed.

Lemma recordClick_unknown now code metadata s :
  urls s !! code = None -> recordClick now code metadata s = (false, s).
Proof. intros H. unfold recordClick. by rewrite H. Qed.

Lemma recordClick_known now code metadata s record :
  urls s !! code = Some record ->
  let s' := (recordClick now code metadata s).2 in
  (recordClick now code metadata s).1 = true /\
  urls s' = <[code := clicked now record]> (urls s) /\
  analytics s' =
    <[code := push_capped (default [] (analytics s !! code))
                (clickData now metadata)]> (analytics s) /\
  cache s' = (if JSMap.has code (cache s)
              then JSMap.set code (clicked now record) (cache s)
              else cache s) /\
  cacheSize s' = cacheSize s /\
  totalClicks (stats s') = totalClicks (stats s) + 1.
Proof.
  intros H. unfold recordClick. rewrite H. simpl.
  by destruct (JSMap.has code (cache s)).
Qed.

Lemma recordClicks_count code clicks : forall s record,
  urls s !! code = Some record ->
  exists record', urls (recordClicks code clicks s) !! code = Some record' /\
    clickCount record' = clickCount record + List.length clicks /\
    same_record record record'.
Proof.
  induction clicks as [|[now m] clicks IH]; intros s record Hr; simpl.
  - exists record. split; [done|]. split; [simpl; lia|]. by repeat split.
  - destruct (recordClick_known now code m s record Hr) as (_ & Hu & _).
    edestruct (IH (recordClick now code m s).2) as (r' & Hr' & Hc & Hsame).
    { rewrite Hu. apply lookup_insert_eq. }
    exists r'. split; [done|]. split; [simpl in Hc; lia|].
    unfold same_record in *. simpl in Hsame. done.
Qed.

Lemma recordClicks_log code clicks : forall s record all,
  urls s !! code = Some record ->
  analytics s !! code = Some (drop (List.length all - 100) all) ->
  analytics (recordClicks code clicks s) !! code =
    Some (drop (List.length (all ++ events_of clicks) - 100)
            (all ++ events_of clicks)).
Proof.
  induction clicks as [|[now m] clicks IH]; intros s record all Hr Ha; simpl.
  - by rewrite app_nil_r.
  - destruct (recordClick_known now code m s record Hr) as (_ & Hu & Hl & _).
    rewrite (IH _ (clicked now record) (all ++ [clickData now m])).
    + unfold events_of. simpl. by rewrite <- !app_assoc.
    + rewrite Hu. apply lookup_insert_eq.
    + rewrite Hl, Ha. simpl. rewrite lookup_insert_eq.
      by rewrite push_capped_drop.
Qed.



(** ** The hot cache *)

Section CacheFacts.
Context {V : Type}.
Implicit Types (m : JSMap.t V) (k : string) (v : V).

Lemma jsmap_set_NoDup k v m :
  NoDup (JSMap.keys m) -> NoDup (JSMap.keys (JSMap.set k v m)).
Proof.
  intros Hnd. destruct (decide (k ∈ JSMap.keys m)) as [Hin|Hout].
  - by rewrite jsmap_set_old_keys.
  - rewrite jsmap_set_new by done. unfold JSMap.keys in *.
    rewrite fmap_app. simpl. apply NoDup_app. split; [done|].
    split; [|apply NoDup_singleton].
    intros x Hx ->%list_elem_of_singleton. done.
Qed.

Lemma jsmap_set_size k v m :
  JSMap.size (JSMap.set k v m) =
    if JSMap.has k m then JSMap.size m else S (JSMap.size m).
Proof.
  unfold JSMap.size. destruct (JSMap.has k m) eqn:H.
  - apply jsmap_has_true in H.
    rewrite <- (length_fmap fst (JSMap.set k v m)).
    change (List.length (JSMap.keys (JSMap.set k v m)) = List.length m).
    rewrite jsmap_set_old_keys by done. apply length_fmap.
  - assert (k ∉ JSMap.keys m) as Hout.
    { intros Hin%jsmap_has_true. congruence. }
    rewrite jsmap_set_new by done. rewrite length_app. simpl. lia.
Qed.

Lemma jsmap_deleteFirst_keys k m :
  k ∈ JSMap.keys (JSMap.deleteFirst m) -> k ∈ JSMap.keys m.
Proof.
  unfold JSMap.deleteFirst. destruct (JSMap.firstKey m); [|done].
  by intros [_ ?]%jsmap_keys_delete.
Qed.

Lemma jsmap_deleteFirst_NoDup m :
  NoDup (JSMap.keys m) -> NoDup (JSMap.keys (JSMap.deleteFirst m)).
Proof.
  unfold JSMap.deleteFirst. destruct (JSMap.firstKey m); [|done].
  apply jsmap_delete_NoDup.
Qed.

Lemma jsmap_deleteFirst_size m :
  NoDup (JSMap.keys m) -> 0 < JSMap.size m ->
  S (JSMap.size (JSMap.deleteFirst m)) = JSMap.size m.
Proof.
  destruct m as [|[k0 v0] rest]; simpl; [unfold JSMap.size; simpl; lia|].
  intros Hnd _. by rewrite jsmap_deleteFirst.
Qed.
End CacheFacts.

Lemma addToCache_spec code record s :
  let s' := _addToCache code record s in
  urls s' = urls s /\ analytics s' = analytics s /\
  cacheSize s' = cacheSize s /\ stats s' = stats s /\
  JSMap.get code (cache s') = Some record /\
  (forall k, k ∈ JSMap.keys (cache s') ->
             k = code \/ k ∈ JSMap.keys (cache s)) /\
  (forall k cached, k <> code -> JSMap.get k (cache s') = Some cached ->
                    JSMap.get k (cache s) = Some cached).
Proof.
  unfold _addToCache.
  destruct (cacheSize s <=? JSMap.size (cache s)); simpl;
    rewrite jsmap_get_set_eq; (do 5 (split; [done|])); split.
  - intros k [->|Hk]%jsmap_keys_set; [by left|right].
    by apply jsmap_deleteFirst_keys.
  - intros k cached Hne. rewrite jsmap_get_set_ne by done.
    unfold JSMap.deleteFirst. destruct (JSMap.firstKey (cache s)) as [k0|];
      [|done].
    destruct (decide (k0 = k)) as [->|Hne0].
    + by rewrite jsmap_get_delete_eq.
    + by rewrite jsmap_get_delete_ne.
  - intros k [->|Hk]%jsmap_keys_set; auto.
  - intros k cached Hne. by rewrite jsmap_get_set_ne.
Qed.

(** The cache stays within its capacity through an insertion. *)
Lemma addToCache_bounded code record s :
  0 < cacheSize s -> cache_bounded s ->
  cache_bounded (_addToCache code record s).
Proof.
  intros Hpos [Hnd Hsz]. unfold cache_bounded, _addToCache.
  destruct (cacheSize s <=? JSMap.size (cache s)) eqn:Hfull; simpl.
  - apply Nat.leb_le in Hfull. split.
    + by apply jsmap_set_NoDup, jsmap_deleteFirst_NoDup.
    + rewrite jsmap_set_size.
      pose proof (jsmap_deleteFirst_size (cache s) Hnd ltac:(lia)).
      destruct (JSMap.has _ _); lia.
  - apply Nat.leb_gt in Hfull. split.
    + by apply jsmap_set_NoDup.
    + rewrite jsmap_set_size. destruct (JSMap.has _ _); lia.
Qed.

(** ** [getUrl] *)

Ltac getUrl_cases :=
  unfold getUrl, getUrl_record; simpl;
  repeat match goal with
         | |- context [match ?x with _ => _ end] => destruct x eqn:?; simpl
         end.

(** What [getUrl] leaves alone. *)
Lemma getUrl_frame now code s :
  let s' := (getUrl now code s).2 in
  analytics s' = analytics s /\ stats s' = stats s /\
  cacheSize s' = cacheSize s /\
  (forall k, urls s' !! k = urls s !! k \/
             exists record, k = code /\ urls s !! k = Some record /\
                            (expiresAt record <= now)%Z /\
                            urls s' !! k = Some (deactivate record)).
Proof.
  getUrl_cases; (do 3 (split; [try done; by destruct (_ <=? _)|])); intros k;
    try (by left);
    try (destruct (_ <=? _); by left).
  all: destruct (decide (k = code)) as [->|Hne];
    [right; eexists; rewrite lookup_insert_eq;
       repeat split; [eassumption | by apply Z.leb_le]
    | left; by rewrite lookup_insert_ne].
Qed.

(** A cache entry after [getUrl] was there before, or is the hot, live
    record just read from the record map. *)
Lemma getUrl_cache now code s k cached :
  JSMap.get k (cache (getUrl now code s).2) = Some cached ->
  JSMap.get k (cache s) = Some cached \/
  (k = code /\ urls s !! code = Some cached /\
   (now < expiresAt cached)%Z /\ 5 < clickCount cached).
Proof.
  assert (forall s0, JSMap.get k (cache (getUrl_record now code s0).2)
                       = Some cached ->
            JSMap.get k (cache s0) = Some cached \/
            (k = code /\ urls s0 !! code = Some cached /\
             (now < expiresAt cached)%Z /\ 5 < clickCount cached)) as Hrec.
  { intros s0. unfold getUrl_record.
    destruct (urls s0 !! code) as [r|] eqn:Hr; cbn [snd]; [|by left].
    destruct (expiresAt r <=? now)%Z eqn:Hexp; cbn [snd]; [by left|].
    destruct (5 <? clickCount r) eqn:Hhot; cbn [snd]; [|by left].
    destruct (addToCache_spec code r s0) as (_ & _ & _ & _ & Hc & _ & Ho).
    intros Hget. destruct (decide (k = code)) as [Heq|Hne].
    - right. rewrite Heq, Hc in Hget. injection Hget as <-.
      apply Z.leb_gt in Hexp. apply Nat.ltb_lt in Hhot. auto.
    - left. by apply Ho. }
  unfold getUrl. destruct (JSMap.get code (cache s)) as [c|] eqn:Hc;
    [|apply Hrec].
  destruct (now <? expiresAt c)%Z; simpl; [by left|].
  intros [Hget|Hget]%Hrec; [left|by right].
  simpl in Hget. destruct (decide (code = k)) as [->|Hne].
  - by rewrite jsmap_get_delete_eq in Hget.
  - by rewrite jsmap_get_delete_ne in Hget.
Qed.

Lemma getUrl_bounded now code s :
  0 < cacheSize s -> cache_bounded s -> cache_bounded (getUrl now code s).2.
Proof.
  intros Hpos Hb.
  assert (forall s0, 0 < cacheSize s0 -> cache_bounded s0 ->
            cache_bounded (getUrl_record now code s0).2) as Hrec.
  { intros s0 Hpos0 Hb0. unfold getUrl_record.
    destruct (urls s0 !! code) as [r|]; simpl; [|done].
    destruct (expiresAt r <=? now)%Z; simpl; [done|].
    destruct (5 <? clickCount r); simpl; [|done].
    by apply addToCache_bounded. }
  unfold getUrl. destruct (JSMap.get code (cache s)) as [c|]; [|by apply Hrec].
  destruct (now <? expiresAt c)%Z; simpl; [done|].
  apply Hrec; [done|]. destruct Hb as [Hnd Hsz]. split; simpl.
  - by apply jsmap_delete_NoDup.
  - etrans; [apply jsmap_delete_size|done].
Qed.

(** ** Invariants of the reachable stores *)

Lemma cache_included_new now : cache_included (newMemoryStore now).
Proof. intros code. discriminate. Qed.

Lemma cache_included_storeUrl now code urlData s :
  cache_included s -> cache_included (storeUrl now code urlData s).2.
Proof.
  intros Hinc k Hk. simpl in *. destruct (decide (code = k)) as [->|Hne].
  - rewrite lookup_insert_eq. by eexists.
  - rewrite lookup_insert_ne by done. by apply Hinc.
Qed.

Lemma cache_included_getUrl now code s :
  cache_included s -> cache_included (getUrl now code s).2.
Proof.
  intros Hinc k Hk. unfold JSMap.has in Hk.
  destruct (JSMap.get k (cache (getUrl now code s).2)) as [c|] eqn:Hget;
    [clear Hk|done].
  destruct (getUrl_frame now code s) as (_ & _ & _ & Hu).
  assert (is_Some (urls s !! k)) as [r Hr].
  { apply getUrl_cache in Hget as [Hold|(-> & Hr & _)]; [|by eexists].
    apply Hinc. unfold JSMap.has. by rewrite Hold. }
  destruct (Hu k) as [->|(r' & _ & _ & _ & ->)]; by eexists.
Qed.

Lemma cache_included_recordClick now code metadata s :
  cache_included s -> cache_included (recordClick now code metadata s).2.
Proof.
  intros Hinc k Hk. destruct (urls s !! code) as [r|] eqn:Hr.
  - destruct (recordClick_known now code metadata s r Hr)
      as (_ & Hu & _ & Hc & _).
    rewrite Hu. rewrite Hc in Hk.
    destruct (decide (code = k)) as [->|Hne].
    + rewrite lookup_insert_eq. by eexists.
    + rewrite lookup_insert_ne by done. apply Hinc.
      destruct (JSMap.has code (cache s)); [|done].
      apply jsmap_has_true in Hk. apply jsmap_has_true.
      apply jsmap_keys_set in Hk as [->|Hk]; done.
  - rewrite recordClick_unknown in Hk |- * by done. by apply Hinc.
Qed.

Lemma cache_included_cleanup now s :
  cache_included s -> cache_included (cleanupExpiredUrls now s).2.
Proof.
  intros Hinc k Hk.
  destruct (cleanupExpiredUrls_spec now s) as (Hmaps & _).
  destruct (Hmaps k) as (Hu & _ & Hc). rewrite Hu.
  unfold JSMap.has in Hk. rewrite Hc in Hk.
  destruct (urls s !! k) as [r|] eqn:Hr; simpl in *.
  - destruct (unexpired now r); [by eexists|done].
  - destruct (JSMap.get k (cache s)) eqn:Hget; [|done].
    rewrite <- Hr. apply Hinc. unfold JSMap.has. by rewrite Hget.
Qed.

Lemma reachable_cache_included s : reachable s -> cache_included s.
Proof.
  induction 1; auto using cache_included_new, cache_included_storeUrl,
    cache_included_getUrl, cache_included_recordClick,
    cache_included_cleanup.
Qed.

(** C10: every key of the hot cache is a key of the record map. The
    inclusion holds in the new store, each of [storeUrl], [getUrl],
    [recordClick] and [cleanupExpiredUrls] preserves it whatever its
    arguments, and so it holds in every reachable store. *)
Theorem cache_keys_in_record_map :
  (forall now, cache_included (newMemoryStore now)) /\
  (forall s, cache_included s ->
     (forall now code urlData,
        cache_included (storeUrl now code urlData s).2) /\
     (forall now code, cache_included (getUrl now code s).2) /\
     (forall now code metadata,
        cache_included (recordClick now code metadata s).2) /\
     (forall now, cache_included (cleanupExpiredUrls now s).2)) /\
  (forall s, reachable s ->
     forall code, code ∈ JSMap.keys (cache s) -> is_Some (urls s !! code)).
Proof.
  split; [apply cache_included_new|]. split.
  - intros s Hinc.
    auto using cache_included_storeUrl, cache_included_getUrl,
      cache_included_recordClick, cache_included_cleanup.
  - intros s Hs code Hin. apply (reachable_cache_included s Hs).
    by apply jsmap_has_true.
Qed.

Lemma reachable_logs_capped s : reachable s -> logs_capped s.
Proof.
  induction 1 as [now|s now code d _ IH|s now code _ IH|s now code m _ IH
                 |s now _ IH]; intros k log.
  - simpl. by rewrite lookup_empty.
  - simpl. destruct (decide (code = k)) as [->|Hne].
    + rewrite lookup_insert_eq. intros [= <-]. simpl. lia.
    + rewrite lookup_insert_ne by done. apply IH.
  - destruct (getUrl_frame now code s) as (-> & _). apply IH.
  - destruct (urls s !! code) as [r|] eqn:Hr.
    + destruct (recordClick_known now code m s r Hr) as (_ & _ & -> & _).
      destruct (decide (code = k)) as [->|Hne].
      * rewrite lookup_insert_eq. intros [= <-]. apply push_capped_length.
      * rewrite lookup_insert_ne by done. apply IH.
    + rewrite recordClick_unknown by done. apply IH.
  - destruct (cleanupExpiredUrls_spec now s) as (Hmaps & _).
    destruct (Hmaps k) as (_ & -> & _).
    destruct (urls s !! k ≫= unexpired now), (urls s !! k);
      try done; apply IH.
Qed.

(** C7: in every reachable store the event log of a shortcode holds at
    most 100 entries, and the oldest entries are the ones dropped: after
    any clicks on a record whose log was empty, the log holds the events
    of these clicks without the first [n - 100] of them, in the order of
    the clicks; after 150 clicks these are the 100 most recent events. *)
Theorem event_log_keeps_last_100 :
  (forall s, reachable s ->
     forall code log, analytics s !! code = Some log ->
                      List.length log <= 100) /\
  (forall s code record clicks,
     urls s !! code = Some record -> analytics s !! code = Some [] ->
     analytics (recordClicks code clicks s) !! code =
       Some (drop (List.length clicks - 100) (events_of clicks))) /\
  (forall s code record clicks,
     urls s !! code = Some record -> analytics s !! code = Some [] ->
     List.length clicks = 150 ->
     exists log,
       analytics (recordClicks code clicks s) !! code = Some log /\
       List.length log = 100 /\
       log = drop 50 (events_of clicks) /\
       forall i, log !! i = events_of clicks !! (50 + i)).
Proof.
  assert (forall s code record clicks,
     urls s !! code = Some record -> analytics s !! code = Some [] ->
     analytics (recordClicks code clicks s) !! code =
       Some (drop (List.length clicks - 100) (events_of clicks))) as Hlog.
  { intros s code record clicks Hr Ha.
    rewrite (recordClicks_log code clicks s record [] Hr) by done.
    simpl. unfold events_of. by rewrite length_fmap. }
  split; [apply reachable_logs_capped|]. split; [done|].
  intros s code record clicks Hr Ha Hlen. eexists.
  rewrite (Hlog s code record clicks Hr Ha), Hlen.
  split; [reflexivity|]. simpl. split; [|split; [done|]].
  - rewrite length_drop. unfold events_of. rewrite length_fmap. lia.
  - intros i. apply lookup_drop.
Qed.

Lemma event_log_keeps_last_100_witness :
  let s := (storeUrl 0 "abc123" (UrlData.mk "https://a.example" 30 None)
              (newMemoryStore 0)).2 in
  let clicks := (fun i => (Z.of_nat i, Metadata.none)) <$> seq 1 150 in
  exists log,
    analytics (recordClicks "abc123" clicks s) !! "abc123" = Some log /\
    List.length log = 100 /\
    log = drop 50 (events_of clicks) /\
    forall i, log !! i = events_of clicks !! (50 + i).
Proof.
  intros s clicks.
  eapply (proj2 (proj2 event_log_keeps_last_100) s "abc123");
    [vm_compute; reflexivity | reflexivity | reflexivity].
Defined.

Lemma reachable_cache_bounded s :
  reachable s -> cacheSize s = 1000 /\ cache_bounded s.
Proof.
  induction 1 as [now|s now code d _ [Hc Hb]|s now code _ [Hc Hb]
                 |s now code m _ [Hc Hb]|s now _ [Hc Hb]].
  - split; [done|]. split; [apply NoDup_nil_2|]. unfold JSMap.size. simpl. lia.
  - done.
  - destruct (getUrl_frame now code s) as (_ & _ & Hcs & _).
    split; [by rewrite Hcs|]. apply getUrl_bounded; [lia|done].
  - destruct (urls s !! code) as [r|] eqn:Hr;
      [|by rewrite recordClick_unknown].
    destruct (recordClick_known now code m s r Hr)
      as (_ & _ & _ & Hcache & Hcs & _).
    split; [by rewrite Hcs|]. destruct Hb as [Hnd Hsz].
    unfold cache_bounded. rewrite Hcache, Hcs.
    destruct (JSMap.has code (cache s)) eqn:Hhas; [|done].
    split; [by apply jsmap_set_NoDup|]. by rewrite jsmap_set_size, Hhas.
  - destruct (cleanupExpiredUrls_spec now s) as (_ & Hcs & Hnd & Hsz).
    split; [by rewrite Hcs|]. destruct Hb as [Hnd0 Hsz0].
    unfold cache_bounded. rewrite Hcs. split; [auto|lia].
Qed.

(** Inserting a key that is not cached into a full cache. *)
Lemma addToCache_evicts_oldest code record s k0 v0 rest :
  cache s = (k0, v0) :: rest ->
  NoDup (JSMap.keys (cache s)) ->
  cacheSize s <= JSMap.size (cache s) ->
  code ∉ JSMap.keys (cache s) ->
  cache (_addToCache code record s) = rest ++ [(code, record)].
Proof.
  intros Hcache Hnd Hfull Hnew. unfold _addToCache.
  apply Nat.leb_le in Hfull. rewrite Hfull. simpl.
  rewrite Hcache in *. rewrite jsmap_deleteFirst by done.
  apply jsmap_set_new. intros Hin. apply Hnew.
  change (code ∈ k0 :: JSMap.keys rest). by apply elem_of_cons; right.
Qed.

(** Inserting a key that is not cached into a cache with room. *)
Lemma addToCache_appends code record s :
  JSMap.size (cache s) < cacheSize s ->
  code ∉ JSMap.keys (cache s) ->
  cache (_addToCache code record s) = cache s ++ [(code, record)].
Proof.
  intros Hroom Hnew. unfold _addToCache.
  apply Nat.leb_gt in Hroom. rewrite Hroom. simpl.
  by apply jsmap_set_new.
Qed.

(** [getUrl] on a key that is not cached, hot and live. *)
Lemma getUrl_miss_hot now code s record :
  JSMap.get code (cache s) = None ->
  urls s !! code = Some record ->
  (now < expiresAt record)%Z -> 5 < clickCount record ->
  getUrl now code s = (Some record, _addToCache code record s).
Proof.
  intros Hmiss Hr Hlive Hhot. unfold getUrl, getUrl_record.
  rewrite Hmiss, Hr.
  apply Z.leb_gt in Hlive. apply Nat.ltb_lt in Hhot.
  by rewrite Hlive, Hhot.
Qed.

(** [getUrl] on a key whose snapshot is live. *)
Lemma getUrl_hit now code s cached :
  JSMap.get code (cache s) = Some cached ->
  (now < expiresAt cached)%Z ->
  getUrl now code s = (Some cached, s).
Proof.
  intros Hget Hlive. unfold getUrl. rewrite Hget.
  apply Z.ltb_lt in Hlive. by rewrite Hlive.
Qed.

Lemma jsmap_get_app {V} k (m1 m2 : JSMap.t V) :
  JSMap.get k (m1 ++ m2) =
    match JSMap.get k m1 with Some v => Some v | None => JSMap.get k m2 end.
Proof.
  induction m1 as [|[k' v'] m1 IH]; simpl; [done|].
  by destruct (decide (k = k')).
Qed.

(** Reading distinct hot keys into a cache with room appends them in the
    order of the reads. *)
Lemma getUrls_fill now codes : forall s,
  NoDup (JSMap.keys (cache s) ++ codes) ->
  JSMap.size (cache s) + List.length codes <= cacheSize s ->
  Forall (hot_live now s) codes ->
  snapshots_live now s ->
  let s' := getUrls now codes s in
  JSMap.keys (cache s') = JSMap.keys (cache s) ++ codes /\
  urls s' = urls s /\ cacheSize s' = cacheSize s /\ snapshots_live now s'.
Proof.
  induction codes as [|code codes IH]; intros s Hnd Hsz Hhot Hlive; simpl.
  { by rewrite app_nil_r. }
  apply Forall_cons in Hhot as [(r & Hr & Hrl & Hrh) Hhot].
  assert (code ∉ JSMap.keys (cache s)) as Hnew.
  { apply NoDup_app in Hnd as (_ & Hdis & _). intros Hin.
    apply (Hdis code Hin). by left. }
  rewrite (getUrl_miss_hot now code s r) by (by apply jsmap_get_None || done).
  simpl in *.
  destruct (addToCache_spec code r s) as (Hu & _ & Hcs & _).
  pose proof (addToCache_appends code r s ltac:(lia) Hnew) as Hc.
  destruct (IH (_addToCache code r s)) as (Hk & Hu' & Hcs' & Hl').
  - rewrite Hc. unfold JSMap.keys in *. rewrite fmap_app. simpl.
    by rewrite <- app_assoc.
  - rewrite Hc, Hcs. unfold JSMap.size in *. rewrite length_app. simpl. lia.
  - eapply Forall_impl; [exact Hhot|]. intros k (r' & ? & ?).
    exists r'. by rewrite Hu.
  - intros k cached. rewrite Hc, jsmap_get_app. simpl.
    destruct (JSMap.get k (cache s)) eqn:Hget.
    + intros [= <-]. by eapply Hlive.
    + destruct (decide (k = code)); [|done]. by intros [= <-].
  - rewrite Hk, Hu', Hcs', Hc, Hu, Hcs. unfold JSMap.keys.
    rewrite fmap_app. simpl. by rewrite <- app_assoc.
Qed.

(** Reading keys whose snapshots are live changes nothing. *)
Lemma getUrls_hits now reads : forall s,
  snapshots_live now s ->
  Forall (fun code => code ∈ JSMap.keys (cache s)) reads ->
  getUrls now reads s = s.
Proof.
  induction reads as [|code reads IH]; intros s Hlive Hin; simpl; [done|].
  apply Forall_cons in Hin as [Hcode Hin].
  destruct (JSMap.get code (cache s)) as [c|] eqn:Hget.
  - rewrite (getUrl_hit now code s c) by eauto. simpl. by apply IH.
  - by apply jsmap_get_None in Hget.
Qed.

(** C8: the hot cache is bounded at 1000 entries and evicts in insertion
    order. In every reachable store the capacity is 1000 and the cache
    holds at most 1000 distinct keys. An insertion into a cache that
    holds at least [cacheSize] keys removes the oldest key, and only it,
    and puts the new key last. A read that hits the cache returns the
    snapshot and leaves the store, hence the order of the keys, as it
    was, and any other read reaches the insertion with its key absent
    from the cache. So after reading [cacheSize + 1] distinct hot keys
    into an empty cache, whatever cached keys were read again in between,
    the cache holds all of them but the first one read. *)
Theorem cache_fifo_eviction :
  (forall s, reachable s ->
     cacheSize s = 1000 /\ NoDup (JSMap.keys (cache s)) /\
     JSMap.size (cache s) <= 1000) /\
  (forall s code record k0 v0 rest,
     cache s = (k0, v0) :: rest ->
     NoDup (JSMap.keys (cache s)) ->
     cacheSize s <= JSMap.size (cache s) ->
     code ∉ JSMap.keys (cache s) ->
     cache (_addToCache code record s) = rest ++ [(code, record)]) /\
  (forall s now code,
     (exists cached, JSMap.get code (cache s) = Some cached /\
                     getUrl now code s = (Some cached, s)) \/
     (exists s0, getUrl now code s = getUrl_record now code s0 /\
                 code ∉ JSMap.keys (cache s0))) /\
  (forall s now first middle final reads,
     cache s = [] ->
     List.length (first :: middle) = cacheSize s ->
     NoDup (first :: middle ++ [final]) ->
     Forall (hot_live now s) (first :: middle ++ [final]) ->
     Forall (fun code => code ∈ first :: middle) reads ->
     let filled := getUrls now (first :: middle) s in
     JSMap.keys (cache filled) = first :: middle /\
     JSMap.keys (cache (getUrl now final (getUrls now reads filled)).2) =
       middle ++ [final]).
Proof.
  split; [|split; [|split]].
  - intros s Hs. destruct (reachable_cache_bounded s Hs) as (Hc & Hnd & Hsz).
    rewrite Hc in Hsz. done.
  - intros s code record. apply addToCache_evicts_oldest.
  - intros s now code. unfold getUrl.
    destruct (JSMap.get code (cache s)) as [c|] eqn:Hget.
    + destruct (now <? expiresAt c)%Z; [left; by eexists|].
      right. eexists. split; [reflexivity|]. simpl.
      apply jsmap_get_None, jsmap_get_delete_eq.
    + right. exists s. split; [done|]. by apply jsmap_get_None.
  - intros s now first middle final reads Hempty Hlen Hnd Hhot Hreads filled.
    destruct (getUrls_fill now (first :: middle) s) as (Hk & Hu & Hcs & Hl).
    { rewrite Hempty. simpl. apply NoDup_cons in Hnd as [Hf Hnd].
      apply NoDup_cons. split.
      - intros Hin. apply Hf, elem_of_app. by left.
      - by apply NoDup_app in Hnd as (? & _). }
    { rewrite Hempty. unfold JSMap.size. simpl in *. lia. }
    { apply Forall_cons in Hhot as [Hf Hhot]. apply Forall_cons.
      split; [done|]. by apply Forall_app in Hhot as [? _]. }
    { intros k cached. by rewrite Hempty. }
    fold filled in Hk, Hu, Hcs, Hl. rewrite Hempty in Hk.
    change (JSMap.keys (cache filled) = first :: middle) in Hk.
    split; [done|].
    rewrite (getUrls_hits now reads filled) by (by rewrite ?Hk).
    assert (hot_live now filled final) as (r & Hr & Hrl & Hrh).
    { rewrite !Forall_cons, Forall_app, Forall_singleton in Hhot.
      destruct Hhot as (_ & _ & (r & ? & ?)). exists r. by rewrite Hu. }
    assert (final ∉ JSMap.keys (cache filled)) as Hnew.
    { rewrite Hk. apply NoDup_cons in Hnd as [Hf Hnd].
      rewrite not_elem_of_cons. split.
      - intros ->. apply Hf, elem_of_app. right. by left.
      - apply NoDup_app in Hnd as (_ & Hdis & _). intros Hin.
        apply (Hdis final Hin). by left. }
    rewrite (getUrl_miss_hot now final filled r)
      by (by apply jsmap_get_None || done).
    cbn [snd]. destruct (cache filled) as [|[k0 v0] rest] eqn:Hcache;
      [discriminate|].
    rewrite (addToCache_evicts_oldest final r filled k0 v0 rest); try done.
    + unfold JSMap.keys in *. rewrite fmap_app. simpl in *.
      injection Hk as _ Hm. f_equal. exact Hm.
    + rewrite Hcache, Hk. apply NoDup_cons in Hnd as [Hf Hnd].
      apply NoDup_cons. split.
      * intros Hin. apply Hf, elem_of_app. by left.
      * by apply NoDup_app in Hnd as (? & _).
    + rewrite Hcs, <- Hlen, Hcache. unfold JSMap.size.
      rewrite <- (length_fmap fst ((k0, v0) :: rest)).
      change (List.length (first :: middle)
              <= List.length (JSMap.keys ((k0, v0) :: rest))).
      by rewrite Hk.
    + by rewrite Hcache.
Qed.

(** ** Expiry: [getUrl], [exists] and the snapshots of the cache *)

Lemma reachable_recordClicks code clicks : forall s,
  reachable s -> reachable (recordClicks code clicks s).
Proof.
  induction clicks as [|[now m] clicks IH]; intros s Hs; simpl; [done|].
  apply IH. by constructor.
Qed.

Lemma stale_store_reachable : reachable stale_store.
Proof.
  unfold stale_store. apply reach_storeUrl, reach_getUrl.
  apply reachable_recordClicks, reach_storeUrl, reach_new.
Qed.

Lemma cache_keys_in_record_map_witness :
  "abc123" ∈ JSMap.keys (cache stale_store) /\
  is_Some (urls stale_store !! "abc123").
Proof.
  assert ("abc123" ∈ JSMap.keys (cache stale_store)) as Hin.
  { apply (bool_decide_unpack _). vm_compute. reflexivity. }
  split; [exact Hin|].
  exact (proj2 (proj2 cache_keys_in_record_map) stale_store
           stale_store_reachable "abc123" Hin).
Defined.

Lemma cache_all_fresh_new now : cache_all_fresh (newMemoryStore now).
Proof. intros code cached. discriminate. Qed.

Lemma cache_all_fresh_storeUrl now code urlData s :
  exists_ code s = false ->
  cache_all_fresh s -> cache_all_fresh (storeUrl now code urlData s).2.
Proof.
  intros Hnew Hfresh k cached Hget. simpl in *.
  destruct (Hfresh k cached Hget) as (r & Hr & Hexp).
  exists r. split; [|done]. rewrite lookup_insert_ne; [done|].
  intros ->. unfold exists_ in Hnew. apply bool_decide_eq_false in Hnew.
  apply Hnew. by eexists.
Qed.

Lemma cache_all_fresh_getUrl now code s :
  cache_all_fresh s -> cache_all_fresh (getUrl now code s).2.
Proof.
  intros Hfresh k cached Hget.
  destruct (getUrl_frame now code s) as (_ & _ & _ & Hu).
  assert (exists r, urls s !! k = Some r /\ expiresAt cached = expiresAt r)
    as (r & Hr & Hexp).
  { apply getUrl_cache in Hget as [Hold|(-> & Hr & _)]; [by apply Hfresh|].
    by exists cached. }
  destruct (Hu k) as [->|(r' & _ & Hr' & _ & ->)]; [by exists r|].
  exists (deactivate r'). split; [done|]. simpl. congruence.
Qed.

Lemma cache_all_fresh_recordClick now code metadata s :
  cache_all_fresh s -> cache_all_fresh (recordClick now code metadata s).2.
Proof.
  intros Hfresh k cached. destruct (urls s !! code) as [r|] eqn:Hr;
    [|rewrite recordClick_unknown by done; apply Hfresh].
  destruct (recordClick_known now code metadata s r Hr)
    as (_ & -> & _ & -> & _).
  destruct (decide (code = k)) as [<-|Hne].
  - rewrite lookup_insert_eq. unfold JSMap.has.
    destruct (JSMap.get code (cache s)) eqn:Hget.
    + rewrite jsmap_get_set_eq. intros [= <-]. by eexists.
    + congruence.
  - rewrite lookup_insert_ne by done.
    destruct (JSMap.has code (cache s)); [|apply Hfresh].
    rewrite jsmap_get_set_ne by done. apply Hfresh.
Qed.

Lemma cache_all_fresh_cleanup now s :
  cache_all_fresh s -> cache_all_fresh (cleanupExpiredUrls now s).2.
Proof.
  intros Hfresh k cached Hget.
  destruct (cleanupExpiredUrls_spec now s) as (Hmaps & _).
  destruct (Hmaps k) as (-> & _ & Hc). rewrite Hc in Hget.
  destruct (urls s !! k) as [r|] eqn:Hr; simpl in *.
  - destruct (unexpired now r) eqn:Hun; [|done].
    destruct (Hfresh k cached Hget) as (r' & Hr' & Hexp).
    unfold unexpired in Hun. destruct (expiresAt r <=? now)%Z; [done|].
    exists r. split; congruence.
  - destruct (Hfresh k cached Hget) as (r' & Hr' & _). congruence.
Qed.

(** The snapshots are fresh in the new store and stay so through every
    operation but a [storeUrl] on a shortcode that is in the store. *)
Lemma cache_all_fresh_preserved :
  (forall now, cache_all_fresh (newMemoryStore now)) /\
  (forall s, cache_all_fresh s ->
     (forall now code urlData, exists_ code s = false ->
        cache_all_fresh (storeUrl now code urlData s).2) /\
     (forall now code, cache_all_fresh (getUrl now code s).2) /\
     (forall now code metadata,
        cache_all_fresh (recordClick now code metadata s).2) /\
     (forall now, cache_all_fresh (cleanupExpiredUrls now s).2)).
Proof.
  split; [apply cache_all_fresh_new|]. intros s Hs.
  auto using cache_all_fresh_storeUrl, cache_all_fresh_getUrl,
    cache_all_fresh_recordClick, cache_all_fresh_cleanup.
Qed.

(** C5, as stated, fails: in [stale_store], a reachable store, the
    record of "abc123" has expired at instant 100000 and yet [getUrl]
    returns a record, the snapshot the cache kept of the record that
    [storeUrl] replaced. *)
Lemma getUrl_answers_from_stale_snapshot :
  reachable stale_store /\
  (exists record,
     urls stale_store !! "abc123" = Some record /\
     originalUrl record = "https://b.example" /\
     (expiresAt record <= 100000)%Z) /\
  (exists cached,
     (getUrl 100000 "abc123" stale_store).1 = Some cached /\
     originalUrl cached = "https://a.example").
Proof.
  split; [apply stale_store_reachable|]. split.
  - eexists. split; [vm_compute; reflexivity|]. split; [done|].
    vm_compute. discriminate.
  - eexists. split; [vm_compute; reflexivity|]. done.
Qed.

(** [getUrl] returns absent exactly when the cache has no live snapshot
    of the key and the record map has no live record for it; the store
    it then leaves has the record, if any, marked inactive. *)
Lemma getUrl_absent now code s :
  ((getUrl now code s).1 = None <->
     ~ live_snapshot now code s /\ expired_or_missing now code s) /\
  (forall record,
     (getUrl now code s).1 = None -> urls s !! code = Some record ->
     urls (getUrl now code s).2 = <[code := deactivate record]> (urls s) /\
     analytics (getUrl now code s).2 = analytics s /\
     stats (getUrl now code s).2 = stats s).
Proof.
  assert (forall s0,
    ((getUrl_record now code s0).1 = None <->
       expired_or_missing now code s0) /\
    (forall record,
       (getUrl_record now code s0).1 = None ->
       urls s0 !! code = Some record ->
       urls (getUrl_record now code s0).2
         = <[code := deactivate record]> (urls s0) /\
       analytics (getUrl_record now code s0).2 = analytics s0 /\
       stats (getUrl_record now code s0).2 = stats s0)) as Hrec.
  { intros s0. unfold getUrl_record, expired_or_missing.
    destruct (urls s0 !! code) as [r|] eqn:Hr; simpl.
    - destruct (expiresAt r <=? now)%Z eqn:Hle; simpl.
      + apply Z.leb_le in Hle. split.
        * split; [intros _; right; by exists r|done].
        * by intros record _ [= <-].
      + apply Z.leb_gt in Hle. split.
        * destruct (5 <? clickCount r); simpl;
            (split; [done|intros [?|(r' & [= <-] & ?)]; [done|lia]]).
        * destruct (5 <? clickCount r); by simpl.
    - split; [split; auto|]. intros record _. discriminate. }
  unfold getUrl, live_snapshot.
  destruct (JSMap.get code (cache s)) as [c|] eqn:Hget.
  - destruct (now <? expiresAt c)%Z eqn:Hlive.
    + apply Z.ltb_lt in Hlive. split; [|done]. simpl. split; [done|].
      intros [Hno _]. exfalso. apply Hno. by exists c.
    + apply Z.ltb_ge in Hlive.
      destruct (Hrec (set_cache (JSMap.delete code) s)) as [Hiff Hpath].
      split; [|exact Hpath]. rewrite Hiff. split.
      * intros Hexp. split; [|exact Hexp]. intros (c' & [= <-] & ?). lia.
      * by intros [_ Hexp].
  - destruct (Hrec s) as [Hiff Hpath]. split; [|exact Hpath].
    rewrite Hiff. split.
    + intros Hexp. split; [|exact Hexp]. by intros (c' & ? & _).
    + by intros [_ Hexp].
Qed.

Lemma cache_fresh_no_live_snapshot now code s :
  cache_fresh code s -> expired_or_missing now code s ->
  ~ live_snapshot now code s.
Proof.
  intros Hfresh Hexp (cached & Hget & Hlive).
  destruct (Hfresh cached Hget) as (r & Hr & Heq).
  destruct Hexp as [Hnone|(r' & Hr' & Hle)]; [congruence|].
  assert (r' = r) as -> by congruence. lia.
Qed.

(** C5, amended: for every shortcode, [getUrl] returns absent exactly
    when the cache holds no snapshot of it that is live by its own copy
    of the expiry, and the shortcode has no record in the store or the
    expiry of its record is at or before the current instant. When the
    cached snapshot, if there is one, carries the expiry of the stored
    record (which is so in every store made from a new one without
    calling [storeUrl] on a shortcode that is present,
    [cache_all_fresh_preserved]), this is: exactly when the shortcode has
    no record in the store or its record has expired. Whenever [getUrl]
    returns absent for a shortcode that has a record, the record has
    expired, it is marked inactive and stays in the record map, and the
    other records, the event logs and the counters are left as they
    were. *)
Theorem getUrl_absent_iff_expired now code s :
  ((getUrl now code s).1 = None <->
     ~ live_snapshot now code s /\
     (urls s !! code = None \/
      exists record, urls s !! code = Some record /\
                     (expiresAt record <= now)%Z)) /\
  (cache_fresh code s ->
     ((getUrl now code s).1 = None <->
        urls s !! code = None \/
        exists record, urls s !! code = Some record /\
                       (expiresAt record <= now)%Z)) /\
  (forall record,
     (getUrl now code s).1 = None -> urls s !! code = Some record ->
     let s' := (getUrl now code s).2 in
     (expiresAt record <= now)%Z /\
     urls s' !! code = Some (deactivate record) /\
     isActive (deactivate record) = false /\
     (forall other, other <> code -> urls s' !! other = urls s !! other) /\
     analytics s' = analytics s /\ stats s' = stats s).
Proof.
  destruct (getUrl_absent now code s) as [Hiff Hpath].
  split; [exact Hiff|]. split.
  - intros Hfresh. rewrite Hiff. split; [by intros [_ ?]|].
    intros Hexp. split; [|exact Hexp].
    by apply cache_fresh_no_live_snapshot.
  - intros record Hnone Hr. simpl.
    destruct (Hpath record Hnone Hr) as (-> & -> & ->).
    apply Hiff in Hnone as [_ [Hmiss|(r' & Hr' & Hle)]]; [congruence|].
    assert (r' = record) as -> by congruence.
    rewrite lookup_insert_eq. do 3 (split; [done|]). split; [|done].
    intros other Hne. by rewrite lookup_insert_ne.
Qed.

Lemma getUrl_absent_iff_expired_witness :
  let s := (storeUrl 0 "abc123" (UrlData.mk "https://a.example" 1 None)
              (newMemoryStore 0)).2 in
  (getUrl 60000 "abc123" s).1 = None /\
  isActive <$> urls (getUrl 60000 "abc123" s).2 !! "abc123" = Some false.
Proof.
  intros s.
  assert (cache_fresh "abc123" s) as Hfresh.
  { intros cached. discriminate. }
  destruct (getUrl_absent_iff_expired 60000 "abc123" s)
    as (_ & Hiff & Hpath).
  assert ((getUrl 60000 "abc123" s).1 = None) as Hnone.
  { apply (Hiff Hfresh). right. eexists. split; [reflexivity|].
    vm_compute. discriminate. }
  split; [exact Hnone|].
  destruct (Hpath _ Hnone eq_refl) as (_ & -> & _). reflexivity.
Defined.

(** C9, as stated, fails in its middle part: in [stale_store] the record
    of "abc123" has expired at instant 100000 and has not been swept,
    [exists] returns true, and [getUrl] does not return absent. *)
Lemma expired_shortcode_may_resolve :
  reachable stale_store /\
  exists_ "abc123" stale_store = true /\
  (expiresAt <$> urls stale_store !! "abc123" = Some 60020%Z) /\
  (getUrl 100000 "abc123" stale_store).1 <> None.
Proof.
  split; [apply stale_store_reachable|]. split; [by vm_compute|].
  split; [by vm_compute|]. vm_compute. discriminate.
Qed.

(** C9, amended: for every shortcode whose record has expired and has
    not been swept, [exists] returns true, since it looks at the key
    alone, and a create request that supplies the shortcode is refused
    with a [ConflictError]; at the same instant [getUrl] returns absent
    for it exactly when the cache holds no snapshot of it that is live by
    its own copy of the expiry, which is so whenever the cached snapshot,
    if there is one, carries the expiry of the stored record. *)
Theorem expired_shortcode_still_exists random dateNow md5hex now code s
    record :
  urls s !! code = Some record -> (expiresAt record <= now)%Z ->
  exists_ code s = true /\
  ((getUrl now code s).1 = None <-> ~ live_snapshot now code s) /\
  (cache_fresh code s -> (getUrl now code s).1 = None) /\
  (forall g url expiresIn description, code <> "" ->
     createUrl random dateNow md5hex now
       (mkCreateBody url (Some code) expiresIn description) g s =
     Thrown (ConflictError
               ("Shortcode '" +:+ code +:+ "' is already taken"))).
Proof.
  intros Hr Hexp.
  assert (exists_ code s = true) as Hex.
  { unfold exists_. apply bool_decide_eq_true. by eexists. }
  assert (expired_or_missing now code s) as Hmiss.
  { right. by exists record. }
  destruct (getUrl_absent now code s) as [Hiff _].
  split; [done|]. split; [|split].
  - rewrite Hiff. split; [by intros [? _]|done].
  - intros Hfresh. apply Hiff. split; [|done].
    by apply cache_fresh_no_live_snapshot.
  - intros g url expiresIn description Hne. unfold createUrl. simpl.
    rewrite decide_False by done. by rewrite Hex.
Qed.

Lemma expired_shortcode_still_exists_witness :
  let s := (storeUrl 0 "abc123" (UrlData.mk "https://a.example" 1 None)
              (newMemoryStore 0)).2 in
  exists_ "abc123" s = true /\
  (getUrl 60000 "abc123" s).1 = None /\
  createUrl (fun _ => mkDraw 0 0) (fun _ => 0%Z) (fun _ => "") 60000
    (mkCreateBody "https://b.example" (Some "abc123") 30 None)
    (mkGenerator 0 0 0) s =
  Thrown (ConflictError "Shortcode 'abc123' is already taken").
Proof.
  intros s.
  edestruct (expired_shortcode_still_exists (fun _ => mkDraw 0 0)
               (fun _ => 0%Z) (fun _ => "") 60000 "abc123" s)
    as (Hex & _ & Hget & Hcreate).
  - reflexivity.
  - vm_compute. discriminate.
  - split; [exact Hex|]. split.
    + apply Hget. intros cached. discriminate.
    + apply Hcreate. discriminate.
Defined.

(** ** Shortcodes and the records bound to them *)

Lemma same_record_refl r : same_record r r.
Proof. by repeat split. Qed.

Lemma same_record_trans r1 r2 r3 :
  same_record r1 r2 -> same_record r2 r3 -> same_record r1 r3.
Proof. unfold same_record. intros (?&?&?&?&?) (?&?&?&?&?). repeat split; congruence. Qed.

(** A create request that succeeds has called [storeUrl] once. *)
Lemma createUrl_stores random dateNow md5hex now body g s r g' s' :
  createUrl random dateNow md5hex now body g s = Returned (r, g', s') ->
  exists code,
    s' = (storeUrl now code
            (UrlData.mk (body_url body) (body_expiresIn body)
               (body_description body)) s).2.
Proof.
  unfold createUrl.
  destruct (generate random dateNow md5hex _ (Some storeExists) g s)
    as [gen|e|];
    destruct (body_shortcode body) as [custom|];
    repeat case_decide; try destruct (exists_ custom s);
    simpl; intros [= <- <- <-]; eexists; reflexivity.
Qed.

(** The service only reaches stores that the methods of the store
    reach. *)
Lemma step_reachable random dateNow md5hex op st :
  reachable st.2 -> reachable (step random dateNow md5hex op st).2.
Proof.
  destruct st as [g s]. intros Hs.
  destruct op as [now body|now k|now k m|now]; cbn [step fst snd];
    try by constructor.
  destruct (createUrl random dateNow md5hex now body g s)
    as [[[r g'] s']|e|] eqn:Hcreate; [|done..].
  apply createUrl_stores in Hcreate as [code ->]. by constructor.
Qed.

Lemma run_reachable random dateNow md5hex ops : forall st,
  reachable st.2 -> reachable (run random dateNow md5hex ops st).2.
Proof.
  induction ops as [|op ops IH]; intros st Hst; [done|].
  apply IH. by apply step_reachable.
Qed.

(** The service reaches a store with a stale snapshot by itself: the create request of
    [stale_run] that supplies no shortcode exhausts its attempts and
    stores under the fallback code, which is taken and cached. *)
Lemma service_reaches_stale_snapshot :
  let st := run (fun _ => mkDraw 0 0) (fun _ => 1730000000000%Z)
              (fun _ => "") stale_run
              (mkGenerator 5 0 0, newMemoryStore 0) in
  reachable st.2 /\
  originalUrl <$> urls st.2 !! "aaaaaaaa" = Some "https://b.example" /\
  expiresAt <$> urls st.2 !! "aaaaaaaa" = Some 60020%Z /\
  originalUrl <$> (getUrl 100000 "aaaaaaaa" st.2).1
    = Some "https://a.example".
Proof.
  intros st. split; [apply run_reachable, reach_new|].
  by vm_compute.
Qed.

(** C2, as stated, fails: a shortcode is bound again, to a different
    record, once the sweeper has deleted its record. The create request
    for "abc123" at instant 0 (one minute to live) binds it to a record
    for one URL; after the sweep at instant 60000 the create request for
    "abc123" at instant 60001 is accepted and binds it to a record for
    another URL. *)
Lemma shortcode_reused_after_sweep :
  let run_ := run (fun _ => mkDraw 0 0) (fun _ => 0%Z) (fun _ => "") in
  let first := mkCreateBody "https://a.example" (Some "abc123") 1 None in
  let second := mkCreateBody "https://b.example" (Some "abc123") 1 None in
  let st1 := run_ [OpCreate 0 first] (mkGenerator 0 0 0, newMemoryStore 0) in
  let st2 := run_ [OpCleanup 60000] st1 in
  let st3 := run_ [OpCreate 60001 second] st2 in
  (originalUrl <$> urls st1.2 !! "abc123" = Some "https://a.example" /\
   createdAt <$> urls st1.2 !! "abc123" = Some 0%Z) /\
  urls st2.2 !! "abc123" = None /\
  (originalUrl <$> urls st3.2 !! "abc123" = Some "https://b.example" /\
   createdAt <$> urls st3.2 !! "abc123" = Some 60001%Z) /\
  reachable st3.2.
Proof.
  intros run_ first second st1 st2 st3.
  split; [by vm_compute|]. split; [by vm_compute|].
  split; [by vm_compute|].
  do 3 apply run_reachable. apply reach_new.
Qed.

(** ** The character sets and [generateRandom] *)

Lemma chars_of_append a b : chars_of (a +:+ b) = chars_of a ++ chars_of b.
Proof. induction a as [|c a IH]; simpl; [done|]. by rewrite IH. Qed.

Lemma string_length_append a b :
  String.length (a +:+ b) = String.length a + String.length b.
Proof. induction a as [|c a IH]; simpl; [done|]. by rewrite IH. Qed.

Lemma string_get_Some i s :
  i < String.length s ->
  exists c, String.get i s = Some c /\ c ∈ chars_of s.
Proof.
  revert i. induction s as [|c s IH]; intros i Hi; simpl in *; [lia|].
  destruct i as [|i].
  - exists c. split; [done|]. by left.
  - destruct (IH i ltac:(lia)) as (c' & Hget & Hin).
    exists c'. split; [done|]. by right.
Qed.

Lemma floor_scale_lt u n : 0 < n -> floor_scale u n < n.
Proof.
  intros Hn. unfold floor_scale. apply Nat.Div0.div_lt_upper_bound. nia.
Qed.

Section GeneratorFacts.
Variable random : nat -> unit_draw.
Variable dateNow : nat -> Z.
Variable md5hex : string -> string.

(** Every turn of the loop of [generateRandom] adds one character of
    the character set. *)
Lemma generateRandom_loop_spec chars n : forall result g,
  0 < String.length chars ->
  let code := (generateRandom_loop random chars n result g).1 in
  String.length code = String.length result + n /\
  forall c, c ∈ chars_of code -> c ∈ chars_of result \/ c ∈ chars_of chars.
Proof.
  induction n as [|n IH]; intros result g Hpos; simpl.
  { split; [lia|auto]. }
  destruct (string_get_Some
              (floor_scale (random (randomCalls g)) (String.length chars))
              chars) as (c0 & Hget & Hin0).
  { by apply floor_scale_lt. }
  edestruct IH as [Hlen Hchars]; [exact Hpos|].
  split.
  - rewrite Hlen, string_length_append. unfold charAt. rewrite Hget.
    simpl. lia.
  - intros c Hc. apply Hchars in Hc as [Hc|Hc]; [|by right].
    rewrite chars_of_append in Hc. apply elem_of_app in Hc as [Hc|Hc];
      [by left|right].
    unfold charAt in Hc. rewrite Hget in Hc. simpl in Hc.
    apply list_elem_of_singleton in Hc. by subst.
Qed.

Lemma generateRandom_spec length readable g :
  let code := (generateRandom random length readable g).1 in
  String.length code = length /\
  Forall (fun c => c ∈ chars_of (if readable then readableCharset
                                 else charset)) (chars_of code).
Proof.
  unfold generateRandom.
  edestruct (generateRandom_loop_spec
               (if readable then readableCharset else charset) length ""
               g) as [Hlen Hchars].
  { destruct readable; simpl; lia. }
  split; [exact Hlen|]. apply Forall_forall. intros c Hc.
  apply Hchars in Hc as [Hc|Hc]; [|done]. by apply elem_of_nil in Hc.
Qed.
End GeneratorFacts.

(** C3, as stated, fails: the readable set has 56 characters, not 57,
    and the lower-case letter o, which is an alphanumeric character and
    none of 0, O, 1, l, I, is not in it. *)
Lemma readable_charset_leaves_out_o :
  let o : ascii := "o"%char in
  String.length readableCharset <> 57 /\
  o ∈ chars_of charset /\
  (o ∉ ambiguous_listed) /\
  (o ∉ chars_of readableCharset).
Proof.
  intros o. split; [by vm_compute|].
  repeat split; apply (bool_decide_unpack _); by vm_compute.
Qed.

(** C3, amended: the readable character set has 56 characters, the 62
    alphanumeric characters without exactly 0, O, o, 1, l and I, and
    every code the random strategy draws under the readable variant has
    the length asked for and only characters of this set. *)
Theorem readable_charset_56 :
  String.length charset = 62 /\
  String.length readableCharset = 56 /\
  NoDup (chars_of readableCharset) /\
  (forall c, c ∈ chars_of readableCharset <->
             c ∈ chars_of charset /\ c ∉ ambiguous_left_out) /\
  (forall random length g,
     let code := (generateRandom random length true g).1 in
     String.length code = length /\
     Forall (fun c => c ∈ chars_of readableCharset) (chars_of code)).
Proof.
  split; [done|]. split; [done|].
  split; [apply (bool_decide_unpack _); by vm_compute|]. split.
  - intros c. split.
    + intros Hc. unfold chars_of, readableCharset in Hc. simpl in Hc.
      repeat (apply elem_of_cons in Hc as [->|Hc];
              [split; apply (bool_decide_unpack _); by vm_compute|]).
      by apply elem_of_nil in Hc.
    + intros [Hc Hout]. unfold chars_of, charset in Hc. simpl in Hc.
      repeat (apply elem_of_cons in Hc as [->|Hc];
              [first [ apply (bool_decide_unpack _); by vm_compute
                     | exfalso; apply Hout;
                       apply (bool_decide_unpack _); by vm_compute ]|]).
      by apply elem_of_nil in Hc.
  - intros random length g. apply (generateRandom_spec random length true g).
Qed.

(** ** The retry loop of [generate] *)

Section GenerateFacts.
Variable random : nat -> unit_draw.
Variable dateNow : nat -> Z.
Variable md5hex : string -> string.
Context {C : Type}.
Variable options : Options.t.
Variable callback : string -> C -> bool * C.

Implicit Type cb : option (string -> C -> bool * C).

Lemma candidate_runs g : candidate random dateNow md5hex options g <> OutOfFuel.
Proof.
  unfold candidate. repeat case_decide; try done.
  destruct (Options.url options); [case_decide|]; done.
Qed.

(** The bound of the loop is never reached: [generate] returns or
    throws. *)
Lemma generate_loop_runs cb fuel : forall attempts g c,
  Options.maxAttempts options - attempts < fuel ->
  generate_loop random dateNow md5hex fuel options cb attempts g c <> OutOfFuel.
Proof.
  induction fuel as [|fuel IH]; intros attempts g c Hfuel; [lia|].
  simpl. pose proof (candidate_runs g) as Hcand.
  destruct (candidate random dateNow md5hex options g) as [[shortcode g1]|e|]; try done.
  destruct cb as [f|]; [|done].
  destruct (f shortcode c) as [b c1]. destruct b; simpl; [|done].
  destruct (Options.maxAttempts options <=? attempts + 1) eqn:Hmax.
  { by destruct (generateRandom random _ _ g1). }
  apply Nat.leb_gt in Hmax.
  destruct (attempts + 1 <? Options.maxAttempts options); [|done].
  apply IH. lia.
Qed.

Lemma generate_runs cb g c : generate random dateNow md5hex options cb g c <> OutOfFuel.
Proof. apply generate_loop_runs. lia. Qed.

Lemma candidates_S n g :
  candidates random dateNow md5hex options (S n) g =
  match candidate random dateNow md5hex options g with
  | Returned (shortcode, g1) =>
      match candidates random dateNow md5hex options n g1 with
      | Returned (rest, g2) => Returned (shortcode :: rest, g2)
      | Thrown e => Thrown e
      | OutOfFuel => OutOfFuel
      end
  | Thrown e => Thrown e
  | OutOfFuel => OutOfFuel
  end.
Proof. reflexivity. Qed.

Lemma candidates_length n : forall g codes g',
  candidates random dateNow md5hex options n g = Returned (codes, g') ->
  List.length codes = n.
Proof.
  induction n as [|n IH]; intros g codes g'.
  - by intros [= <- _].
  - rewrite candidates_S.
    destruct (candidate random dateNow md5hex options g)
      as [[shortcode g1]|e|]; try done.
    destruct (candidates random dateNow md5hex options n g1)
      as [[rest g2]|e|] eqn:Hrest; try done.
    intros [= <- _]. simpl. f_equal. by eapply IH.
Qed.

Lemma ask_cons code codes c :
  ask callback (code :: codes) c =
  ((callback code c).1 :: (ask callback codes (callback code c).2).1,
   (ask callback codes (callback code c).2).2).
Proof.
  simpl. destruct (callback code c) as [b c1]. simpl.
  by destruct (ask callback codes c1).
Qed.

(** [N] collisions and then a free candidate. *)
Lemma generate_loop_retries N : forall fuel attempts g c codes gN code,
  attempts + N < Options.maxAttempts options ->
  N < fuel ->
  candidates random dateNow md5hex options (S N) g = Returned (codes, gN) ->
  (ask callback codes c).1 = replicate N true ++ [false] ->
  last codes = Some code ->
  generate_loop random dateNow md5hex fuel options (Some callback)
    attempts g c =
    Returned {| code_of := code; attempts_of := attempts + N + 1;
                generator_of := gN;
                callback_of := (ask callback codes c).2 |}.
Proof.
  induction N as [|N IH];
    intros fuel attempts g c codes gN code Hmax Hfuel Hcands Hask Hlast;
    (destruct fuel as [|fuel]; [lia|]);
    rewrite candidates_S in Hcands; simpl;
    (destruct (candidate random dateNow md5hex options g)
       as [[shortcode g1]|e|]; try done).
  - simpl in Hcands. injection Hcands as <- <-.
    rewrite ask_cons in Hask |- *. simpl in *.
    destruct (callback shortcode c) as [b c1]. simpl in *.
    injection Hask as ->. injection Hlast as <-. simpl.
    do 2 f_equal. lia.
  - destruct (candidates random dateNow md5hex options (S N) g1)
      as [[rest g2]|e|] eqn:Hrest; try done.
    injection Hcands as <- <-.
    rewrite ask_cons in Hask |- *. cbn [fst snd] in *.
    destruct (callback shortcode c) as [b c1]. cbn [fst snd] in *.
    change (replicate (S N) true ++ [false])
      with (true :: (replicate N true ++ [false])) in Hask.
    injection Hask as -> Hbs. simpl.
    assert ((Options.maxAttempts options <=? attempts + 1) = false) as ->
      by (apply Nat.leb_gt; lia).
    assert ((attempts + 1 <? Options.maxAttempts options) = true) as ->
      by (apply Nat.ltb_lt; lia).
    rewrite (IH fuel (attempts + 1) g1 c1 rest g2 code);
      try done; try lia.
    + do 2 f_equal. lia.
    + apply candidates_length in Hrest.
      destruct rest as [|r rest']; [done|]. by rewrite last_cons_cons in Hlast.
Qed.

(** Collisions up to [maxAttempts]: the longer random code. *)
Lemma generate_loop_falls_back M : forall fuel attempts g c codes gM,
  0 < M -> attempts + M = Options.maxAttempts options ->
  M <= fuel ->
  candidates random dateNow md5hex options M g = Returned (codes, gM) ->
  (ask callback codes c).1 = replicate M true ->
  generate_loop random dateNow md5hex fuel options (Some callback)
    attempts g c =
    Returned
      {| code_of :=
           (generateRandom random (Options.length options + 2)
              (Options.readable options) gM).1;
         attempts_of := Options.maxAttempts options;
         generator_of :=
           (generateRandom random (Options.length options + 2)
              (Options.readable options) gM).2;
         callback_of := (ask callback codes c).2 |}.
Proof.
  induction M as [|M IH];
    intros fuel attempts g c codes gM Hpos Hmax Hfuel Hcands Hask; [lia|].
  destruct fuel as [|fuel]; [lia|].
  rewrite candidates_S in Hcands. simpl.
  destruct (candidate random dateNow md5hex options g)
    as [[shortcode g1]|e|]; try done.
  destruct (candidates random dateNow md5hex options M g1)
    as [[rest g2]|e|] eqn:Hrest; try done.
  injection Hcands as <- <-.
  rewrite ask_cons in Hask |- *. cbn [fst snd] in *.
  destruct (callback shortcode c) as [b c1]. cbn [fst snd] in *.
  change (replicate (S M) true) with (true :: replicate M true) in Hask.
  injection Hask as -> Hbs. simpl.
  destruct M as [|M].
  - simpl in Hrest. injection Hrest as <- <-. simpl.
    assert ((Options.maxAttempts options <=? attempts + 1) = true) as ->
      by (apply Nat.leb_le; lia).
    destruct (generateRandom random _ _ g1) as [longer g3]. simpl.
    do 2 f_equal. lia.
  - assert ((Options.maxAttempts options <=? attempts + 1) = false) as ->
      by (apply Nat.leb_gt; lia).
    assert ((attempts + 1 <? Options.maxAttempts options) = true) as ->
      by (apply Nat.ltb_lt; lia).
    by rewrite (IH fuel (attempts + 1) g1 c1 rest g2) by (done || lia).
Qed.

Lemma generate_loop_attempts fuel : forall attempts g c r,
  generate_loop random dateNow md5hex fuel options (Some callback)
    attempts g c = Returned r ->
  attempts + 1 <= attempts_of r.
Proof.
  induction fuel as [|fuel IH]; intros attempts g c r; simpl; [done|].
  destruct (candidate random dateNow md5hex options g)
    as [[shortcode g1]|e|]; try done.
  destruct (callback shortcode c) as [b c1]. destruct b; simpl.
  - destruct (Options.maxAttempts options <=? attempts + 1).
    { destruct (generateRandom random _ _ g1). by intros [= <-]. }
    destruct (attempts + 1 <? Options.maxAttempts options).
    + intros H%IH. lia.
    + by intros [= <-].
  - by intros [= <-].
Qed.

(** The instrumented callback counts one call per attempt and changes
    nothing else. *)
Lemma generate_loop_counting fuel : forall attempts g c calls,
  generate_loop random dateNow md5hex fuel options
    (Some (counting callback)) attempts g (calls, c) =
  match generate_loop random dateNow md5hex fuel options (Some callback)
          attempts g c with
  | Returned r =>
      Returned {| code_of := code_of r; attempts_of := attempts_of r;
                  generator_of := generator_of r;
                  callback_of :=
                    (calls + (attempts_of r - attempts), callback_of r) |}
  | Thrown e => Thrown e
  | OutOfFuel => OutOfFuel
  end.
Proof.
  induction fuel as [|fuel IH]; intros attempts g c calls; simpl; [done|].
  destruct (candidate random dateNow md5hex options g)
    as [[shortcode g1]|e|]; try done.
  destruct (callback shortcode c) as [b c1]. destruct b; simpl.
  - destruct (Options.maxAttempts options <=? attempts + 1) eqn:Hmax.
    { destruct (generateRandom random _ _ g1) as [longer g2]. simpl.
      do 3 f_equal. simpl. lia. }
    destruct (attempts + 1 <? Options.maxAttempts options) eqn:Hlt.
    + rewrite IH.
      destruct (generate_loop random dateNow md5hex fuel options
                  (Some callback) (attempts + 1) g1 c1)
        as [r|e|] eqn:Hloop; try done.
      apply generate_loop_attempts in Hloop. do 3 f_equal. simpl. lia.
    + do 3 f_equal. simpl. lia.
  - do 3 f_equal. simpl. lia.
Qed.
End GenerateFacts.

(** C4: when the existence callback answers true on the first [N]
    candidates and false on the next, with [N < maxAttempts], [generate]
    returns that next candidate, the first one that does not collide,
    and has called the callback [N + 1] times; when it answers true on
    all of the [maxAttempts] candidates, [generate] returns a random
    code of [length + 2] characters drawn after them and has called the
    callback [maxAttempts] times, once per candidate, so the code it
    returns was not checked. The callback is any function with a state
    of its own; [counting] adds the number of calls to this state. *)
Theorem generate_retries_then_falls_back random dateNow md5hex {C : Type}
    options (callback : string -> C -> bool * C) g c :
  (forall N codes gN code,
     N < Options.maxAttempts options ->
     candidates random dateNow md5hex options (S N) g
       = Returned (codes, gN) ->
     (ask callback codes c).1 = replicate N true ++ [false] ->
     last codes = Some code ->
     generate random dateNow md5hex options (Some callback) g c =
       Returned {| code_of := code; attempts_of := N + 1;
                   generator_of := gN;
                   callback_of := (ask callback codes c).2 |} /\
     generate random dateNow md5hex options (Some (counting callback)) g
       (0, c) =
       Returned {| code_of := code; attempts_of := N + 1;
                   generator_of := gN;
                   callback_of := (N + 1, (ask callback codes c).2) |}) /\
  (forall codes gM,
     0 < Options.maxAttempts options ->
     candidates random dateNow md5hex options (Options.maxAttempts options) g
       = Returned (codes, gM) ->
     (ask callback codes c).1 = replicate (Options.maxAttempts options) true ->
     let longer := generateRandom random (Options.length options + 2)
                     (Options.readable options) gM in
     generate random dateNow md5hex options (Some callback) g c =
       Returned {| code_of := longer.1;
                   attempts_of := Options.maxAttempts options;
                   generator_of := longer.2;
                   callback_of := (ask callback codes c).2 |} /\
     generate random dateNow md5hex options (Some (counting callback)) g
       (0, c) =
       Returned {| code_of := longer.1;
                   attempts_of := Options.maxAttempts options;
                   generator_of := longer.2;
                   callback_of := (Options.maxAttempts options,
                                   (ask callback codes c).2) |}).
Proof.
  split.
  - intros N codes gN code HN Hcands Hask Hlast.
    pose proof (generate_loop_retries random dateNow md5hex options callback
                  N (S (Options.maxAttempts options)) 0 g c codes gN code
                  ltac:(lia) ltac:(lia) Hcands Hask Hlast) as Hrun.
    unfold generate. rewrite generate_loop_counting, Hrun. simpl.
    split; [done|]. do 3 f_equal. lia.
  - intros codes gM Hpos Hcands Hask longer.
    pose proof (generate_loop_falls_back random dateNow md5hex options
                  callback (Options.maxAttempts options)
                  (S (Options.maxAttempts options)) 0 g c codes gM
                  Hpos ltac:(lia) ltac:(lia) Hcands Hask) as Hrun.
    unfold generate. rewrite generate_loop_counting, Hrun. simpl.
    split; [done|]. do 3 f_equal. lia.
Qed.

(** With [maxAttempts = 0] the loop still takes one turn: one candidate
    is drawn and checked, and a collision goes to the longer code at
    once. *)
Lemma generate_maxAttempts_0 random dateNow md5hex {C : Type} options
    (callback : string -> C -> bool * C) g c shortcode g1 :
  Options.maxAttempts options = 0 ->
  candidate random dateNow md5hex options g = Returned (shortcode, g1) ->
  generate random dateNow md5hex options (Some callback) g c =
    if (callback shortcode c).1
    then
      let longer := generateRandom random (Options.length options + 2)
                      (Options.readable options) g1 in
      Returned {| code_of := longer.1; attempts_of := 1;
                  generator_of := longer.2;
                  callback_of := (callback shortcode c).2 |}
    else
      Returned {| code_of := shortcode; attempts_of := 1;
                  generator_of := g1;
                  callback_of := (callback shortcode c).2 |}.
Proof.
  intros Hmax Hcand. unfold generate. rewrite Hmax. simpl.
  rewrite Hcand, Hmax. destruct (callback shortcode c) as [b c1].
  destruct b; simpl; [|done]. by destruct (generateRandom random _ _ g1).
Qed.

Lemma generate_retries_then_falls_back_witness :
  let random := fun k => mkDraw (k * 7) 30 in
  let dateNow := fun k => (1730000000000 + Z.of_nat k)%Z in
  let md5hex := fun _ : string => "d41d8cd98f00b204e9800998ecf8427e" in
  let options := Options.mk 6 "sequential" None true 3 in
  let g := mkGenerator 5 0 0 in
  generate random dateNow md5hex options
    (Some (counting (fun (_ : string) (n : nat) => (n <? 2, S n)))) g (0, 0) =
    Returned {| code_of := "1bz7m8"; attempts_of := 3;
                generator_of := mkGenerator 8 0 3;
                callback_of := (3, 3) |} /\
  generate random dateNow md5hex options
    (Some (counting (fun (_ : string) (u : unit) => (true, u)))) g (0, tt) =
    Returned {| code_of := "aktyCFJL"; attempts_of := 3;
                generator_of := mkGenerator 8 8 3;
                callback_of := (3, tt) |}.
Proof.
  intros random dateNow md5hex options g. split.
  - apply (proj1 (generate_retries_then_falls_back random dateNow md5hex
                    options (fun (_ : string) (n : nat) => (n <? 2, S n))
                    g 0) 2 ["1bz7k6"; "1bz7l7"; "1bz7m8"]
                    (mkGenerator 8 0 3) "1bz7m8");
      [vm_compute; lia | reflexivity | reflexivity | reflexivity].
  - apply (proj2 (generate_retries_then_falls_back random dateNow md5hex
                    options (fun (_ : string) (u : unit) => (true, u))
                    g tt) ["1bz7k6"; "1bz7l7"; "1bz7m8"]
                    (mkGenerator 8 0 3));
      [vm_compute; lia | reflexivity | reflexivity].
Defined.

Lemma hot_liveb_Forall now s codes :
  forallb (hot_liveb now s) codes = true -> Forall (hot_live now s) codes.
Proof.
  rewrite forallb_forall, Forall_forall. intros H code Hin.
  apply list_elem_of_In, H in Hin. unfold hot_liveb in Hin.
  destruct (urls s !! code) as [record|] eqn:Hr; [|done].
  apply andb_prop in Hin as [?%Z.ltb_lt ?%Nat.ltb_lt]. by exists record.
Qed.

Lemma cache_fifo_eviction_witness :
  let s := store_hot (hot_keys 1001) (newMemoryStore 0) in
  let first := "k0" in
  let middle := drop 1 (hot_keys 1000) in
  let final := "krs" in
  let filled := getUrls 10 (first :: middle) s in
  JSMap.keys (cache filled) = first :: middle /\
  JSMap.keys (cache (getUrl 10 final (getUrls 10 [first; first] filled)).2) =
    middle ++ [final].
Proof.
  intros s first middle final.
  apply (proj2 (proj2 (proj2 cache_fifo_eviction)) s 10%Z first middle final
           [first; first]).
  - vm_compute. reflexivity.
  - vm_compute. reflexivity.
  - apply (bool_decide_unpack _). vm_compute. reflexivity.
  - apply hot_liveb_Forall. vm_compute. reflexivity.
  - apply (bool_decide_unpack _). vm_compute. reflexivity.
Defined.

(** * Further properties of the store *)

(** ** The sweep *)

(** The loop counts one per record it deletes. *)
Lemma cleanup_loop_count now entries : forall s n,
  NoDup entries.*1 ->
  (forall code record, (code, record) ∈ entries ->
                       urls s !! code = Some record) ->
  size (urls s) + n =
    size (urls (cleanup_loop now entries s n).2)
    + (cleanup_loop now entries s n).1.
Proof.
  induction entries as [|[k r] entries IH]; intros s n Hnd Hin; simpl.
  { lia. }
  apply NoDup_cons in Hnd as [Hk Hnd].
  assert (urls s !! k = Some r) as Hr by (apply Hin; by left).
  destruct (expiresAt r <=? now)%Z.
  - rewrite <- IH; [|done|].
    + simpl. rewrite map_size_delete, Hr.
      pose proof (map_size_ne_0_lookup_2 (urls s) k ltac:(by eexists)).
      lia.
    + intros code record Hcr. simpl. rewrite lookup_delete_ne.
      * apply Hin. by right.
      * intros ->. apply Hk. apply list_elem_of_fmap. by exists (code, record).
  - apply IH; [done|]. intros code record Hcr. apply Hin. by right.
Qed.

(** X1: a sweep deletes exactly the records that have expired, each with
    its event log and its cache entry, leaves every other shortcode as it
    was, and returns the number of records it deleted. *)
Theorem sweep_removes_exactly_the_expired now s :
  let count := (cleanupExpiredUrls now s).1 in
  let s' := (cleanupExpiredUrls now s).2 in
  (forall code record,
     urls s !! code = Some record -> (expiresAt record <= now)%Z ->
     urls s' !! code = None /\ analytics s' !! code = None /\
     JSMap.get code (cache s') = None) /\
  (forall code,
     (forall record, urls s !! code = Some record ->
                     (now < expiresAt record)%Z) ->
     urls s' !! code = urls s !! code /\
     analytics s' !! code = analytics s !! code /\
     JSMap.get code (cache s') = JSMap.get code (cache s)) /\
  size (urls s) = size (urls s') + count /\
  lastCleanup (stats s') = now.
Proof.
  destruct (cleanupExpiredUrls_spec now s) as (Hmaps & _).
  pose proof (cleanup_loop_count now (map_to_list (urls s)) s 0
                (NoDup_fst_map_to_list _)) as Hcount.
  unfold cleanupExpiredUrls in *.
  destruct (cleanup_loop now (map_to_list (urls s)) s 0) as [n s1].
  simpl in *. split; [|split; [|split; [|done]]].
  - intros code record Hr Hexp. destruct (Hmaps code) as (-> & -> & ->).
    rewrite Hr. simpl. unfold unexpired.
    apply Z.leb_le in Hexp. by rewrite Hexp.
  - intros code Hlive. destruct (Hmaps code) as (-> & -> & ->).
    destruct (urls s !! code) as [r|]; simpl; [|done].
    unfold unexpired. specialize (Hlive r eq_refl).
    apply Z.leb_gt in Hlive. by rewrite Hlive.
  - rewrite <- Hcount; [lia|]. intros code record.
    apply elem_of_map_to_list.
Qed.

Lemma sweep_removes_exactly_the_expired_witness :
  let s := (storeUrl 0 "keep" (UrlData.mk "https://b.example" 60 None)
             (storeUrl 0 "gone" (UrlData.mk "https://a.example" 1 None)
                (newMemoryStore 0)).2).2 in
  urls (cleanupExpiredUrls 60000 s).2 !! "gone" = None /\
  urls (cleanupExpiredUrls 60000 s).2 !! "keep" = urls s !! "keep" /\
  (cleanupExpiredUrls 60000 s).1 = 1.
Proof.
  intros s.
  destruct (sweep_removes_exactly_the_expired 60000 s)
    as (Hgone & Hkeep & Hsize & _).
  split; [|split].
  - edestruct (Hgone "gone") as (H & _);
      [vm_compute; reflexivity | vm_compute; discriminate | exact H].
  - apply (Hkeep "keep"). intros record. vm_compute. by intros [= <-].
  - vm_compute. reflexivity.
Defined.

(** A loop that meets no expired record changes nothing. *)
Lemma cleanup_loop_nothing now entries s n :
  Forall (fun entry => (now < expiresAt entry.2)%Z) entries ->
  cleanup_loop now entries s n = (n, s).
Proof.
  induction 1 as [|[k r] entries Hr _ IH]; simpl; [done|].
  simpl in Hr. apply Z.leb_gt in Hr. by rewrite Hr.
Qed.

(** X2: after a sweep no record of the store has expired at the instant
    of the sweep, and a second sweep at that instant or before returns 0
    and changes only the time of the last sweep. *)
Theorem sweep_leaves_nothing_to_sweep now now' s :
  (now' <= now)%Z ->
  let s' := (cleanupExpiredUrls now s).2 in
  (forall code record, urls s' !! code = Some record ->
                       (now < expiresAt record)%Z) /\
  cleanupExpiredUrls now' s' =
    (0, set_stats (fun st =>
          {| totalUrls := totalUrls st; totalClicks := totalClicks st;
             createdToday := createdToday st; lastCleanup := now' |}) s').
Proof.
  intros Hle s'.
  assert (forall code record, urls s' !! code = Some record ->
                              (now < expiresAt record)%Z) as Hlive.
  { intros code record. subst s'.
    destruct (cleanupExpiredUrls_spec now s) as (Hmaps & _).
    destruct (Hmaps code) as (-> & _).
    destruct (urls s !! code) as [r|]; simpl; [|done].
    unfold unexpired. destruct (expiresAt r <=? now)%Z eqn:Hexp; [done|].
    intros [= <-]. by apply Z.leb_gt. }
  split; [exact Hlive|]. unfold cleanupExpiredUrls at 1.
  rewrite cleanup_loop_nothing; [done|].
  apply Forall_forall. intros [k r] Hin%elem_of_map_to_list. simpl.
  apply Hlive in Hin. lia.
Qed.

Lemma sweep_leaves_nothing_to_sweep_witness :
  let s := (storeUrl 0 "gone" (UrlData.mk "https://a.example" 1 None)
              (newMemoryStore 0)).2 in
  (cleanupExpiredUrls 60000 (cleanupExpiredUrls 60000 s).2).1 = 0.
Proof.
  intros s.
  destruct (sweep_leaves_nothing_to_sweep 60000 60000 s) as [_ H];
    [lia|].
  by rewrite H.
Defined.

(** ** Invariants of the reachable stores, continued *)

Lemma reachable_logs_match s : reachable s -> logs_match s.
Proof.
  induction 1 as [now|s now code d _ IH|s now code _ IH|s now code m _ IH
                 |s now _ IH]; intros k.
  - simpl. by rewrite !lookup_empty.
  - simpl. destruct (decide (code = k)) as [->|Hne].
    + rewrite !lookup_insert_eq. split; by eexists.
    + rewrite !lookup_insert_ne by done. apply IH.
  - destruct (getUrl_frame now code s) as (-> & _ & _ & Hu).
    rewrite <- (IH k).
    destruct (Hu k) as [->|(r & _ & Hr & _ & ->)]; [done|].
    rewrite Hr. split; by eexists.
  - destruct (urls s !! code) as [r|] eqn:Hr;
      [|rewrite recordClick_unknown by done; apply IH].
    destruct (recordClick_known now code m s r Hr) as (_ & -> & -> & _).
    destruct (decide (code = k)) as [->|Hne].
    + rewrite !lookup_insert_eq. split; by eexists.
    + rewrite !lookup_insert_ne by done. apply IH.
  - destruct (cleanupExpiredUrls_spec now s) as (Hmaps & _).
    destruct (Hmaps k) as (-> & -> & _). specialize (IH k).
    destruct (urls s !! k) as [r|] eqn:Hr; simpl.
    + destruct (unexpired now r); [|split; by intros [? ?]].
      rewrite <- IH. split; by eexists.
    + done.
Qed.

(** X3: in every reachable store the shortcodes that have an event log
    are the shortcodes that have a record, so the two maps have the same
    size and [recordClick] always finds the log of the record it
    counts. *)
Theorem event_logs_match_records s :
  reachable s ->
  (forall code, is_Some (urls s !! code) <-> is_Some (analytics s !! code)) /\
  size (analytics s) = size (urls s).
Proof.
  intros Hs. pose proof (reachable_logs_match s Hs) as Hm.
  split; [exact Hm|].
  rewrite <- !(size_dom (D := gset string)). f_equal.
  apply set_eq. intros k. rewrite !elem_of_dom. symmetry. apply Hm.
Qed.

Lemma event_logs_match_records_witness :
  size (analytics stale_store) = size (urls stale_store).
Proof.
  exact (proj2 (event_logs_match_records stale_store stale_store_reachable)).
Defined.

Lemma reachable_keyed_by_shortcode s : reachable s -> keyed_by_shortcode s.
Proof.
  induction 1 as [now|s now code d _ [IHu IHc]|s now code _ [IHu IHc]
                 |s now code m _ [IHu IHc]|s now _ [IHu IHc]]; split.
  - intros code record. simpl. by rewrite lookup_empty.
  - intros code cached. discriminate.
  - intros k record. simpl. destruct (decide (code = k)) as [->|Hne].
    + rewrite lookup_insert_eq. by intros [= <-].
    + rewrite lookup_insert_ne by done. apply IHu.
  - exact IHc.
  - intros k record. destruct (getUrl_frame now code s) as (_ & _ & _ & Hu).
    destruct (Hu k) as [->|(r & -> & Hr & _ & ->)]; [apply IHu|].
    intros [= <-]. simpl. by apply IHu.
  - intros k cached [Hold|(-> & Hr & _)]%getUrl_cache; [by apply IHc|].
    by apply IHu.
  - intros k record. destruct (urls s !! code) as [r|] eqn:Hr;
      [|rewrite recordClick_unknown by done; apply IHu].
    destruct (recordClick_known now code m s r Hr) as (_ & -> & _).
    destruct (decide (code = k)) as [->|Hne].
    + rewrite lookup_insert_eq. intros [= <-]. simpl. by apply IHu.
    + rewrite lookup_insert_ne by done. apply IHu.
  - intros k cached. destruct (urls s !! code) as [r|] eqn:Hr;
      [|rewrite recordClick_unknown by done; apply IHc].
    destruct (recordClick_known now code m s r Hr) as (_ & _ & _ & -> & _).
    destruct (JSMap.has code (cache s)); [|apply IHc].
    destruct (decide (code = k)) as [->|Hne].
    + rewrite jsmap_get_set_eq. intros [= <-]. simpl. by apply IHu.
    + rewrite jsmap_get_set_ne by done. apply IHc.
  - intros k record. destruct (cleanupExpiredUrls_spec now s) as (Hmaps & _).
    destruct (Hmaps k) as (-> & _).
    destruct (urls s !! k) as [r|] eqn:Hr; simpl; [|done].
    unfold unexpired. destruct (expiresAt r <=? now)%Z; [done|].
    intros [= <-]. by apply IHu.
  - intros k cached. destruct (cleanupExpiredUrls_spec now s) as (Hmaps & _).
    destruct (Hmaps k) as (_ & _ & ->).
    destruct (urls s !! k ≫= unexpired now), (urls s !! k);
      try done; apply IHc.
Qed.

(** X4: whatever [getUrl] returns is live at the instant of the call, by
    its own expiry; in a reachable store it is a record of the shortcode
    that was asked for. *)
Theorem getUrl_returns_live_record now code s found :
  (getUrl now code s).1 = Some found ->
  (now < expiresAt found)%Z /\ (reachable s -> shortcode found = code).
Proof.
  intros Hfound.
  assert ((now < expiresAt found)%Z /\
          (JSMap.get code (cache s) = Some found \/
           urls s !! code = Some found)) as [Hlive Hfrom].
  { revert Hfound. unfold getUrl.
    assert (forall s0, (getUrl_record now code s0).1 = Some found ->
              (now < expiresAt found)%Z /\ urls s0 !! code = Some found)
      as Hrec.
    { intros s0. unfold getUrl_record.
      destruct (urls s0 !! code) as [r|]; simpl; [|done].
      destruct (expiresAt r <=? now)%Z eqn:Hexp; simpl; [done|].
      apply Z.leb_gt in Hexp.
      destruct (5 <? clickCount r); simpl; by intros [= <-]. }
    destruct (JSMap.get code (cache s)) as [c|] eqn:Hget.
    - destruct (now <? expiresAt c)%Z eqn:Hc; simpl.
      + intros [= <-]. apply Z.ltb_lt in Hc. auto.
      + intros [? ?]%Hrec. auto.
    - intros [? ?]%Hrec. auto. }
  split; [exact Hlive|]. intros Hs.
  destruct (reachable_keyed_by_shortcode s Hs) as [Hu Hc].
  destruct Hfrom; [by apply Hc|by apply Hu].
Qed.

Lemma getUrl_returns_live_record_witness :
  exists found,
    (getUrl 100000 "abc123" stale_store).1 = Some found /\
    (100000 < expiresAt found)%Z /\ shortcode found = "abc123".
Proof.
  eexists. split; [vm_compute; reflexivity|].
  destruct (getUrl_returns_live_record 100000 "abc123" stale_store _
              eq_refl) as [Hlive Hcode].
  split; [exact Hlive|]. apply Hcode, stale_store_reachable.
Defined.
(** ** Creation, reads and clicks together *)

(** X5: a record that was just stored is what [getUrl] returns until its
    expiry, when the cache holds no older snapshot under the shortcode:
    the record has the URL that was given and no click, and this read
    leaves the store as it was (a record without clicks is not cached). *)
Theorem storeUrl_then_getUrl now now' code urlData s :
  JSMap.get code (cache s) = None ->
  (now' < now + UrlData.expiresIn urlData * 60 * 1000)%Z ->
  let stored := storeUrl now code urlData s in
  getUrl now' code stored.2 = (Some stored.1, stored.2) /\
  originalUrl stored.1 = UrlData.url urlData /\
  clickCount stored.1 = 0 /\ isActive stored.1 = true.
Proof.
  intros Hmiss Hlive stored. split; [|done].
  unfold getUrl, getUrl_record. simpl. rewrite Hmiss, lookup_insert_eq.
  simpl. apply Z.leb_gt in Hlive. by rewrite Hlive.
Qed.

Lemma storeUrl_then_getUrl_witness :
  (originalUrl <$>
     (getUrl 5 "abc123"
        (storeUrl 0 "abc123" (UrlData.mk "https://a.example" 30 None)
           (newMemoryStore 0)).2).1) = Some "https://a.example".
Proof.
  destruct (storeUrl_then_getUrl 0 5 "abc123"
              (UrlData.mk "https://a.example" 30 None) (newMemoryStore 0))
    as [-> _]; [reflexivity | reflexivity | reflexivity].
Defined.

Lemma cleanup_loop_count_mono now entries : forall s n,
  n <= (cleanup_loop now entries s n).1.
Proof.
  induction entries as [|[k r] entries IH]; intros s n; simpl; [done|].
  destruct (expiresAt r <=? now)%Z; [|apply IH].
  etrans; [|apply IH]. lia.
Qed.

Lemma cleanup_loop_counts_expired now entries code record : forall s n,
  (code, record) ∈ entries -> (expiresAt record <= now)%Z ->
  n + 1 <= (cleanup_loop now entries s n).1.
Proof.
  induction entries as [|[k r] entries IH]; intros s n Hin Hexp; simpl.
  { by apply elem_of_nil in Hin. }
  apply elem_of_cons in Hin as [[= <- <-]|Hin].
  - apply Z.leb_le in Hexp. rewrite Hexp. apply cleanup_loop_count_mono.
  - destruct (expiresAt r <=? now)%Z.
    + etrans; [|by apply IH]. lia.
    + by apply IH.
Qed.



(** X7: a click on a cached shortcode refreshes its snapshot in place:
    after [recordClick] the snapshot of the shortcode, if there is one,
    is the stored record with its new click count, the keys of the cache
    and their order are unchanged, and the next [getUrl] before the
    expiry returns the record with the click counted. *)
Theorem recordClick_refreshes_snapshot now now' code metadata s record :
  urls s !! code = Some record ->
  let s' := (recordClick now code metadata s).2 in
  JSMap.keys (cache s') = JSMap.keys (cache s) /\
  (forall other, other <> code ->
     JSMap.get other (cache s') = JSMap.get other (cache s)) /\
  (forall cached, JSMap.get code (cache s') = Some cached ->
     cached = clicked now record /\ urls s' !! code = Some cached) /\
  ((now' < expiresAt record)%Z ->
   (getUrl now' code s').1 = Some (clicked now record)).
Proof.
  intros Hr s'. subst s'.
  destruct (recordClick_known now code metadata s record Hr)
    as (_ & Hu & _ & Hc & _).
  assert (urls (recordClick now code metadata s).2 !! code
          = Some (clicked now record)) as Hr'.
  { rewrite Hu. apply lookup_insert_eq. }
  assert (forall cached,
            JSMap.get code (cache (recordClick now code metadata s).2)
              = Some cached -> cached = clicked now record) as Hsnap.
  { intros cached. rewrite Hc. unfold JSMap.has.
    destruct (JSMap.get code (cache s)) eqn:Hget; [|congruence].
    rewrite jsmap_get_set_eq. congruence. }
  split; [|split; [|split]].
  - rewrite Hc. destruct (JSMap.has code (cache s)) eqn:Hhas; [|done].
    apply jsmap_set_old_keys. by apply jsmap_has_true.
  - intros other Hne. rewrite Hc.
    destruct (JSMap.has code (cache s)); [|done].
    by rewrite jsmap_get_set_ne.
  - intros cached Hget. apply Hsnap in Hget as ->. done.
  - intros Hlive. unfold getUrl.
    destruct (JSMap.get code (cache (recordClick now code metadata s).2))
      as [c|] eqn:Hget.
    + rewrite (Hsnap c eq_refl). simpl.
      apply Z.ltb_lt in Hlive. by rewrite Hlive.
    + unfold getUrl_record. rewrite Hr'. simpl.
      apply Z.leb_gt in Hlive. rewrite Hlive.
      by destruct (5 <? clickCount record + 1).
Qed.

Lemma recordClick_refreshes_snapshot_witness :
  let s := (getUrl 10 "abc123"
              (recordClicks "abc123" six_clicks
                 (storeUrl 0 "abc123"
                    (UrlData.mk "https://a.example" 60 None)
                    (newMemoryStore 0)).2)).2 in
  clickCount <$> (getUrl 12 "abc123"
                    (recordClick 11 "abc123" Metadata.none s).2).1 = Some 7.
Proof.
  intros s.
  edestruct (recordClick_refreshes_snapshot 11 12 "abc123" Metadata.none s)
    as (_ & _ & _ & ->); [vm_compute; reflexivity | vm_compute; reflexivity|].
  reflexivity.
Defined.

(** X8: the numbers [getStats] reports about a reachable store agree
    with one another: there are as many event logs as records, the cache
    holds no more entries than there are records and no more than 1000,
    and no more records are active than there are. *)
Theorem getStats_consistent now s :
  reachable s ->
  let st := getStats now s in
  StoreStats.memory_analytics st = StoreStats.memory_urls st /\
  StoreStats.totalUrls st = StoreStats.memory_urls st /\
  StoreStats.cacheSize st = StoreStats.memory_cache st /\
  StoreStats.memory_cache st <= StoreStats.memory_urls st /\
  StoreStats.memory_cache st <= 1000 /\
  StoreStats.activeUrls st <= StoreStats.totalUrls st.
Proof.
  intros Hs. simpl.
  destruct (reachable_cache_bounded s Hs) as (Hcap & Hnd & Hsz).
  pose proof (reachable_cache_included s Hs) as Hinc.
  pose proof (reachable_logs_match s Hs) as Hm.
  split; [|split; [done|split; [done|split; [|split; [lia|]]]]].
  - rewrite <- !(size_dom (D := gset string)). f_equal.
    apply set_eq. intros k. rewrite !elem_of_dom. symmetry. apply Hm.
  - rewrite <- (size_dom (D := gset string)).
    unfold JSMap.size. rewrite <- (length_fmap fst (cache s)).
    change (List.length (JSMap.keys (cache s)) <= size (dom (urls s))).
    rewrite <- (size_list_to_set (C := gset string)) by done.
    apply subseteq_size. intros k Hk%elem_of_list_to_set.
    apply elem_of_dom, Hinc. by apply jsmap_has_true.
  - etrans; [apply length_filter|].
    by rewrite length_fmap, length_map_to_list.
Qed.

Lemma getStats_consistent_witness :
  StoreStats.memory_cache (getStats 100000 stale_store)
    <= StoreStats.memory_urls (getStats 100000 stale_store).
Proof.
  exact (proj1 (proj2 (proj2 (proj2
           (getStats_consistent 100000 stale_store stale_store_reachable))))).
Defined.

(** * Further properties of the generator *)

(** ** Strings *)

Lemma substring_chars s : forall i n c,
  c ∈ chars_of (String.substring i n s) -> c ∈ chars_of s.
Proof.
  induction s as [|a s IH]; intros i n c.
  - by destruct i, n.
  - destruct i as [|i].
    + destruct n as [|n]; simpl; [by intros ?%elem_of_nil|].
      intros [->|Hc]%elem_of_cons; [by left|right; by eapply IH].
    + simpl. intros Hc. right. by eapply IH.
Qed.

Lemma substring_length s : forall i n,
  String.length (String.substring i n s) = n `min` (String.length s - i).
Proof.
  induction s as [|a s IH]; intros i n.
  - destruct i, n; simpl; lia.
  - destruct i as [|i].
    + destruct n as [|n]; simpl; [done|]. rewrite IH. lia.
    + simpl. by rewrite IH.
Qed.

Lemma chars_of_length s : List.length (chars_of s) = String.length s.
Proof. induction s as [|a s IH]; simpl; [done|]. by rewrite IH. Qed.

(** The two characters at an even place of a long enough string. *)
Lemma substring_pair s : forall i,
  i + 2 <= String.length s ->
  exists c1 c2, String.substring i 2 s = String c1 (String c2 "") /\
                c1 ∈ chars_of s /\ c2 ∈ chars_of s.
Proof.
  induction s as [|a s IH]; intros i Hi; simpl in Hi; [lia|].
  destruct i as [|i].
  - destruct s as [|b s]; simpl in Hi; [lia|].
    exists a, b. simpl. split; [by destruct s|].
    split; [by left|right; by left].
  - destruct (IH i ltac:(lia)) as (c1 & c2 & Hsub & H1 & H2).
    exists c1, c2. simpl. split; [done|]. split; by right.
Qed.

Lemma substring_beyond s : forall i n,
  String.length s <= i -> String.substring i n s = "".
Proof.
  induction s as [|a s IH]; intros i n Hi.
  - by destruct i, n.
  - destruct i as [|i]; simpl in *; [lia|]. apply IH. lia.
Qed.

Lemma isValid_spec s :
  isValid (Some s) = true <->
  3 <= String.length s <= 20 /\ Forall (fun c => isCodeChar c = true)
                                  (chars_of s).
Proof.
  unfold isValid. destruct (decide (s = "")) as [->|Hne].
  { split; [done|]. simpl. lia. }
  destruct (String.length s <? 3) eqn:H3; simpl.
  { apply Nat.ltb_lt in H3. split; [done|lia]. }
  destruct (20 <? String.length s) eqn:H20.
  { apply Nat.ltb_lt in H20. split; [done|lia]. }
  apply Nat.ltb_ge in H3, H20.
  rewrite forallb_forall, Forall_forall.
  split.
  - intros H. split; [lia|]. intros c Hc. by apply H, list_elem_of_In.
  - intros [_ H] c Hc. by apply H, list_elem_of_In.
Qed.

Lemma charset_code_chars c :
  c ∈ chars_of charset -> isCodeChar c = true.
Proof.
  assert (forallb isCodeChar (chars_of charset) = true) as H
    by (by vm_compute).
  rewrite forallb_forall in H. intros Hc. by apply H, list_elem_of_In.
Qed.

Lemma readableCharset_code_chars c :
  c ∈ chars_of readableCharset -> isCodeChar c = true.
Proof.
  assert (forallb isCodeChar (chars_of readableCharset) = true) as H
    by (by vm_compute).
  rewrite forallb_forall in H. intros Hc. by apply H, list_elem_of_In.
Qed.

(** X9: the random strategy gives a code of the length asked for, made
    of characters of the chosen set; [isValid] accepts it exactly when
    the length is between 3 and 20. *)
Theorem random_codes_valid random length readable g :
  let code := (generateRandom random length readable g).1 in
  String.length code = length /\
  (isValid (Some code) = true <-> 3 <= length <= 20).
Proof.
  destruct (generateRandom_spec random length readable g) as [Hlen Hchars].
  split; [exact Hlen|]. rewrite isValid_spec, Hlen.
  split; [by intros [? _]|]. intros Hrange. split; [done|].
  eapply Forall_impl; [exact Hchars|]. intros c Hc.
  destruct readable;
    [by apply readableCharset_code_chars | by apply charset_code_chars].
Qed.
(** ** The sequential strategy *)

Lemma digit36_char d :
  d < 36 -> exists c, digit36 d = String c "" /\ isCodeChar c = true.
Proof.
  intros Hd. unfold digit36, charAt.
  destruct (string_get_Some d "0123456789abcdefghijklmnopqrstuvwxyz")
    as (c & -> & Hc); [simpl; lia|].
  exists c. split; [done|].
  assert (forallb isCodeChar
            (chars_of "0123456789abcdefghijklmnopqrstuvwxyz") = true) as H
    by (by vm_compute).
  rewrite forallb_forall in H. by apply H, list_elem_of_In.
Qed.

Lemma toString36_N_chars fuel : forall n acc,
  Forall (fun c => isCodeChar c = true) (chars_of acc) ->
  Forall (fun c => isCodeChar c = true) (chars_of (toString36_N fuel n acc)).
Proof.
  induction fuel as [|fuel IH]; intros n acc Hacc; simpl; [done|].
  destruct (digit36_char (N.to_nat (n mod 36))) as (c & -> & Hc).
  { pose proof (N.mod_upper_bound n 36). lia. }
  assert (Forall (fun c => isCodeChar c = true)
            (chars_of (String c "" +:+ acc))) as Hacc'.
  { simpl. by apply Forall_cons. }
  destruct (n <? 36)%N; [done|]. by apply IH.
Qed.

Lemma toString36_chars z :
  Forall (fun c => isCodeChar c = true) (chars_of (toString36 z)).
Proof.
  unfold toString36. cbv zeta. destruct (z <? 0)%Z.
  - rewrite chars_of_append. apply Forall_app. split.
    + by repeat constructor.
    + apply toString36_N_chars. constructor.
  - apply toString36_N_chars. constructor.
Qed.

Lemma slice_last_spec n s :
  (1 <= n -> String.length (slice_last n s) = n `min` String.length s) /\
  (n = 0 -> slice_last n s = s) /\
  forall c, c ∈ chars_of (slice_last n s) -> c ∈ chars_of s.
Proof.
  unfold slice_last. destruct (n =? 0) eqn:Hn.
  - apply Nat.eqb_eq in Hn. split; [lia|]. done.
  - apply Nat.eqb_neq in Hn. split; [|split; [done|]].
    + intros _. rewrite substring_length. lia.
    + intros c. apply substring_chars.
Qed.

Lemma pad_loop_spec random fuel length : forall result g,
  String.length result <= length ->
  length - String.length result <= fuel ->
  Forall (fun c => isCodeChar c = true) (chars_of result) ->
  let padded := (pad_loop random fuel length result g).1 in
  String.length padded = length /\
  Forall (fun c => isCodeChar c = true) (chars_of padded).
Proof.
  induction fuel as [|fuel IH]; intros result g Hle Hfuel Hchars;
    cbn [pad_loop].
  { split; [simpl; lia|done]. }
  destruct (String.length result <? length) eqn:Hlt.
  - apply Nat.ltb_lt in Hlt.
    destruct (string_get_Some
                (floor_scale (random (randomCalls g)) (String.length charset))
                charset) as (c & Hget & Hc).
    { apply floor_scale_lt. simpl. lia. }
    unfold randomIndex, index_text. rewrite Hget.
    apply IH; [rewrite string_length_append; simpl; lia
              | rewrite string_length_append; simpl; lia |].
    rewrite chars_of_append. apply Forall_app. split; [|done].
    apply Forall_cons. split; [by apply charset_code_chars|constructor].
  - apply Nat.ltb_ge in Hlt. split; [simpl; lia|done].
Qed.

Lemma pad_loop_generator random fuel length : forall result g,
  counter (pad_loop random fuel length result g).2 = counter g /\
  nowCalls (pad_loop random fuel length result g).2 = nowCalls g.
Proof.
  induction fuel as [|fuel IH]; intros result g; cbn [pad_loop]; [done|].
  destruct (String.length result <? length); [|done].
  unfold randomIndex. cbv beta iota zeta.
  destruct (IH (index_text
                  (Some (floor_scale (random (randomCalls g))
                           (String.length charset))) charset +:+ result)
              (mkGenerator (counter g) (S (randomCalls g)) (nowCalls g)))
    as [-> ->].
  done.
Qed.

(** X10: the sequential strategy advances the counter modulo 10000 and
    reads the clock once. For a length of at least 1 its code has exactly
    that many characters, all of the class [[a-zA-Z0-9_-]], so [isValid]
    accepts it exactly when the length is between 3 and 20; for length 0
    the code is not empty but the whole of the timestamp and the counter
    in base 36. *)
Theorem sequential_codes random dateNow length g :
  let code := (generateSequential random dateNow length g).1 in
  let g' := (generateSequential random dateNow length g).2 in
  let counter' := (counter g + 1) mod 10000 in
  counter g' = counter' /\ counter g' < 10000 /\
  nowCalls g' = S (nowCalls g) /\
  Forall (fun c => isCodeChar c = true) (chars_of code) /\
  (1 <= length ->
     String.length code = length /\
     (isValid (Some code) = true <-> 3 <= length <= 20)) /\
  (length = 0 ->
     code = toString36 (dateNow (nowCalls g))
            +:+ toString36 (Z.of_nat counter')).
Proof.
  unfold generateSequential.
  set (counter' := (counter g + 1) mod 10000).
  set (combined := toString36 (dateNow (nowCalls g))
                   +:+ toString36 (Z.of_nat counter')).
  set (g1 := mkGenerator counter' (randomCalls g) (S (nowCalls g))).
  destruct (slice_last_spec length combined) as (Hlen & Hzero & Hsub).
  assert (Forall (fun c => isCodeChar c = true) (chars_of combined)) as Hcomb.
  { unfold combined. rewrite chars_of_append. apply Forall_app.
    split; apply toString36_chars. }
  assert (Forall (fun c => isCodeChar c = true)
            (chars_of (slice_last length combined))) as Hslice.
  { apply Forall_forall. intros c Hc%Hsub.
    by eapply Forall_forall in Hcomb. }
  assert (counter' < 10000) as Hcounter.
  { apply Nat.mod_upper_bound. intros H. vm_compute in H. discriminate H. }
  destruct length as [|n].
  - simpl. rewrite Hzero by done.
    do 3 (split; [done|]). split; [done|]. split; [lia|done].
  - destruct (pad_loop_spec random (S n) (S n) (slice_last (S n) combined)
                g1) as [Hpad Hchars]; [rewrite Hlen; lia.. | done |].
    destruct (pad_loop_generator random (S n) (S n)
                (slice_last (S n) combined) g1) as [-> ->].
    unfold g1 at 1 2 3. cbn [counter nowCalls].
    do 3 (split; [done|]). split; [exact Hchars|]. split; [|done].
    intros _. split; [exact Hpad|].
    rewrite isValid_spec, Hpad. split; [by intros [? _]|]. by intros ?.
Qed.

(** ** The strategy derived from the URL *)

Lemma string_app_assoc (a b c : string) : (a +:+ b) +:+ c = a +:+ (b +:+ c).
Proof.
  induction a as [|x a IH]; [done|].
  change (String x ((a +:+ b) +:+ c) = String x (a +:+ (b +:+ c))).
  by rewrite IH.
Qed.

Lemma string_app_empty_r (a : string) : a +:+ "" = a.
Proof.
  induction a as [|x a IH]; [done|].
  change (String x (a +:+ "") = String x a). by rewrite IH.
Qed.

Lemma undefineds_length k : String.length (undefineds k) = 9 * k.
Proof.
  induction k as [|k IH]; [done|].
  change (undefineds (S k)) with ("undefined" +:+ undefineds k).
  rewrite string_length_append, IH. simpl. lia.
Qed.

Lemma generateFromUrl_loop_split hash n : forall m i result,
  generateFromUrl_loop hash i (n + m) result =
  generateFromUrl_loop hash (i + n) m (generateFromUrl_loop hash i n result).
Proof.
  induction n as [|n IH]; intros m i result;
    cbn [Nat.add generateFromUrl_loop].
  - by rewrite Nat.add_0_r.
  - rewrite IH. by replace (i + S n) with (S i + n) by lia.
Qed.

(** Within the digest every turn adds one character of the alphabet. *)
Lemma generateFromUrl_loop_inside hash n : forall i result,
  hex_digest hash -> i + n <= 16 ->
  let code := generateFromUrl_loop hash i n result in
  String.length code = String.length result + n /\
  forall c, c ∈ chars_of code -> c ∈ chars_of result \/ c ∈ chars_of charset.
Proof.
  induction n as [|n IH]; intros i result [Hlen Hhex] Hin;
    cbn [generateFromUrl_loop].
  { split; [lia|auto]. }
  destruct (substring_pair hash (i * 2) ltac:(lia))
    as (c1 & c2 & -> & H1 & H2).
  pose proof Hhex as Hhex'. rewrite Forall_forall in Hhex'.
  destruct (Hhex' c1 H1) as [d1 Hd1]. destruct (Hhex' c2 H2) as [d2 Hd2].
  unfold parseInt16. cbn [parseHex_from]. rewrite Hd1, Hd2.
  cbn [fmap option_fmap option_map index_text].
  destruct (string_get_Some
              ((16 * default 0 (Some (16 * default 0 None + d1)) + d2)
                 mod String.length charset) charset)
    as (c & Hget & Hc).
  { apply Nat.mod_upper_bound. by vm_compute. }
  rewrite Hget.
  edestruct (IH (S i) (result +:+ String c "")) as [Hl Hch];
    [done | lia |].
  split.
  - rewrite Hl, string_length_append. simpl. lia.
  - intros x Hx. apply Hch in Hx as [Hx|Hx]; [|by right].
    rewrite chars_of_append in Hx. apply elem_of_app in Hx as [Hx|Hx];
      [by left|right].
    simpl in Hx. apply list_elem_of_singleton in Hx. by subst.
Qed.

(** Beyond the digest every turn adds the text of [undefined]. *)
Lemma generateFromUrl_loop_beyond hash n : forall i result,
  String.length hash = 32 -> 16 <= i ->
  generateFromUrl_loop hash i n result = result +:+ undefineds n.
Proof.
  induction n as [|n IH]; intros i result Hlen Hi;
    cbn [generateFromUrl_loop undefineds].
  { by rewrite string_app_empty_r. }
  rewrite substring_beyond by lia.
  change (index_text _ charset) with "undefined".
  rewrite IH by (done || lia). by rewrite string_app_assoc.
Qed.

(** X11: the code derived from a URL takes one character per byte of the
    digest, which has 16 bytes. Up to length 16 the code has the length
    asked for and only alphanumeric characters; each character asked for
    beyond 16 adds the nine letters of "undefined" instead. So [isValid]
    accepts the code exactly when the length is between 3 and 16. *)
Theorem url_codes md5hex url :
  hex_digest (md5hex url) ->
  (forall length, length <= 16 ->
     String.length (generateFromUrl md5hex url length) = length /\
     Forall (fun c => c ∈ chars_of charset)
       (chars_of (generateFromUrl md5hex url length))) /\
  (forall k,
     generateFromUrl md5hex url (16 + k) =
     generateFromUrl md5hex url 16 +:+ undefineds k) /\
  (forall length,
     isValid (Some (generateFromUrl md5hex url length)) = true <->
     3 <= length <= 16).
Proof.
  intros Hhex.
  assert (forall length, length <= 16 ->
     String.length (generateFromUrl md5hex url length) = length /\
     Forall (fun c => c ∈ chars_of charset)
       (chars_of (generateFromUrl md5hex url length))) as Hin.
  { intros length Hle. unfold generateFromUrl.
    destruct (generateFromUrl_loop_inside (md5hex url) length 0 "" Hhex)
      as [Hlen Hchars]; [lia|].
    split; [exact Hlen|]. apply Forall_forall. intros c Hc.
    apply Hchars in Hc as [Hc|Hc]; [by apply elem_of_nil in Hc|done]. }
  assert (forall k,
     generateFromUrl md5hex url (16 + k) =
     generateFromUrl md5hex url 16 +:+ undefineds k) as Hout.
  { intros k. unfold generateFromUrl.
    rewrite generateFromUrl_loop_split.
    apply generateFromUrl_loop_beyond; [apply Hhex|lia]. }
  split; [exact Hin|]. split; [exact Hout|].
  intros length. rewrite isValid_spec.
  destruct (decide (length <= 16)) as [Hle|Hgt].
  - destruct (Hin length Hle) as [Hlen Hchars]. rewrite Hlen.
    split; [intros [? _]; lia|]. intros ?. split; [lia|].
    eapply Forall_impl; [exact Hchars|]. apply charset_code_chars.
  - assert (exists k, length = 16 + k /\ 1 <= k) as (k & -> & Hk).
    { exists (length - 16). lia. }
    rewrite Hout, string_length_append, undefineds_length.
    destruct (Hin 16 ltac:(lia)) as [-> _].
    split; [intros [? _]; lia|lia].
Qed.

Lemma url_codes_witness :
  let md5hex := fun _ : string => "d41d8cd98f00b204e9800998ecf8427e" in
  generateFromUrl md5hex "https://a.example" 17 =
  generateFromUrl md5hex "https://a.example" 16 +:+ "undefined".
Proof.
  intros md5hex.
  assert (hex_digest (md5hex "https://a.example")) as Hhex.
  { split; [reflexivity|]. apply (bool_decide_unpack _). by vm_compute. }
  exact (proj1 (proj2 (url_codes md5hex "https://a.example" Hhex)) 1).
Defined.

(** ** What [generate] returns *)

Section GenerateBounds.
Variable random : nat -> unit_draw.
Variable dateNow : nat -> Z.
Variable md5hex : string -> string.
Context {C : Type}.
Variable options : Options.t.

Lemma candidate_throws g :
  url_missing options ->
  candidate random dateNow md5hex options g =
    Thrown (Error "URL required for url-based strategy").
Proof.
  intros [Hs Hu]. unfold candidate. rewrite decide_True by done.
  destruct Hu as [->| ->]; [done|]. by rewrite decide_True.
Qed.

Lemma candidate_returns g :
  ~ url_missing options ->
  exists code g', candidate random dateNow md5hex options g
                  = Returned (code, g').
Proof.
  intros Hno. unfold candidate.
  destruct (decide (Options.strategy options = "url-based")) as [Hs|Hs].
  - destruct (Options.url options) as [u|] eqn:Hu.
    + destruct (decide (u = "")) as [->|Hne]; [|by eexists _, _].
      exfalso. apply Hno. split; auto.
    + exfalso. apply Hno. split; auto.
  - destruct (decide (Options.strategy options = "sequential")).
    + destruct (generateSequential random dateNow _ g). by eexists _, _.
    + destruct (generateRandom random _ _ g). by eexists _, _.
Qed.

Lemma generate_loop_returns (cb : option (string -> C -> bool * C)) fuel :
  forall attempts g c,
    ~ url_missing options ->
    Options.maxAttempts options - attempts < fuel ->
    exists r, generate_loop random dateNow md5hex fuel options cb
                attempts g c = Returned r.
Proof.
  induction fuel as [|fuel IH]; intros attempts g c Hno Hfuel; [lia|].
  cbn [generate_loop].
  destruct (candidate_returns g Hno) as (code & g1 & ->).
  destruct cb as [f|]; [|by eexists].
  destruct (f code c) as [b c1]. destruct b; cbn [negb]; [|by eexists].
  destruct (Options.maxAttempts options <=? attempts + 1) eqn:Hmax.
  { destruct (generateRandom random _ _ g1). by eexists. }
  apply Nat.leb_gt in Hmax.
  destruct (attempts + 1 <? Options.maxAttempts options); [|by eexists].
  apply IH; [done|lia].
Qed.

(** The loop never takes more turns than [maxAttempts] allows. *)
Lemma generate_loop_attempts_le (callback : string -> C -> bool * C) fuel :
  forall attempts g c r,
    generate_loop random dateNow md5hex fuel options (Some callback)
      attempts g c = Returned r ->
    attempts_of r <= (attempts + 1) `max` Options.maxAttempts options.
Proof.
  induction fuel as [|fuel IH]; intros attempts g c r; cbn [generate_loop];
    [done|].
  destruct (candidate random dateNow md5hex options g)
    as [[shortcode g1]|e|]; try done.
  destruct (callback shortcode c) as [b c1]. destruct b; cbn [negb].
  - destruct (Options.maxAttempts options <=? attempts + 1) eqn:Hmax.
    { destruct (generateRandom random _ _ g1). intros [= <-]. simpl. lia. }
    apply Nat.leb_gt in Hmax.
    destruct (attempts + 1 <? Options.maxAttempts options).
    + intros H%IH. lia.
    + intros [= <-]. simpl. lia.
  - intros [= <-]. simpl. lia.
Qed.

(** With a callback that only reads its state, the code returned is a
    candidate that the callback found free, or the longer random code
    drawn after [maxAttempts] collisions. *)
Lemma generate_loop_reading (p : string -> C -> bool) fuel :
  forall attempts g c r,
    generate_loop random dateNow md5hex fuel options (Some (reading p))
      attempts g c = Returned r ->
    callback_of r = c /\
    ((exists g0, candidate random dateNow md5hex options g0
                 = Returned (code_of r, generator_of r)) /\
     p (code_of r) c = false \/
     (exists g1, generateRandom random (Options.length options + 2)
                   (Options.readable options) g1
                 = (code_of r, generator_of r)) /\
     Options.maxAttempts options <= attempts_of r).
Proof.
  induction fuel as [|fuel IH]; intros attempts g c r; cbn [generate_loop];
    [done|].
  destruct (candidate random dateNow md5hex options g)
    as [[shortcode g1]|e|] eqn:Hcand; try done.
  unfold reading at 1. destruct (p shortcode c) eqn:Hp; cbn [negb].
  - destruct (Options.maxAttempts options <=? attempts + 1) eqn:Hmax.
    { apply Nat.leb_le in Hmax.
      destruct (generateRandom random _ _ g1) as [longer g2] eqn:Hlong.
      intros [= <-]. simpl. split; [done|]. right. split; [|lia].
      by exists g1. }
    apply Nat.leb_gt in Hmax.
    destruct (attempts + 1 <? Options.maxAttempts options) eqn:Hlt.
    + apply IH.
    + apply Nat.ltb_ge in Hlt. lia.
  - intros [= <-]. simpl. split; [done|]. left. split; [|done].
    by exists g.
Qed.
End GenerateBounds.

(** ** What keeps a shortcode bound to its record *)

Lemma keeps_same_record code r r' op :
  same_record r r' -> keeps code r op -> keeps code r' op.
Proof.
  intros (_ & _ & _ & _ & Hexp). destruct op; simpl; auto. by rewrite Hexp.
Qed.

(** A create request that succeeds has stored its record under the
    shortcode of the request, which was free, or under the code that
    [generate] returned. *)
Lemma createUrl_code random dateNow md5hex now body g s r g' s' :
  createUrl random dateNow md5hex now body g s = Returned (r, g', s') ->
  exists code,
    s' = (storeUrl now code
            (UrlData.mk (body_url body) (body_expiresIn body)
               (body_description body)) s).2 /\
    (body_shortcode body = Some code /\ code <> "" /\
     exists_ code s = false \/
     (body_shortcode body = None \/ body_shortcode body = Some "") /\
     exists gen,
       generate random dateNow md5hex
         (Options.mk 6 "sequential" (Some (body_url body)) true 10)
         (Some storeExists) g s = Returned gen /\
       code = code_of gen).
Proof.
  unfold createUrl.
  destruct (generate random dateNow md5hex _ (Some storeExists) g s)
    as [gen|e|] eqn:Hgen;
    destruct (body_shortcode body) as [custom|];
    repeat case_decide; try destruct (exists_ custom s) eqn:Hex;
    simpl; intros [= <- <- <-]; eexists; (split; [reflexivity|]);
    first [ by left
          | right; subst; split; [by auto|]; by eexists ].
Qed.

(** The code that [generate] returns to the create handler is not a
    shortcode of the store, unless it is the unchecked fallback code. *)
Lemma generated_code_elsewhere random dateNow md5hex url g s gen code :
  generate random dateNow md5hex (Options.mk 6 "sequential" url true 10)
    (Some storeExists) g s = Returned gen ->
  is_Some (urls s !! code) -> ~ fallback_shaped code ->
  code_of gen <> code.
Proof.
  intros Hgen Hcode Hshape Heq.
  destruct (generate_loop_reading random dateNow md5hex _ exists_ _ 0 g s
              gen Hgen) as [_ [[_ Hfree]|[[g1 Hlong] _]]].
  - rewrite Heq in Hfree. apply bool_decide_eq_false in Hfree. by apply Hfree.
  - apply Hshape.
    destruct (generateRandom_spec random 8 true g1) as [Hlen Hchars].
    cbn [Options.length Options.readable] in Hlong.
    change (6 + 2) with 8 in Hlong.
    rewrite Hlong, Heq in Hlen, Hchars. by split.
Qed.

(** One operation that keeps the record leaves the shortcode bound to
    it. *)
Lemma step_keeps random dateNow md5hex op st code record :
  urls st.2 !! code = Some record -> keeps code record op ->
  exists record',
    urls (step random dateNow md5hex op st).2 !! code = Some record' /\
    same_record record record'.
Proof.
  destruct st as [g s]. simpl. intros Hr Hop.
  destruct op as [now body|now k|now k m|now]; cbn [step fst snd keeps] in *.
  - exists record. split; [|apply same_record_refl].
    destruct (createUrl random dateNow md5hex now body g s)
      as [[[r g'] s']|e|] eqn:Hcreate; cbn [snd]; [|done..].
    apply createUrl_code in Hcreate as (c & -> & Hc).
    assert (c <> code) as Hne.
    { destruct Hc as [(_ & _ & Hfree)|([Hnone|Hnone] & gen & Hgen & ->)].
      - intros ->. apply bool_decide_eq_false in Hfree. apply Hfree.
        by eexists.
      - destruct Hop as [(custom & Hcustom & _)|Hshape]; [congruence|].
        eapply generated_code_elsewhere; [exact Hgen|by eexists|done].
      - destruct Hop as [(custom & Hcustom & Hne)|Hshape]; [congruence|].
        eapply generated_code_elsewhere; [exact Hgen|by eexists|done]. }
    simpl. by rewrite lookup_insert_ne.
  - destruct (getUrl_frame now k s) as (_ & _ & _ & Hu).
    destruct (Hu code) as [->|(r' & _ & Hr' & _ & ->)].
    + exists record. auto using same_record_refl.
    + exists (deactivate r'). split; [done|].
      assert (r' = record) as -> by congruence. by repeat split.
  - destruct (urls s !! k) as [r|] eqn:Hk.
    + destruct (recordClick_known now k m s r Hk) as (_ & -> & _).
      destruct (decide (k = code)) as [->|Hne].
      * rewrite lookup_insert_eq. exists (clicked now r).
        split; [done|]. assert (r = record) as -> by congruence.
        by repeat split.
      * rewrite lookup_insert_ne by done. exists record.
        auto using same_record_refl.
    + rewrite recordClick_unknown by done. exists record.
      auto using same_record_refl.
  - destruct (cleanupExpiredUrls_spec now s) as (Hmaps & _).
    destruct (Hmaps code) as (-> & _). rewrite Hr. simpl.
    unfold unexpired. apply Z.leb_gt in Hop. rewrite Hop.
    exists record. auto using same_record_refl.
Qed.

Lemma run_keeps random dateNow md5hex ops : forall st code record,
  urls st.2 !! code = Some record ->
  Forall (keeps code record) ops ->
  exists record',
    urls (run random dateNow md5hex ops st).2 !! code = Some record' /\
    same_record record record'.
Proof.
  induction ops as [|op ops IH]; intros st code record Hr Hops; simpl.
  - exists record. auto using same_record_refl.
  - apply Forall_cons in Hops as [Hop Hops].
    destruct (step_keeps random dateNow md5hex op st code record Hr Hop)
      as (r1 & Hr1 & Hsame1).
    destruct (IH (step random dateNow md5hex op st) code r1 Hr1)
      as (r2 & Hr2 & Hsame2).
    + eapply Forall_impl; [exact Hops|]. intros op'.
      by apply keeps_same_record.
    + exists r2. split; [exact Hr2|]. by eapply same_record_trans.
Qed.

(** The unchecked fallback is what the condition on create requests
    without a shortcode is for: the last request of [stale_run] finds its
    ten candidates taken and stores its record under "aaaaaaaa", over the
    record that the shortcode was bound to. *)
Lemma fallback_rebinds_shortcode :
  let run_ := run (fun _ => mkDraw 0 0) (fun _ => 1730000000000%Z)
                (fun _ => "") in
  let before := run_ (removelast stale_run)
                  (mkGenerator 5 0 0, newMemoryStore 0) in
  let after :=
    run_ [OpCreate 20 (mkCreateBody "https://b.example" None 1 None)]
      before in
  originalUrl <$> urls before.2 !! "aaaaaaaa" = Some "https://a.example" /\
  originalUrl <$> urls after.2 !! "aaaaaaaa" = Some "https://b.example" /\
  fallback_shaped "aaaaaaaa".
Proof.
  intros run_ before after.
  split; [by vm_compute|]. split; [by vm_compute|].
  split; [reflexivity|]. apply (bool_decide_unpack _). by vm_compute.
Qed.

(** C2, amended: a shortcode stays bound to its record as long as the
    record is in the store. Through any sequence of reads, clicks, sweeps
    that come before the expiry of the record and create requests (those
    that supply a shortcode, and those that supply none unless the
    shortcode has the shape of the unchecked fallback code of the
    generator) the shortcode is bound to a record with the same
    shortcode, URL, description, creation and expiry, and a create
    request that supplies the shortcode is refused. A sweep at or after
    the expiry deletes the record; then the shortcode is free again, and
    a later create request that supplies it is accepted and binds it to
    the record of that request. *)
Theorem shortcode_bound_until_swept random dateNow md5hex ops :
  forall st code record,
    urls st.2 !! code = Some record ->
    Forall (keeps code record) ops ->
    let st' := run random dateNow md5hex ops st in
    exists record',
      urls st'.2 !! code = Some record' /\
      same_record record record' /\
      (forall now body g,
         body_shortcode body = Some code -> code <> "" ->
         createUrl random dateNow md5hex now body g st'.2
           = Thrown (ConflictError
                       ("Shortcode '" +:+ code +:+ "' is already taken"))) /\
      (forall now, (expiresAt record <= now)%Z ->
         let swept := (cleanupExpiredUrls now st'.2).2 in
         urls swept !! code = None /\
         exists_ code swept = false /\
         forall now' body g,
           body_shortcode body = Some code -> code <> "" ->
           exists new s',
             createUrl random dateNow md5hex now' body g swept
               = Returned (new, g, s') /\
             urls s' !! code = Some new /\
             originalUrl new = body_url body /\
             createdAt new = now' /\
             clickCount new = 0).
Proof.
  intros st code record Hr Hops st'.
  destruct (run_keeps random dateNow md5hex ops st code record Hr Hops)
    as (record' & Hr' & Hsame).
  fold st' in Hr'. exists record'. split; [exact Hr'|].
  split; [exact Hsame|]. split.
  - intros now body g Hbody Hne. unfold createUrl.
    rewrite Hbody, decide_False by done.
    assert (exists_ code st'.2 = true) as ->; [|done].
    apply bool_decide_eq_true. by eexists.
  - intros now Hexp swept.
    assert (urls swept !! code = None) as Hfree.
    { destruct (cleanupExpiredUrls_spec now st'.2) as (Hmaps & _).
      destruct (Hmaps code) as (Hu & _). unfold swept. rewrite Hu, Hr'.
      simpl. unfold unexpired.
      destruct Hsame as (_ & _ & _ & _ & <-).
      apply Z.leb_le in Hexp. by rewrite Hexp. }
    assert (exists_ code swept = false) as Hex.
    { apply bool_decide_eq_false. rewrite Hfree. by intros [? ?]. }
    split; [exact Hfree|]. split; [exact Hex|].
    intros now' body g Hbody Hne.
    eexists _, _. split.
    + unfold createUrl. rewrite Hbody, decide_False by done.
      rewrite Hex. cbn [storeUrl]. reflexivity.
    + split; [apply lookup_insert_eq|done].
Qed.

Lemma shortcode_bound_until_swept_witness :
  let taken := mkCreateBody "https://b.example" (Some "abc123") 30 None in
  let other := mkCreateBody "https://c.example" None 30 None in
  let st := (mkGenerator 0 0 0,
             (storeUrl 0 "abc123" (UrlData.mk "https://a.example" 1 None)
                (newMemoryStore 0)).2) in
  exists record',
    urls (run (fun _ => mkDraw 0 0) (fun _ => 0%Z) (fun _ => "")
            [OpGetUrl 5 "abc123"; OpRecordClick 6 "abc123" Metadata.none;
             OpCleanup 7; OpCreate 8 taken; OpCreate 9 other] st).2
      !! "abc123" = Some record' /\
    originalUrl record' = "https://a.example".
Proof.
  intros taken other st.
  edestruct (shortcode_bound_until_swept (fun _ => mkDraw 0 0)
               (fun _ => 0%Z) (fun _ => "")
               [OpGetUrl 5 "abc123"; OpRecordClick 6 "abc123" Metadata.none;
                OpCleanup 7; OpCreate 8 taken; OpCreate 9 other]
               st "abc123")
    as (record' & Hr & Hsame & _).
  - reflexivity.
  - repeat (apply Forall_cons; split); [exact I | exact I | reflexivity | | |].
    + left. exists "abc123". split; [reflexivity|discriminate].
    + right. intros [Hlen _]. discriminate Hlen.
    + apply Forall_nil_2.
  - exists record'. split; [exact Hr|]. by destruct Hsame as (_ & <- & _).
Defined.


(** X12: [generate] calls the existence callback once per attempt and
    makes at most [maxAttempts] attempts (one when [maxAttempts] is 0).
    When the callback only reads its state, the code returned either was
    checked and found free, or is the longer random code, of
    [length + 2] characters, that is returned unchecked after
    [maxAttempts] collisions. *)
Theorem generate_checks_what_it_returns random dateNow md5hex {C : Type}
    options g (c : C) :
  (forall (callback : string -> C -> bool * C) r,
     generate random dateNow md5hex options (Some (counting callback)) g
       (0, c) = Returned r ->
     (callback_of r).1 = attempts_of r /\
     1 <= attempts_of r <= 1 `max` Options.maxAttempts options) /\
  (forall (p : string -> C -> bool) r,
     generate random dateNow md5hex options (Some (reading p)) g c
       = Returned r ->
     callback_of r = c /\
     (p (code_of r) c = false \/
      Options.maxAttempts options <= attempts_of r /\
      String.length (code_of r) = Options.length options + 2)).
Proof.
  split.
  - intros callback r. unfold generate.
    rewrite generate_loop_counting.
    destruct (generate_loop random dateNow md5hex _ options (Some callback)
                0 g c) as [r0|e|] eqn:Hloop; try done.
    intros [= <-]. simpl.
    pose proof (generate_loop_attempts random dateNow md5hex options
                  callback _ 0 g c r0 Hloop).
    pose proof (generate_loop_attempts_le random dateNow md5hex options
                  callback _ 0 g c r0 Hloop).
    simpl in *. lia.
  - intros p r Hgen.
    destruct (generate_loop_reading random dateNow md5hex options p _ 0 g c
                r Hgen) as [Hc [[_ Hfree]|[[g1 Hlong] Hmax]]].
    + auto.
    + split; [done|]. right. split; [done|].
      destruct (generateRandom_spec random (Options.length options + 2)
                  (Options.readable options) g1) as [Hlen _].
      by rewrite Hlong in Hlen.
Qed.

Lemma generate_checks_what_it_returns_witness :
  let random := fun k => mkDraw (k * 7) 30 in
  let dateNow := fun k => (1730000000000 + Z.of_nat k)%Z in
  let md5hex := fun _ : string => "d41d8cd98f00b204e9800998ecf8427e" in
  let options := Options.mk 6 "sequential" None true 3 in
  let p := fun (code : string) (taken : list string) =>
             bool_decide (code ∈ taken) in
  exists r,
    generate random dateNow md5hex options (Some (reading p))
      (mkGenerator 5 0 0) ["1bz7k6"; "1bz7l7"] = Returned r /\
    code_of r = "1bz7m8" /\
    (p (code_of r) ["1bz7k6"; "1bz7l7"] = false \/
     3 <= attempts_of r /\ String.length (code_of r) = 8).
Proof.
  intros random dateNow md5hex options p.
  assert (generate random dateNow md5hex options (Some (reading p))
            (mkGenerator 5 0 0) ["1bz7k6"; "1bz7l7"] =
          Returned {| code_of := "1bz7m8"; attempts_of := 3;
                      generator_of := mkGenerator 8 0 3;
                      callback_of := ["1bz7k6"; "1bz7l7"] |}) as Hgen.
  { vm_compute. reflexivity. }
  eexists. split; [exact Hgen|]. split; [reflexivity|].
  exact (proj2 (proj2 (generate_checks_what_it_returns random dateNow md5hex
                         options (mkGenerator 5 0 0)
                         ["1bz7k6"; "1bz7l7"]) p _ Hgen)).
Defined.


(** ** A create request without a shortcode *)

Lemma generateSequential_shape random dateNow length g :
  1 <= length ->
  String.length (generateSequential random dateNow length g).1 = length /\
  Forall (fun c => isCodeChar c = true)
    (chars_of (generateSequential random dateNow length g).1).
Proof.
  intros Hlen. unfold generateSequential.
  set (combined := toString36 (dateNow (nowCalls g)) +:+ _).
  destruct (slice_last_spec length combined) as (Hslice & _ & Hsub).
  apply pad_loop_spec.
  - rewrite Hslice by done. lia.
  - rewrite Hslice by done. lia.
  - apply Forall_forall. intros c Hc%Hsub. revert c Hc.
    apply Forall_forall. unfold combined. rewrite chars_of_append.
    apply Forall_app. split; apply toString36_chars.
Qed.

(** X14: a create request that supplies no shortcode (or an empty one)
    never fails. It stores its record under a code that [isValid]
    accepts: a sequential code of 6 characters that was not in the store,
    or, after ten collisions, the random code of 8 characters, which is
    stored without a check. *)
Theorem create_without_shortcode random dateNow md5hex now body g s :
  body_shortcode body = None \/ body_shortcode body = Some "" ->
  exists record g' s',
    createUrl random dateNow md5hex now body g s
      = Returned (record, g', s') /\
    (record, s') =
      storeUrl now (shortcode record)
        (UrlData.mk (body_url body) (body_expiresIn body)
           (body_description body)) s /\
    isValid (Some (shortcode record)) = true /\
    (String.length (shortcode record) = 6 /\
     exists_ (shortcode record) s = false \/
     String.length (shortcode record) = 8).
Proof.
  intros Hnone.
  set (options := Options.mk 6 "sequential" (Some (body_url body)) true 10).
  assert (~ url_missing options) as Hno by (by intros [? _]).
  destruct (generate_loop_returns random dateNow md5hex options
              (Some storeExists) 11 0 g s Hno ltac:(simpl; lia))
    as [r Hgen].
  destruct (generate_loop_reading random dateNow md5hex options exists_
              11 0 g s r Hgen) as [_ Hcode].
  assert (createUrl random dateNow md5hex now body g s =
          Returned ((storeUrl now (code_of r)
                       (UrlData.mk (body_url body) (body_expiresIn body)
                          (body_description body)) s).1,
                    generator_of r,
                    (storeUrl now (code_of r)
                       (UrlData.mk (body_url body) (body_expiresIn body)
                          (body_description body)) s).2)) as Hcreate.
  { unfold createUrl, generate. fold options. cbn [Options.maxAttempts options].
    rewrite Hgen. by destruct Hnone as [-> | ->]. }
  eexists _, _, _. split; [exact Hcreate|]. split; [done|].
  cbn [storeUrl fst shortcode].
  destruct Hcode as [[[g0 Hcand] Hfree]|[[g1 Hlong] _]].
  - unfold candidate in Hcand. simpl in Hcand. injection Hcand as Hcand.
    destruct (generateSequential_shape random dateNow 6 g0 ltac:(lia))
      as [Hlen Hchars].
    rewrite Hcand in Hlen, Hchars. simpl in Hlen, Hchars.
    split; [|by left]. apply isValid_spec. split; [lia|done].
  - destruct (generateRandom_spec random 8 true g1) as [Hlen Hchars].
    change (Options.length options + 2) with 8 in Hlong.
    change (Options.readable options) with true in Hlong.
    rewrite Hlong in Hlen, Hchars. simpl in Hlen, Hchars.
    split; [|by right]. apply isValid_spec. split; [lia|].
    eapply Forall_impl; [exact Hchars|]. apply readableCharset_code_chars.
Qed.

Lemma create_without_shortcode_witness :
  exists record g' s',
    createUrl (fun k => mkDraw (k * 7) 30)
      (fun k => (1730000000000 + Z.of_nat k)%Z) (fun _ => "") 0
      (mkCreateBody "https://a.example" None 30 None)
      (mkGenerator 5 0 0) (newMemoryStore 0)
      = Returned (record, g', s') /\
    isValid (Some (shortcode record)) = true.
Proof.
  destruct (create_without_shortcode (fun k => mkDraw (k * 7) 30)
              (fun k => (1730000000000 + Z.of_nat k)%Z) (fun _ => "") 0
              (mkCreateBody "https://a.example" None 30 None)
              (mkGenerator 5 0 0) (newMemoryStore 0))
    as (record & g' & s' & Hcreate & _ & Hvalid & _); [by left|].
  exists record, g', s'. split; [exact Hcreate | exact Hvalid].
Defined.

(** * Further properties: analytics *)

(** ** Counting keys and sorting *)

Section SortFacts.
Context {A : Type} (f : A -> nat).
Implicit Types (x : A) (l : list A).

Lemma insert_sorted_perm before x l : insert_sorted before x l ≡ₚ x :: l.
Proof.
  induction l as [|y l IH]; simpl; [done|].
  destruct (before y x); [|done]. rewrite IH. apply perm_swap.
Qed.

Lemma stable_sort_perm before l : stable_sort before l ≡ₚ l.
Proof.
  induction l as [|x l IH]; simpl; [done|].
  by rewrite insert_sorted_perm, IH.
Qed.

(** Sorting by a count, the greater first, as the comparator
    [(a, b) => b - a] does. *)
Lemma insert_sorted_descending x l :
  StronglySorted (fun a b => f b <= f a) l ->
  StronglySorted (fun a b => f b <= f a)
    (insert_sorted (fun y x => f x <? f y) x l).
Proof.
  induction l as [|y l IH]; simpl; [by repeat constructor|].
  intros [Hy Hl]%StronglySorted_cons.
  destruct (f x <? f y) eqn:Hlt.
  - apply Nat.ltb_lt in Hlt. apply StronglySorted_cons. split; [|by apply IH].
    rewrite insert_sorted_perm. apply Forall_cons. split; [lia|done].
  - apply Nat.ltb_ge in Hlt. apply StronglySorted_cons. split.
    + apply Forall_cons. split; [done|].
      eapply Forall_impl; [exact Hy|]. simpl. lia.
    + by apply StronglySorted_cons.
Qed.

Lemma stable_sort_descending l :
  StronglySorted (fun a b => f b <= f a)
    (stable_sort (fun y x => f x <? f y) l).
Proof.
  induction l as [|x l IH]; simpl; [constructor|].
  by apply insert_sorted_descending.
Qed.
End SortFacts.

Lemma tally_step_get counts key k :
  JSMap.get k (tally_step counts key) =
    if decide (key = k) then Some (default 0 (JSMap.get key counts) + 1)
    else JSMap.get k counts.
Proof.
  unfold tally_step. destruct (decide (key = k)) as [->|Hne].
  - apply jsmap_get_set_eq.
  - by apply jsmap_get_set_ne.
Qed.

Lemma total_count_set counts key v :
  total_count (JSMap.set key v counts) + default 0 (JSMap.get key counts)
  = total_count counts + v.
Proof.
  unfold total_count. induction counts as [|[k n] counts IH]; simpl; [lia|].
  destruct (decide (key = k)) as [->|Hne]; simpl; [lia|].
  change (n + sum_list (JSMap.set key v counts).*2
          + default 0 (JSMap.get key counts) = n + sum_list counts.*2 + v).
  lia.
Qed.

Lemma occurrences_cons key k keys :
  occurrences key (k :: keys) =
    (if decide (k = key) then 1 else 0) + occurrences key keys.
Proof.
  unfold occurrences. rewrite filter_cons.
  destruct (decide (k = key)); simpl; by rewrite ?decide_True by done.
Qed.

Lemma occurrences_pos key keys : 1 <= occurrences key keys <-> key ∈ keys.
Proof.
  induction keys as [|k keys IH].
  - unfold occurrences. simpl. split; [lia|by intros ?%elem_of_nil].
  - rewrite occurrences_cons, elem_of_cons.
    destruct (decide (k = key)) as [->|Hne]; [split; [auto|lia]|].
    simpl. rewrite IH. naive_solver.
Qed.

Lemma jsmap_set_positive (counts : JSMap.t nat) key v :
  Forall (fun entry => 1 <= entry.2) counts -> 1 <= v ->
  Forall (fun entry => 1 <= entry.2) (JSMap.set key v counts).
Proof.
  intros Hpos Hv. induction counts as [|[k n] counts IH]; simpl.
  - by repeat constructor.
  - apply Forall_cons in Hpos as [Hn Hpos].
    destruct (decide (key = k)); apply Forall_cons; auto.
Qed.

(** The object of counts after more keys. *)
Lemma tally_from keys : forall counts,
  NoDup (JSMap.keys counts) ->
  Forall (fun entry => 1 <= entry.2) counts ->
  let counts' := foldl tally_step counts keys in
  NoDup (JSMap.keys counts') /\
  Forall (fun entry => 1 <= entry.2) counts' /\
  total_count counts' = total_count counts + List.length keys /\
  forall k,
    default 0 (JSMap.get k counts') =
      default 0 (JSMap.get k counts) + occurrences k keys.
Proof.
  induction keys as [|key keys IH]; intros counts Hnd Hpos; simpl.
  { split; [done|]. split; [done|]. split; [lia|]. intros k.
    unfold occurrences. simpl. lia. }
  destruct (IH (tally_step counts key)) as (Hnd' & Hpos' & Htot & Hget).
  - by apply jsmap_set_NoDup.
  - unfold tally_step. apply jsmap_set_positive; [done|lia].
  - split; [done|]. split; [done|]. split.
    + rewrite Htot. unfold tally_step.
      pose proof (total_count_set counts key
                    (default 0 (JSMap.get key counts) + 1)). lia.
    + intros k. rewrite Hget, tally_step_get, occurrences_cons.
      destruct (decide (key = k)) as [->|Hne]; simpl; lia.
Qed.

Lemma jsmap_elem_of_get {V} (m : JSMap.t V) k v :
  NoDup (JSMap.keys m) -> ((k, v) ∈ m <-> JSMap.get k m = Some v).
Proof.
  induction m as [|[k' v'] m IH]; simpl.
  - intros _. split; [by intros ?%elem_of_nil|done].
  - intros [Hk' Hnd]%NoDup_cons. rewrite elem_of_cons.
    destruct (decide (k = k')) as [->|Hne].
    + split; [|intros [= ->]; by left].
      intros [[= ->]|Hin]; [done|]. exfalso. apply Hk'.
      apply list_elem_of_fmap. by exists (k', v).
    + rewrite <- IH by done. split; [|auto].
      intros [[= -> ->]|Hin]; done.
Qed.

(** What [tally] holds: one entry per key that occurs, with the number of
    its occurrences. *)
Lemma tally_spec keys :
  NoDup (JSMap.keys (tally keys)) /\
  total_count (tally keys) = List.length keys /\
  forall k n, (k, n) ∈ tally keys <-> n = occurrences k keys /\ 1 <= n.
Proof.
  destruct (tally_from keys JSMap.empty) as (Hnd & Hpos & Htot & Hget);
    [apply NoDup_nil_2 | constructor |].
  fold (tally keys) in *. split; [done|]. split; [exact Htot|].
  intros k n. rewrite jsmap_elem_of_get by done. specialize (Hget k).
  simpl in Hget. split.
  - intros Hk. rewrite Hk in Hget. simpl in Hget. split; [done|].
    apply jsmap_elem_of_get in Hk; [|done].
    rewrite Forall_forall in Hpos. apply (Hpos _ Hk).
  - intros [-> Hn]. destruct (JSMap.get k (tally keys)) as [n|] eqn:Hk.
    + simpl in Hget. by subst.
    + simpl in Hget. lia.
Qed.

Lemma objectEntries_perm counts : objectEntries counts ≡ₚ counts.
Proof.
  unfold objectEntries. rewrite stable_sort_perm.
  apply filter_app_complement.
Qed.

(** The five greatest counts of an object of counts. *)
Lemma top5_spec keys :
  let top := top5 (tally keys) in
  List.length top <= 5 /\
  NoDup top.*1 /\
  StronglySorted (fun a b => b.2 <= a.2) top /\
  (forall k n, (k, n) ∈ top -> n = occurrences k keys /\ 1 <= n) /\
  (forall k, k ∈ keys -> k ∉ top.*1 ->
     List.length top = 5 /\
     Forall (fun entry => occurrences k keys <= entry.2) top).
Proof.
  unfold top5.
  set (sorted := stable_sort (fun y x => x.2 <? y.2)
                   (objectEntries (tally keys))).
  assert (sorted ≡ₚ tally keys) as Hperm.
  { unfold sorted. by rewrite stable_sort_perm, objectEntries_perm. }
  assert (StronglySorted (fun a b => b.2 <= a.2) sorted) as Hsorted.
  { apply (stable_sort_descending snd). }
  destruct (tally_spec keys) as (Hnd & _ & Hin).
  assert (NoDup sorted.*1) as Hnd'.
  { unfold JSMap.keys in Hnd. by rewrite Hperm. }
  rewrite <- (take_drop 5 sorted) in Hsorted.
  split; [rewrite length_take; lia|]. split; [|split; [|split]].
  - rewrite fmap_take. eapply sublist_NoDup; [exact Hnd'|apply sublist_take].
  - by apply StronglySorted_app_1_l in Hsorted.
  - intros k n Hk. apply Hin. rewrite <- Hperm.
    rewrite <- (take_drop 5 sorted). apply elem_of_app. by left.
  - intros k Hk Hout.
    assert ((k, occurrences k keys) ∈ drop 5 sorted) as Hdrop.
    { assert ((k, occurrences k keys) ∈ sorted) as Hs.
      { rewrite Hperm. apply Hin. split; [done|]. by apply occurrences_pos. }
      rewrite <- (take_drop 5 sorted) in Hs.
      apply elem_of_app in Hs as [Hs|Hs]; [|done].
      exfalso. apply Hout. apply list_elem_of_fmap.
      by exists (k, occurrences k keys). }
    split.
    + rewrite length_take.
      assert (5 < List.length sorted); [|lia].
      destruct (decide (5 < List.length sorted)); [done|].
      rewrite drop_ge in Hdrop by lia. by apply elem_of_nil in Hdrop.
    + apply Forall_forall. intros entry Hentry.
      apply (StronglySorted_app_1_elem_of _ _ _ entry
               (k, occurrences k keys) Hsorted Hentry Hdrop).
Qed.


(** ** The analytics of a record *)

Lemma own_keys_dec keys : Decision (own_keys keys).
Proof. unfold own_keys. apply _. Defined.

(** X15: [_groupClicksByDay] gives one entry per day on which an event
    of the log fell, in no case twice the same day; the count of a day is
    the number of the events of that day, and the counts add up to the
    length of the log. (The days are not names that every object
    inherits.) *)
Theorem clicks_by_day_counts toISOString log :
  let days := day_of toISOString <$> log in
  own_keys days ->
  let groups := _groupClicksByDay toISOString log in
  NoDup (JSMap.keys groups) /\
  total_count groups = List.length log /\
  (forall day n, JSMap.get day groups = Some n <->
                 n = occurrences day days /\ 1 <= n).
Proof.
  intros days _ groups.
  destruct (tally_spec days) as (Hnd & Htot & Hin).
  split; [exact Hnd|]. split.
  - unfold groups, _groupClicksByDay. fold days. rewrite Htot.
    unfold days. by rewrite length_fmap.
  - intros day n. rewrite <- Hin. symmetry. by apply jsmap_elem_of_get.
Qed.

Lemma clicks_by_day_counts_witness :
  let log := events_of sample_clicks in
  own_keys (day_of isoString <$> log) /\
  JSMap.get "2024-10-27" (_groupClicksByDay isoString log) = Some 3 /\
  total_count (_groupClicksByDay isoString log) = 4.
Proof.
  intros log.
  assert (own_keys (day_of isoString <$> log)) as Hown.
  { apply (bool_decide_unpack _). vm_compute. exact I. }
  split; [exact Hown|].
  destruct (clicks_by_day_counts isoString log Hown) as (_ & Htot & Hget).
  split; [|exact Htot].
  apply Hget. split; [vm_compute; reflexivity | lia].
Defined.

(** X16: [_getTopReferers] lists at most five referers, none twice, by
    falling count; the count of a listed referer is the number of the
    events of the log with it (the empty referer counted as "direct"),
    and a referer of the log that is not listed occurs no more often than
    any of the five listed. (The referers are not names that every object
    inherits.) *)
Theorem top_referers_most_frequent log :
  let referers :=
    (fun click => or_default (Some (referer click)) "direct") <$> log in
  own_keys referers ->
  let top := _getTopReferers log in
  List.length top <= 5 /\
  NoDup top.*1 /\
  StronglySorted (fun a b => b.2 <= a.2) top /\
  (forall ref n, (ref, n) ∈ top -> n = occurrences ref referers /\ 1 <= n) /\
  (forall ref, ref ∈ referers -> ref ∉ top.*1 ->
     List.length top = 5 /\
     Forall (fun entry => occurrences ref referers <= entry.2) top).
Proof. intros referers _. apply top5_spec. Qed.

Lemma top_referers_most_frequent_witness :
  let log := events_of sample_clicks in
  own_keys ((fun click => or_default (Some (referer click)) "direct")
              <$> log) /\
  _getTopReferers log = [("a.example", 2); ("direct", 1); ("b.example", 1)] /\
  StronglySorted (fun a b => b.2 <= a.2) (_getTopReferers log).
Proof.
  intros log.
  assert (own_keys ((fun click => or_default (Some (referer click)) "direct")
                      <$> log)) as Hown.
  { apply (bool_decide_unpack _). vm_compute. exact I. }
  split; [exact Hown|]. split; [vm_compute; reflexivity|].
  exact (proj1 (proj2 (proj2 (top_referers_most_frequent log Hown)))).
Defined.

Lemma push_capped_Forall (P : ClickEvent -> Prop) log e :
  Forall P log -> P e -> Forall P (push_capped log e).
Proof.
  intros Hlog He. unfold push_capped.
  assert (Forall P (log ++ [e])) by (apply Forall_app; auto).
  destruct (100 <? _); [by apply Forall_drop|done].
Qed.

Lemma push_capped_length_min log e :
  List.length (push_capped log e) = Nat.min (List.length log + 1) 100.
Proof.
  unfold push_capped. rewrite length_app. simpl.
  destruct (100 <? _) eqn:H.
  - apply Nat.ltb_lt in H. rewrite length_drop, length_app. simpl. lia.
  - apply Nat.ltb_ge in H. rewrite length_app. simpl. lia.
Qed.

Lemma getCountryFromIp_known ip :
  _getCountryFromIp ip ∈ ["Unknown"; "Local"].
Proof.
  unfold _getCountryFromIp. destruct ip as [a|]; [|set_solver].
  repeat (destruct (decide _); [set_solver|]). set_solver.
Qed.

Lemma reachable_known_countries s : reachable s -> known_countries s.
Proof.
  induction 1 as [now|s now code d _ IH|s now code _ IH|s now code m _ IH
                 |s now _ IH]; intros k log.
  - simpl. by rewrite lookup_empty.
  - simpl. destruct (decide (code = k)) as [->|Hne].
    + rewrite lookup_insert_eq. by intros [= <-].
    + rewrite lookup_insert_ne by done. apply IH.
  - destruct (getUrl_frame now code s) as (-> & _). apply IH.
  - destruct (urls s !! code) as [r|] eqn:Hr;
      [|rewrite recordClick_unknown by done; apply IH].
    destruct (recordClick_known now code m s r Hr) as (_ & _ & -> & _).
    destruct (decide (code = k)) as [->|Hne].
    + rewrite lookup_insert_eq. intros [= <-]. apply push_capped_Forall.
      * destruct (analytics s !! k) as [log0|] eqn:Hlog; simpl; [|done].
        by apply (IH k).
      * apply getCountryFromIp_known.
    + rewrite lookup_insert_ne by done. apply IH.
  - destruct (cleanupExpiredUrls_spec now s) as (Hmaps & _).
    destruct (Hmaps k) as (_ & -> & _).
    destruct (urls s !! k ≫= unexpired now), (urls s !! k);
      try done; apply IH.
Qed.

Lemma reachable_logs_counted s : reachable s -> logs_counted s.
Proof.
  induction 1 as [now|s now code d _ IH|s now code _ IH|s now code m _ IH
                 |s now _ IH]; intros k record.
  - simpl. by rewrite lookup_empty.
  - simpl. destruct (decide (code = k)) as [->|Hne].
    + rewrite !lookup_insert_eq. intros [= <-]. simpl.
      split; [by exists []|done].
    + rewrite !lookup_insert_ne by done. apply IH.
  - destruct (getUrl_frame now code s) as (-> & _ & _ & Hu).
    destruct (Hu k) as [->|(r & _ & Hr & _ & ->)]; [apply IH|].
    intros [= <-]. apply (IH k r Hr).
  - destruct (urls s !! code) as [r|] eqn:Hr;
      [|rewrite recordClick_unknown by done; apply IH].
    destruct (recordClick_known now code m s r Hr) as (_ & -> & -> & _).
    destruct (decide (code = k)) as [->|Hne].
    + rewrite !lookup_insert_eq. intros [= <-].
      destruct (IH k r Hr) as ((log0 & Hlog & Hlen) & _).
      split; [|simpl; split; [lia|done]].
      eexists. split; [done|]. rewrite Hlog. simpl.
      rewrite push_capped_length_min. lia.
    + rewrite !lookup_insert_ne by done. apply IH.
  - destruct (cleanupExpiredUrls_spec now s) as (Hmaps & _).
    destruct (Hmaps k) as (-> & -> & _).
    destruct (urls s !! k) as [r|] eqn:Hr; simpl; [|done].
    destruct (unexpired now r) eqn:Hun; [|done].
    unfold unexpired in Hun. destruct (_ <=? _)%Z; [done|].
    injection Hun as <-. intros [= <-]. apply (IH k r Hr).
Qed.

Lemma top5_small keys :
  List.length (tally keys) <= 5 -> top5 (tally keys) ≡ₚ tally keys.
Proof.
  intros Hlen. unfold top5.
  assert (stable_sort (fun y x => x.2 <? y.2) (objectEntries (tally keys))
          ≡ₚ tally keys) as Hperm.
  { by rewrite stable_sort_perm, objectEntries_perm. }
  rewrite take_ge; [done|]. by rewrite Hperm.
Qed.

(** X17: the events that [recordClick] logs carry one of the two countries
    of [_getCountryFromIp], so in every reachable store
    [_getTopCountries] leaves no country of a log out: it lists at most
    two countries, "Unknown" or "Local", by falling count, and the counts
    add up to the length of the log. (The addresses of the events are not
    names that every object inherits: on such a name the lookup
    [countryMap[ip]] finds the inherited property.) *)
Theorem top_countries_complete s code log :
  reachable s ->
  analytics s !! code = Some log ->
  Forall (fun click => ip click ∉ inherited_names) log ->
  let top := _getTopCountries log in
  List.length top <= 2 /\
  Forall (fun entry => entry.1 = "Unknown" \/ entry.1 = "Local") top /\
  StronglySorted (fun a b => b.2 <= a.2) top /\
  total_count top = List.length log /\
  (forall c n, (c, n) ∈ top <->
               n = occurrences c (country <$> log) /\ 1 <= n).
Proof.
  intros Hs Hlog _ top.
  pose proof (reachable_known_countries s Hs code log Hlog) as Hknown.
  set (keys := (fun click => or_default (Some (country click)) "Unknown")
                 <$> log).
  assert (keys = country <$> log) as Hkeys.
  { unfold keys. apply Forall_fmap_ext_1.
    eapply Forall_impl; [exact Hknown|]. intros click Hc. simpl in Hc.
    apply elem_of_cons in Hc as [->|Hc]; [done|].
    apply elem_of_cons in Hc as [->|Hc]; [done|].
    by apply elem_of_nil in Hc. }
  destruct (tally_spec keys) as (Hnd & Htot & Hin).
  assert (forall c, c ∈ JSMap.keys (tally keys) -> c ∈ ["Unknown"; "Local"])
    as Hsub.
  { intros c (entry & -> & Hentry)%list_elem_of_fmap.
    destruct entry as [c n]. apply Hin in Hentry as [-> Hn].
    apply occurrences_pos in Hn. rewrite Hkeys in Hn.
    apply list_elem_of_fmap in Hn as (click & -> & Hclick).
    rewrite Forall_forall in Hknown. by apply Hknown. }
  assert (List.length (tally keys) <= 2) as Hlen.
  { apply (NoDup_submseteq _ _ Hnd), submseteq_length in Hsub.
    unfold JSMap.keys in Hsub. by rewrite length_fmap in Hsub. }
  assert (top ≡ₚ tally keys) as Hperm by (apply top5_small; lia).
  split; [by rewrite Hperm|]. split; [|split; [|split]].
  - apply Forall_forall. intros [c n] Hentry. rewrite Hperm in Hentry.
    assert (c ∈ ["Unknown"; "Local"]) as Hc.
    { apply Hsub. apply list_elem_of_fmap. by exists (c, n). }
    simpl. set_solver.
  - apply (top5_spec keys).
  - unfold total_count. rewrite Hperm. fold (total_count (tally keys)).
    rewrite Htot. unfold keys. by rewrite length_fmap.
  - intros c n. rewrite Hperm, <- Hkeys. apply Hin.
Qed.

Lemma sample_store_reachable : reachable sample_store.
Proof.
  unfold sample_store. apply reachable_recordClicks, reach_storeUrl, reach_new.
Qed.

Lemma sample_store_log :
  analytics sample_store !! "abc123" = Some (events_of sample_clicks).
Proof. vm_compute. reflexivity. Qed.

Lemma top_countries_complete_witness :
  _getTopCountries (events_of sample_clicks) = [("Local", 3); ("Unknown", 1)]
  /\ total_count (_getTopCountries (events_of sample_clicks)) = 4.
Proof.
  split; [vm_compute; reflexivity|].
  assert (Forall (fun click => ip click ∉ inherited_names)
            (events_of sample_clicks)) as Hips.
  { apply (bool_decide_unpack _). vm_compute. exact I. }
  exact (proj1 (proj2 (proj2 (proj2
    (top_countries_complete sample_store "abc123" (events_of sample_clicks)
       sample_store_reachable sample_store_log Hips))))).
Defined.

(** X18: in every reachable store the analytics of a shortcode agree
    with its click count, whatever was stored, read, clicked and swept
    before: the counts by day add up to the total of the clicks up to the
    cap of 100 events, the recent clicks are as many as the clicks up to
    10, and the record was never accessed exactly when it has no click.
    (The days are not names that every object inherits.) *)
Theorem analytics_totals toISOString now code s a :
  reachable s ->
  (forall log, analytics s !! code = Some log ->
               own_keys (day_of toISOString <$> log)) ->
  getAnalytics toISOString now code s = Some a ->
  total_count (Analytics.clicksByDay a)
    = Nat.min (Analytics.totalClicks a) 100 /\
  List.length (Analytics.recentClicks a)
    = Nat.min (Analytics.totalClicks a) 10 /\
  (Analytics.totalClicks a = 0 <-> Analytics.lastAccessed a = None).
Proof.
  intros Hs _ Ha. unfold getAnalytics in Ha.
  destruct (urls s !! code) as [record|] eqn:Hr; [|done].
  destruct (reachable_logs_counted s Hs code record Hr)
    as ((log & Hlog & Hlen) & Hacc).
  rewrite Hlog in Ha. simpl in Ha. injection Ha as <-. simpl.
  split; [|split; [|exact Hacc]].
  - destruct (tally_spec (day_of toISOString <$> log)) as (_ & Htot & _).
    unfold _groupClicksByDay. rewrite Htot, length_fmap. exact Hlen.
  - rewrite length_drop. lia.
Qed.

Lemma analytics_totals_witness :
  exists a, getAnalytics isoString 1730090000000 "abc123" sample_store = Some a
    /\ Analytics.totalClicks a = 4
    /\ total_count (Analytics.clicksByDay a) = 4.
Proof.
  destruct (getAnalytics isoString 1730090000000 "abc123" sample_store)
    as [a|] eqn:Ha; [|vm_compute in Ha; discriminate Ha].
  exists a. split; [reflexivity|].
  assert (Analytics.totalClicks a = 4) as Htotal.
  { assert (Analytics.totalClicks
              <$> getAnalytics isoString 1730090000000 "abc123" sample_store
            = Some 4) as H by (vm_compute; reflexivity).
    rewrite Ha in H. by injection H. }
  split; [exact Htotal|].
  destruct (analytics_totals isoString 1730090000000 "abc123" sample_store a
              sample_store_reachable) as (Hdays & _); [|exact Ha|].
  - intros log Hlog. rewrite sample_store_log in Hlog. injection Hlog as <-.
    apply (bool_decide_unpack _). vm_compute. exact I.
  - rewrite Hdays, Htotal. reflexivity.
Defined.

Lemma recordClicks_lastAccessed code clicks : forall s record,
  urls s !! code = Some record ->
  exists record', urls (recordClicks code clicks s) !! code = Some record' /\
    lastAccessed record' =
      from_option Some (lastAccessed record) (fst <$> last clicks).
Proof.
  induction clicks as [|[now m] clicks IH]; intros s record Hr.
  - exists record. by split.
  - destruct (recordClick_known now code m s record Hr) as (_ & Hu & _).
    edestruct (IH (recordClick now code m s).2) as (r' & Hr' & Hacc).
    { rewrite Hu. apply lookup_insert_eq. }
    exists r'. split; [exact Hr'|]. rewrite Hacc. simpl lastAccessed.
    destruct clicks as [|click clicks]; [done|].
    change (last ((now, m) :: click :: clicks)) with (last (click :: clicks)).
    destruct (last (click :: clicks)) eqn:Hlast; [done|].
    by apply last_None in Hlast.
Qed.

(** X19: after [storeUrl] and any number of clicks on the new shortcode
    [getAnalytics] reports all of them as the total, the last ten events
    as the recent clicks (whatever the cap of the log cut off), and the
    time of the last click as the last access. *)
Theorem analytics_after_clicks toISOString now0 now code urlData clicks s :
  let s' := recordClicks code clicks (storeUrl now0 code urlData s).2 in
  exists a, getAnalytics toISOString now code s' = Some a /\
    Analytics.originalUrl a = UrlData.url urlData /\
    Analytics.totalClicks a = List.length clicks /\
    Analytics.lastAccessed a = fst <$> last clicks /\
    Analytics.recentClicks a
      = drop (List.length clicks - 10) (events_of clicks).
Proof.
  intros s'.
  assert (exists r0, urls (storeUrl now0 code urlData s).2 !! code = Some r0 /\
            clickCount r0 = 0 /\ lastAccessed r0 = None /\
            originalUrl r0 = UrlData.url urlData) as (r0 & Hu & Hc0 & Hl0 & Ho0).
  { eexists. split; [apply lookup_insert_eq|done]. }
  assert (analytics (storeUrl now0 code urlData s).2 !! code
          = Some (drop (List.length (@nil ClickEvent) - 100) [])) as Ha.
  { apply lookup_insert_eq. }
  destruct (recordClicks_count code clicks _ _ Hu)
    as (r1 & Hr1 & Hcount & Hsame).
  destruct (recordClicks_lastAccessed code clicks _ _ Hu)
    as (r2 & Hr2 & Hacc).
  fold s' in Hr1, Hr2. rewrite Hr1 in Hr2. injection Hr2 as <-.
  pose proof (recordClicks_log code clicks _ _ [] Hu Ha) as Hlog.
  fold s' in Hlog. simpl in Hlog.
  unfold getAnalytics. rewrite Hr1, Hlog. eexists. split; [reflexivity|].
  simpl. split; [|split; [|split]].
  - destruct Hsame as (_ & <- & _). done.
  - lia.
  - rewrite Hacc, Hl0. by destruct (last clicks).
  - rewrite drop_drop, length_drop. unfold events_of at 2 3.
    rewrite length_fmap. f_equal. unfold events_of. rewrite length_fmap. lia.
Qed.

(** * Further properties: the middleware and the handlers *)

(** ** [sanitizeShortcode] *)

Lemma toLowerCase_char_code c :
  isCodeChar c = true ->
  isCodeChar (toLowerCase_char c) = true /\
  isWhiteSpace (toLowerCase_char c) = false.
Proof.
  destruct c as [[] [] [] [] [] [] [] []]; vm_compute; intros H;
    first [discriminate H | split; reflexivity].
Qed.

Lemma toLowerCase_char_idem c :
  toLowerCase_char (toLowerCase_char c) = toLowerCase_char c.
Proof. destruct c as [[] [] [] [] [] [] [] []]; reflexivity. Qed.

Lemma toLowerCase_idem s : toLowerCase (toLowerCase s) = toLowerCase s.
Proof.
  induction s as [|c s IH]; simpl; [done|].
  by rewrite toLowerCase_char_idem, IH.
Qed.

Lemma toLowerCase_length s : String.length (toLowerCase s) = String.length s.
Proof. induction s as [|c s IH]; simpl; [done|]. by rewrite IH. Qed.

Lemma toLowerCase_code s :
  Forall (fun c => isCodeChar c = true) (chars_of s) ->
  Forall (fun c => isCodeChar c = true /\ isWhiteSpace c = false)
    (chars_of (toLowerCase s)).
Proof.
  induction s as [|c s IH]; simpl; [constructor|].
  intros [Hc Hs]%Forall_cons. apply Forall_cons.
  split; [by apply toLowerCase_char_code | by apply IH].
Qed.

(** [trim] leaves a string without white space as it is. *)
Lemma trim_no_space s :
  Forall (fun c => isWhiteSpace c = false) (chars_of s) -> trim s = s.
Proof.
  intros Hs. unfold trim.
  assert (trimStart s = s) as ->.
  { destruct s as [|c s]; simpl; [done|].
    apply Forall_cons in Hs as [-> _]. done. }
  induction s as [|c s IH]; simpl; [done|].
  apply Forall_cons in Hs as [Hc Hs]. rewrite (IH Hs), Hc.
  by destruct s.
Qed.

Lemma sanitized_code code :
  isValid (Some code) = true ->
  trim (toLowerCase code) = toLowerCase code /\
  toLowerCase code <> "" /\
  isValid (Some (toLowerCase code)) = true.
Proof.
  intros [Hlen Hchars]%isValid_spec.
  pose proof (toLowerCase_code code Hchars) as Hlow.
  split; [|split].
  - apply trim_no_space. eapply Forall_impl; [exact Hlow|]. by intros c [_ ?].
  - intros Hempty. pose proof (toLowerCase_length code) as Hl.
    rewrite Hempty in Hl. simpl in Hl. lia.
  - apply isValid_spec. rewrite toLowerCase_length. split; [exact Hlen|].
    eapply Forall_impl; [exact Hlow|]. by intros c [? _].
Qed.

(** X20: on a shortcode that the validation accepted (3 to 20 characters
    of [[a-zA-Z0-9_-]]) [sanitizeShortcode] only lowers the case: it
    rejects the request exactly when the lowered shortcode is a reserved
    word, and otherwise passes the body on with the lowered shortcode,
    which the validation accepts as well, and with its other fields
    untouched; a second pass changes nothing. *)
Theorem sanitizeShortcode_lowers body code :
  body_shortcode body = Some code ->
  isValid (Some code) = true ->
  let lowered :=
    mkCreateBody (body_url body) (Some (toLowerCase code))
      (body_expiresIn body) (body_description body) in
  sanitizeShortcode body =
    (if bool_decide (toLowerCase code ∈ reservedWords)
     then NextError "Shortcode conflicts with reserved word"
     else Next lowered) /\
  isValid (Some (toLowerCase code)) = true /\
  (toLowerCase code ∉ reservedWords ->
   sanitizeShortcode lowered = Next lowered).
Proof.
  intros Hcode Hvalid lowered.
  destruct (sanitized_code code Hvalid) as (Htrim & Hne & Hvalid').
  assert (code <> "") as Hne0 by (by intros ->).
  split; [|split; [exact Hvalid'|]].
  - unfold sanitizeShortcode. rewrite Hcode, decide_False by done.
    cbv zeta. rewrite Htrim. done.
  - intros Hfree. unfold sanitizeShortcode, lowered. simpl.
    rewrite decide_False by done. cbv zeta.
    rewrite toLowerCase_idem, Htrim, bool_decide_eq_false_2 by done. done.
Qed.

Lemma sanitizeShortcode_lowers_witness :
  sanitizeShortcode (mkCreateBody "https://a.example" (Some "MyLink") 30 None)
  = Next (mkCreateBody "https://a.example" (Some "mylink") 30 None) /\
  sanitizeShortcode (mkCreateBody "https://a.example" (Some "Admin") 30 None)
  = NextError "Shortcode conflicts with reserved word".
Proof.
  split.
  - exact (proj1 (sanitizeShortcode_lowers
                    (mkCreateBody "https://a.example" (Some "MyLink") 30 None)
                    "MyLink" eq_refl eq_refl)).
  - exact (proj1 (sanitizeShortcode_lowers
                    (mkCreateBody "https://a.example" (Some "Admin") 30 None)
                    "Admin" eq_refl eq_refl)).
Defined.

(** X21: a create request with a shortcode of its own, after
    [sanitizeShortcode]: the handler looks up and stores the lowered
    shortcode. It throws the conflict error exactly when the store has a
    record under the lowered shortcode, whatever the case of the request;
    otherwise it stores the record under the lowered shortcode and leaves
    the generator as it is. *)
Theorem create_with_custom_shortcode random dateNow md5hex now body body'
    code g s :
  body_shortcode body = Some code ->
  isValid (Some code) = true ->
  sanitizeShortcode body = Next body' ->
  let code' := toLowerCase code in
  let urlData := UrlData.mk (body_url body) (body_expiresIn body)
                   (body_description body) in
  createUrl random dateNow md5hex now body' g s =
    (if exists_ code' s
     then Thrown (ConflictError
                    ("Shortcode '" +:+ code' +:+ "' is already taken"))
     else Returned ((storeUrl now code' urlData s).1, g,
                    (storeUrl now code' urlData s).2)) /\
  (exists_ code' s = false ->
   urls (storeUrl now code' urlData s).2 !! code'
     = Some (storeUrl now code' urlData s).1 /\
   shortcode (storeUrl now code' urlData s).1 = code').
Proof.
  intros Hcode Hvalid Hpass code' urlData.
  destruct (sanitized_code code Hvalid) as (Htrim & Hne & _).
  assert (code <> "") as Hne0 by (by intros ->).
  assert (body' = mkCreateBody (body_url body) (Some code')
                    (body_expiresIn body) (body_description body)) as ->.
  { revert Hpass. unfold sanitizeShortcode.
    rewrite Hcode, decide_False by done. cbv zeta. rewrite Htrim.
    destruct (bool_decide _); [done|]. by intros [= <-]. }
  split.
  - unfold createUrl. cbn [body_shortcode body_url body_expiresIn
                             body_description].
    rewrite decide_False by done. fold urlData.
    destruct (exists_ code' s); [done|].
    by destruct (storeUrl now code' urlData s).
  - intros _. split; [apply lookup_insert_eq|done].
Qed.

Lemma create_with_custom_shortcode_witness :
  let s := (storeUrl 0 "mylink" (UrlData.mk "https://a.example" 30 None)
              (newMemoryStore 0)).2 in
  createUrl (fun _ => mkDraw 0 1) (fun _ => 0%Z) (fun _ => "") 5
    (mkCreateBody "https://b.example" (Some "mylink") 30 None)
    (mkGenerator 0 0 0) s
  = Thrown (ConflictError "Shortcode 'mylink' is already taken").
Proof.
  intros s.
  exact (proj1 (create_with_custom_shortcode (fun _ => mkDraw 0 1)
                  (fun _ => 0%Z) (fun _ => "") 5
                  (mkCreateBody "https://b.example" (Some "MyLink") 30 None)
                  (mkCreateBody "https://b.example" (Some "mylink") 30 None)
                  "MyLink" (mkGenerator 0 0 0) s eq_refl eq_refl eq_refl)).
Defined.

(** ** The two classifiers of user agents *)

(** X22: [getUserAgent] of the redirect handler and
    [RequestLogger.parseUserAgent] name the same browser for every
    header; they differ only where none is named, which the logger calls
    "unknown" (no header) or "other" and the handler "Other". So the test
    for "Chrome" in the Safari case of the handler never decides. *)
Theorem user_agent_classifiers_agree header :
  getUserAgent header =
    (if bool_decide (parseUserAgent header ∈ ["unknown"; "other"])
     then "Other" else parseUserAgent header).
Proof.
  assert (getUserAgent None = "Other") as Hnone by (by vm_compute).
  destruct header as [ua|]; [|by rewrite Hnone].
  destruct (decide (ua = "")) as [->|Hne]; [by vm_compute|].
  unfold getUserAgent, parseUserAgent, or_default.
  rewrite !decide_False by done.
  destruct (includes ua "Chrome"); [by vm_compute|].
  destruct (includes ua "Firefox"); [by vm_compute|].
  destruct (includes ua "Safari"); [by vm_compute|].
  destruct (includes ua "Edge"); [by vm_compute|].
  destruct (includes ua "curl"); [by vm_compute|].
  destruct (includes ua "Postman"); by vm_compute.
Qed.

(** ** The redirect handler *)

(** When [getUrl] finds a record, the record map stays as it is. *)
Lemma getUrl_found now code s found :
  (getUrl now code s).1 = Some found ->
  urls (getUrl now code s).2 = urls s /\
  (JSMap.get code (cache s) = Some found \/ urls s !! code = Some found).
Proof.
  assert (forall s0, (getUrl_record now code s0).1 = Some found ->
            urls (getUrl_record now code s0).2 = urls s0 /\
            urls s0 !! code = Some found) as Hrec.
  { intros s0. unfold getUrl_record.
    destruct (urls s0 !! code) as [r|]; simpl; [|done].
    destruct (expiresAt r <=? now)%Z; simpl; [done|].
    destruct (5 <? clickCount r); simpl; intros [= <-]; split; try done.
    unfold _addToCache. by destruct (cacheSize s0 <=? _). }
  unfold getUrl. destruct (JSMap.get code (cache s)) as [c|] eqn:Hget.
  - destruct (now <? expiresAt c)%Z; simpl.
    + intros [= <-]. auto.
    + intros Hf. destruct (Hrec _ Hf) as [-> ?]. auto.
  - intros Hf. destruct (Hrec _ Hf) as [-> ?]. auto.
Qed.

Section RedirectFacts.
Variable hostname : string -> option string.
Variable trackingUrl : string -> string -> option string.

(** X23: the redirect handler on a reachable store. It answers with the
    page of status 404 exactly when [getUrl] finds nothing, and then
    counts no click. Otherwise it redirects with status 302 (to the
    original URL of the record found when the query says
    [track=false]), and the click is always recorded: the warning of a
    lost click is never logged, the stored record of the shortcode has
    one click more and the time of [recordClick] as its last access, the
    event of the request is the last of its log, and the total of the
    clicks is one more. *)
Theorem redirect_records_click now t now' code req s :
  reachable s ->
  let r := redirectHandler hostname trackingUrl now t now' code req s in
  let s1 := (getUrl now code s).2 in
  Redirected.warned r = false /\
  reachable (Redirected.store r) /\
  match (getUrl now code s).1 with
  | None =>
      Redirected.response r = NotFoundPage code /\
      Redirected.store r = s1 /\
      analytics s1 = analytics s /\ stats s1 = stats s
  | Some found =>
      (exists location,
         Redirected.response r = Redirect 302 location /\
         (Request.query_track req = Some "false" ->
          location = originalUrl found)) /\
      exists record,
        urls s !! code = Some record /\
        urls (Redirected.store r) !! code = Some (clicked now' record) /\
        (exists log,
           analytics (Redirected.store r) !! code = Some log /\
           last log
             = Some (clickData now' (clickMetadata hostname t req))) /\
        totalClicks (stats (Redirected.store r))
          = totalClicks (stats s) + 1
  end.
Proof.
  intros Hs r s1.
  assert (reachable s1) as Hs1 by (by apply reach_getUrl).
  destruct (getUrl_frame now code s) as (Ha & Hst & _).
  unfold r, redirectHandler.
  destruct (getUrl now code s) as [[found|] s1'] eqn:Hget;
    subst s1; cbn [fst snd] in *; [|done].
  assert ((getUrl now code s).1 = Some found) as Hfound by (by rewrite Hget).
  destruct (getUrl_found now code s found Hfound) as [Hurls Hfrom].
  rewrite Hget in Hurls. cbn [snd] in Hurls.
  assert (is_Some (urls s !! code)) as [record Hr].
  { destruct Hfrom as [Hc|Hu]; [|by eexists].
    apply (reachable_cache_included s Hs). unfold JSMap.has. by rewrite Hc. }
  assert (urls s1' !! code = Some record) as Hr1 by (by rewrite Hurls).
  destruct (recordClick_known now' code (clickMetadata hostname t req)
              s1' record Hr1) as (Hrec & Hu & Hlog & _ & _ & Htotal).
  destruct (recordClick now' code (clickMetadata hostname t req) s1')
    as [recorded s2] eqn:Hclick.
  cbn [fst snd] in *. subst recorded. simpl.
  split; [done|]. split.
  { replace s2 with (recordClick now' code
                       (clickMetadata hostname t req) s1').2
      by (by rewrite Hclick).
    by apply reach_recordClick. }
  split.
  - eexists. split; [reflexivity|]. intros ->. done.
  - exists record. split; [done|]. split; [|split].
    + rewrite Hu. apply lookup_insert_eq.
    + eexists. split; [rewrite Hlog; apply lookup_insert_eq|].
      apply push_capped_last.
    + rewrite Htotal, Hst. done.
Qed.
End RedirectFacts.

Lemma createUrl_record random dateNow md5hex now body g s r g' s' :
  createUrl random dateNow md5hex now body g s = Returned (r, g', s') ->
  exists code,
    (r, s') = storeUrl now code
                (UrlData.mk (body_url body) (body_expiresIn body)
                   (body_description body)) s.
Proof.
  unfold createUrl.
  destruct (generate random dateNow md5hex _ (Some storeExists) g s)
    as [gen|e|];
    destruct (body_shortcode body) as [custom|];
    repeat case_decide; try destruct (exists_ custom s);
    simpl; intros [= <- <- <-]; eexists; reflexivity.
Qed.

Section CreatedLink.
Variable hostname : string -> option string.
Variable trackingUrl : string -> string -> option string.
Variable toISOString : Z -> string.

(** X24: from the create request to the analytics. A link that the
    create handler stored redirects, before its expiry, to the URL of
    the request (when the query says [track=false]; the cache holding no
    older snapshot of the shortcode), and after this one redirect the
    analytics of the shortcode show one click: the event of the request,
    at the time of [recordClick]. *)
Theorem created_link_redirects random dateNow md5hex now body g s
    record g' s' now1 t now2 now3 req :
  createUrl random dateNow md5hex now body g s = Returned (record, g', s') ->
  JSMap.get (shortcode record) (cache s) = None ->
  (now1 < expiresAt record)%Z ->
  let r := redirectHandler hostname trackingUrl now1 t now2
             (shortcode record) req s' in
  (exists location,
     Redirected.response r = Redirect 302 location /\
     (Request.query_track req = Some "false" ->
      location = body_url body)) /\
  exists a,
    getAnalytics toISOString now3 (shortcode record) (Redirected.store r)
      = Some a /\
    Analytics.originalUrl a = body_url body /\
    Analytics.totalClicks a = 1 /\
    Analytics.lastAccessed a = Some now2 /\
    Analytics.recentClicks a
      = [clickData now2 (clickMetadata hostname t req)] /\
    Analytics.isActive a = (now3 <? expiresAt record)%Z.
Proof.
  intros Hcreate Hmiss Hlive. cbv zeta.
  destruct (createUrl_record _ _ _ _ _ _ _ _ _ _ Hcreate) as [code Hstored].
  set (urlData := UrlData.mk (body_url body) (body_expiresIn body)
                    (body_description body)) in *.
  assert (record = (storeUrl now code urlData s).1) as Hrecord
    by (by rewrite <- Hstored).
  assert (s' = (storeUrl now code urlData s).2) as Hs'
    by (by rewrite <- Hstored).
  assert (shortcode record = code) as Hcode by (by rewrite Hrecord).
  rewrite Hcode in *. clear Hcode.
  assert (urls s' !! code = Some record) as Hr.
  { rewrite Hs', Hrecord. apply lookup_insert_eq. }
  assert (analytics s' !! code = Some []) as Hlog0.
  { rewrite Hs'. apply lookup_insert_eq. }
  assert (cache s' = cache s) as Hcache by (by rewrite Hs').
  assert (clickCount record = 0 /\ originalUrl record = body_url body /\
          isActive record = true) as (Hcount & Hurl & Hactive)
    by (by rewrite Hrecord).
  assert (getUrl now1 code s' = (Some record, s')) as Hget.
  { unfold getUrl, getUrl_record. rewrite Hcache, Hmiss, Hr, Hcount.
    apply Z.leb_gt in Hlive. by rewrite Hlive. }
  destruct (recordClick_known now2 code (clickMetadata hostname t req)
              s' record Hr) as (_ & Hu & Hlog & _).
  unfold redirectHandler. rewrite Hget.
  destruct (recordClick now2 code (clickMetadata hostname t req) s')
    as [recorded s2] eqn:Hclick.
  cbn [fst snd] in *. simpl. split.
  - eexists. split; [reflexivity|]. intros ->. simpl. exact Hurl.
  - unfold getAnalytics. rewrite Hu, Hlog, Hlog0, !lookup_insert_eq.
    eexists. split; [reflexivity|]. simpl.
    unfold liveb. simpl. rewrite Hcount, Hactive. done.
Qed.
End CreatedLink.

Lemma created_link_redirects_witness :
  let urlData := UrlData.mk "https://a.example" 30 None in
  let s' := (storeUrl 0 "mylink" urlData (newMemoryStore 0)).2 in
  let r := redirectHandler (fun _ => None) (fun _ _ => None) 5 6 7 "mylink"
             sample_request s' in
  exists a,
    getAnalytics isoString 8 "mylink" (Redirected.store r) = Some a /\
    Analytics.totalClicks a = 1.
Proof.
  intros urlData s' r.
  destruct (created_link_redirects (fun _ => None) (fun _ _ => None)
              isoString (fun _ => mkDraw 0 1) (fun _ => 0%Z) (fun _ => "") 0
              (mkCreateBody "https://a.example" (Some "mylink") 30 None)
              (mkGenerator 0 0 0) (newMemoryStore 0)
              (storeUrl 0 "mylink" urlData (newMemoryStore 0)).1
              (mkGenerator 0 0 0) s' 5 6 7 8 sample_request)
    as (_ & a & Ha & _ & Htotal & _);
    [vm_compute; reflexivity | reflexivity | vm_compute; reflexivity |].
  exists a. split; [exact Ha | exact Htotal].
Defined.

Lemma redirect_records_click_witness :
  Redirected.warned
    (redirectHandler (fun _ => None) (fun _ _ => None) 1730090000000
       1730090000001 1730090000002 "abc123" sample_request sample_store)
  = false.
Proof.
  exact (proj1 (redirect_records_click (fun _ => None) (fun _ _ => None)
                  1730090000000 1730090000001 1730090000002 "abc123"
                  sample_request sample_store sample_store_reachable)).
Defined.

(** ** The list handler *)

Lemma slice_from_start {A} (a b : Z) (l : list A) :
  (0 <= a <= b)%Z ->
  slice a b l = take (Z.to_nat b - Z.to_nat a) (drop (Z.to_nat a) l).
Proof.
  intros Hab. unfold slice.
  assert ((a <? 0)%Z = false) as -> by (apply Z.ltb_ge; lia).
  assert ((b <? 0)%Z = false) as -> by (apply Z.ltb_ge; lia).
  destruct (decide (Z.of_nat (List.length l) <= a)%Z) as [Hout|Hin].
  - rewrite !drop_ge by lia. by rewrite !take_nil.
  - replace (Z.to_nat (Z.min a (Z.of_nat (List.length l))))
      with (Z.to_nat a) by lia.
    destruct (decide (b <= Z.of_nat (List.length l))%Z) as [Hb|Hb].
    + f_equal. lia.
    + rewrite !take_ge; [done | |]; rewrite length_drop; lia.
Qed.

Lemma pages_concat {A} (size : nat) (l : list A) k :
  mjoin ((fun p => take size (drop (p * size) l)) <$> seq 0 k)
  = take (k * size) l.
Proof.
  induction k as [|k IH]; [done|].
  rewrite seq_S, fmap_app, join_app, IH. simpl.
  rewrite app_nil_r, take_take_drop. f_equal. lia.
Qed.

Lemma activeUrls_spec now allUrls :
  activeUrls now allUrls ≡ₚ filter (fun url => liveb now url = true) allUrls
  /\ StronglySorted (fun a b => (createdAt b <= createdAt a)%Z)
       (activeUrls now allUrls).
Proof.
  unfold activeUrls. split; [apply stable_sort_perm|].
  generalize (filter (fun url => liveb now url = true) allUrls).
  intros l. induction l as [|x l IH]; simpl; [constructor|].
  set (sorted := stable_sort _ l) in *. clearbody sorted.
  induction sorted as [|y sorted IHs]; simpl; [by repeat constructor|].
  apply StronglySorted_cons in IH as [Hy Hsorted].
  destruct (createdAt x <? createdAt y)%Z eqn:Hlt.
  - apply Z.ltb_lt in Hlt. apply StronglySorted_cons.
    split; [|by apply IHs].
    rewrite insert_sorted_perm. apply Forall_cons. split; [lia|done].
  - apply Z.ltb_ge in Hlt. apply StronglySorted_cons. split.
    + apply Forall_cons. split; [done|].
      eapply Forall_impl; [exact Hy|]. simpl. lia.
    + by apply StronglySorted_cons.
Qed.

(** X25: the pages of the list handler, for a limit of at least 1 (the
    default 10 when the query has none; 100 when it asks for more). Page
    [p >= 1] holds at most [limit] records, the records from
    [(p - 1) * limit] on of the live records sorted by falling creation
    time; [hasNext] says that [p] is not the last page; and pages 1 to
    [pages] one after the other are the live records, each once. *)
Theorem list_pages_cover now query_limit allUrls :
  let limit := Z.min (parsed_or query_limit 10) 100 in
  (1 <= limit)%Z ->
  let active := activeUrls now allUrls in
  let page p := listHandler now (Some (Z.of_nat p)) query_limit allUrls in
  let pages := Pagination.pages (page 1).2 in
  (forall p, 1 <= p ->
     (page p).1
       = take (Z.to_nat limit) (drop ((p - 1) * Z.to_nat limit) active) /\
     List.length (page p).1 <= 100 /\
     Pagination.total (page p).2 = List.length active /\
     Pagination.pages (page p).2 = pages /\
     (Pagination.hasNext (page p).2 = true <-> (Z.of_nat p < pages)%Z)) /\
  mjoin ((fun p => (page p).1) <$> seq 1 (Z.to_nat pages)) = active /\
  active ≡ₚ filter (fun url => liveb now url = true) allUrls.
Proof.
  intros limit Hlimit active page pages.
  assert (limit <= 100)%Z as Hcap by (unfold limit; lia).
  set (n := Z.of_nat (List.length active)).
  assert (pages = (- ((- n) / limit))%Z) as Hpages by done.
  pose proof (Z.div_mod (- n) limit ltac:(lia)) as Hdiv.
  pose proof (Z.mod_pos_bound (- n) limit ltac:(lia)) as Hmod.
  assert (forall p, 1 <= p ->
            (page p).1 = take (Z.to_nat limit)
                           (drop ((p - 1) * Z.to_nat limit) active))
    as Hitems.
  { intros p Hp. unfold page, listHandler. cbn [fst].
    assert (parsed_or (Some (Z.of_nat p)) 1 = Z.of_nat p) as ->.
    { unfold parsed_or. rewrite decide_False by lia. done. }
    fold limit active. rewrite slice_from_start by nia.
    f_equal; [|f_equal]; nia. }
  split; [|split].
  - intros p Hp. split; [by apply Hitems|]. split; [|split; [done|split]].
    + rewrite (Hitems p Hp), length_take. lia.
    + done.
    + unfold page, listHandler. cbn [snd Pagination.hasNext].
      assert (parsed_or (Some (Z.of_nat p)) 1 = Z.of_nat p) as ->.
      { unfold parsed_or. rewrite decide_False by lia. done. }
      fold limit active n. rewrite Z.ltb_lt, Hpages. nia.
  - assert ((fun p => (page p).1) <$> seq 1 (Z.to_nat pages)
            = (fun p => take (Z.to_nat limit)
                          (drop (p * Z.to_nat limit) active))
                <$> seq 0 (Z.to_nat pages)) as ->.
    { rewrite <- (fmap_S_seq 0), <- list_fmap_compose.
      apply Forall_fmap_ext_1, Forall_forall. intros p _.
      change (((fun p0 => (page p0).1) ∘ S) p) with (page (S p)).1.
      rewrite Hitems by lia. do 2 f_equal. lia. }
    rewrite pages_concat. apply take_ge. nia.
  - apply activeUrls_spec.
Qed.

Lemma list_pages_cover_witness :
  shortcode <$> (listHandler 10 (Some 2%Z) (Some 2%Z) sample_urls).1
  = ["d"; "e"].
Proof.
  destruct (list_pages_cover 10 (Some 2%Z) sample_urls) as (Hpage & _);
    [vm_compute; discriminate|].
  transitivity (shortcode <$> take 2 (drop 2 (activeUrls 10 sample_urls)));
    [|vm_compute; reflexivity].
  exact (f_equal (fmap (M := list) shortcode) (proj1 (Hpage 2 ltac:(lia)))).
Defined.

(** X26: the limit of the list handler has a cap but no floor. With a
    limit below 0 the first page is [slice(0, limit)], all the live
    records but the last [- limit] of them, however many these are, and
    the number of the pages is not above 0. *)
Theorem list_limit_below_zero now limit allUrls :
  (limit < 0)%Z ->
  let active := activeUrls now allUrls in
  let result := listHandler now None (Some limit) allUrls in
  result.1 = take (List.length active - Z.to_nat (- limit)) active /\
  Pagination.limit result.2 = limit /\
  (Pagination.pages result.2 <= 0)%Z.
Proof.
  intros Hlimit active result. unfold result, listHandler.
  assert (parsed_or (Some limit) 10 = limit) as ->.
  { unfold parsed_or. rewrite decide_False by lia. done. }
  fold active. cbn [fst snd Pagination.limit Pagination.pages parsed_or].
  replace (Z.min limit 100) with limit by lia.
  split; [|split; [done|]].
  - unfold slice. simpl Z.ltb.
    replace ((1 - 1) * limit + limit)%Z with limit by lia.
    replace ((1 - 1) * limit)%Z with 0%Z by lia.
    assert ((limit <? 0)%Z = true) as -> by (by apply Z.ltb_lt).
    simpl. rewrite Z.min_l by lia. simpl. f_equal. lia.
  - pose proof (Z.div_mod (- Z.of_nat (List.length active)) limit
                  ltac:(lia)) as Hdiv.
    pose proof (Z.mod_neg_bound (- Z.of_nat (List.length active)) limit
                  ltac:(lia)) as Hmod.
    nia.
Qed.

Lemma list_limit_below_zero_witness :
  shortcode <$> (listHandler 10 None (Some (-2)%Z) sample_urls).1
  = ["f"; "b"; "d"].
Proof.
  rewrite (proj1 (list_limit_below_zero 10 (-2) sample_urls ltac:(lia))).
  vm_compute. reflexivity.
Defined.
